(** * json-translate: the streaming translator of [src/lib/openai.ts]

    A shallow embedding of [translate] and of the parts of the ECMAScript
    and Web platform it calls (Number arithmetic, String methods, the two
    regular expressions of [cleanJsonString], [JSON.parse],
    [JSON.stringify], [fetch] and the body reader), followed by the
    properties of the specification.

    Conventions.
    - A JavaScript string is the list of its UTF-16 code units.
    - A JavaScript Number is an IEEE 754 binary64 value; arithmetic rounds
      to nearest, ties to even.
    - The call stack of the engine is finite.  [JSON.stringify] and the
      conversion of an Array to a String call themselves for every level
      of nesting, and throw a RangeError for a value nested more deeply
      than the stack has room for; where that happens is left to the
      engine, as a part of the environment of the call.
    - [console.log], [console.warn] and [console.error] only write to the
      console and are left out.
    - [onProgress] and [onStream] are observers: each invocation is
      recorded, in order, in the trace returned next to the completion. *)

From Stdlib Require Import ZArith NArith Bool Lia String Ascii List.
From Stdlib Require Import Sorting.Sorted.
From Stdlib.Strings Require Import Byte.
Import ListNotations.
Open Scope Z_scope.

(** ** ECMAScript Numbers *)

Module Num.

(** Every finite binary64 value is an integer multiple of 2^-1074 (the
    smallest subnormal).  [Finite neg k] is the value (-1)^neg * k * 2^-1074;
    [k] is representable when it is [m * 2^F] with [m < 2^53] and
    [k < 2^2098] (that is, the value is below 2^1024).  Two representable
    numbers are equal exactly when their constructors are. *)
Inductive number : Type :=
| NaN
| Infinity (neg : bool)
| Finite (neg : bool) (k : Z).

Definition overflow_threshold : Z := 2 ^ 2098.

(** Nearest integer to [n / d], ties to even ([0 <= n], [0 < d]). *)
Definition rne (n d : Z) : Z :=
  let q := n / d in
  let r := n mod d in
  match 2 * r ?= d with
  | Lt => q
  | Gt => q + 1
  | Eq => if Z.even q then q else q + 1
  end.

(** The least [F >= 0] with [a / b < 2^(F + 53)]: the exponent (relative to
    2^-1074) at which [a / b], given in units of 2^-1074, has a 53-bit
    significand.  [F = 0] is the subnormal range and the first binade. *)
Definition binade (a b : Z) : Z :=
  let g := Z.max 0 (Z.log2 a - Z.log2 b - 53) in
  if a <? b * 2 ^ (g + 53) then g else g + 1.

(** Rounding of the exact value [a / b] (units of 2^-1074, [0 <= a],
    [0 < b]) to binary64, round to nearest, ties to even; overflow gives
    an infinity. *)
Definition round_ratio (neg : bool) (a b : Z) : number :=
  if a =? 0 then Finite neg 0
  else
    let F := binade a b in
    let k := rne a (b * 2 ^ F) * 2 ^ F in
    if k <? overflow_threshold then Finite neg k else Infinity neg.

Definition signed (neg : bool) (k : Z) : Z := if neg then - k else k.

(** Number::divide *)
Definition fdiv (x y : number) : number :=
  match x, y with
  | NaN, _ | _, NaN => NaN
  | Infinity _, Infinity _ => NaN
  | Infinity s, Finite t _ => Infinity (xorb s t)
  | Finite s _, Infinity t => Finite (xorb s t) 0
  | Finite s a, Finite t b =>
      if b =? 0 then (if a =? 0 then NaN else Infinity (xorb s t))
      else round_ratio (xorb s t) (a * 2 ^ 1074) b
  end.

(** Number::multiply *)
Definition fmul (x y : number) : number :=
  match x, y with
  | NaN, _ | _, NaN => NaN
  | Infinity s, Infinity t => Infinity (xorb s t)
  | Infinity s, Finite t b | Finite t b, Infinity s =>
      if b =? 0 then NaN else Infinity (xorb s t)
  | Finite s a, Finite t b => round_ratio (xorb s t) (a * b) (2 ^ 1074)
  end.

(** Number::add *)
Definition fadd (x y : number) : number :=
  match x, y with
  | NaN, _ | _, NaN => NaN
  | Infinity s, Infinity t => if Bool.eqb s t then Infinity s else NaN
  | Infinity s, Finite _ _ | Finite _ _, Infinity s => Infinity s
  | Finite s a, Finite t b =>
      let z := signed s a + signed t b in
      if z =? 0 then Finite (s && t) 0
      else round_ratio (z <? 0) (Z.abs z) 1
  end.

(** The Number value for a mathematical integer. *)
Definition of_Z (n : Z) : number := round_ratio (n <? 0) (Z.abs n * 2 ^ 1074) 1.

Definition of_nat (n : nat) : number := of_Z (Z.of_nat n).

(** Math.round: the closest integral Number, ties toward +Infinity; a zero
    result keeps the sign of the argument. *)
Definition Math_round (x : number) : number :=
  match x with
  | Finite s k =>
      let n := (2 * signed s k + 2 ^ 1074) / 2 ^ 1075 in
      if n =? 0 then Finite s 0 else Finite (n <? 0) (Z.abs n * 2 ^ 1074)
  | _ => x
  end.

(** Position of a non-NaN Number in the order -Infinity < ... < -0 < +0 <
    ... < +Infinity. *)
Definition rank (x : number) : Z :=
  match x with
  | NaN => 0
  | Infinity s => signed s (2 * overflow_threshold)
  | Finite s k => 2 * signed s k - (if s then 1 else 0)
  end.

(** Math.min of two arguments. *)
Definition Math_min (x y : number) : number :=
  match x, y with
  | NaN, _ | _, NaN => NaN
  | _, _ => if rank x <=? rank y then x else y
  end.

(** [x === n] for a Number [x] and an integer [n]: both zeros are equal to 0. *)
Definition strict_equals_Z (x : number) (n : Z) : bool :=
  match x with
  | Finite s k => signed s k =? n * 2 ^ 1074
  | _ => false
  end.

(** ToBoolean on a Number: false for +0, -0 and NaN. *)
Definition truthy (x : number) : bool :=
  match x with
  | NaN => false
  | Finite _ k => negb (k =? 0)
  | Infinity _ => true
  end.

Definition is_finite (x : number) : bool :=
  match x with Finite _ _ => true | _ => false end.

End Num.

(** ** ECMAScript Strings *)

Module Str.

(** A String is a sequence of UTF-16 code units. *)
Definition jsstring : Type := list N.

(** The String whose code units are the characters of an ASCII literal. *)
Definition str (s : string) : jsstring := map N_of_ascii (list_ascii_of_string s).

(** As [str], with every apostrophe of the literal standing for a
    quotation mark (U+0022). *)
Definition qstr (s : string) : jsstring :=
  map (fun c => if N.eqb c 39 then 34%N else c) (str s).

Definition LF : N := 10.
Definition QUOTE : N := 34.
Definition BACKSLASH : N := 92.
Definition BACKTICK : N := 96.

Fixpoint eqb (s t : jsstring) : bool :=
  match s, t with
  | [], [] => true
  | c :: s', d :: t' => N.eqb c d && eqb s' t'
  | _, _ => false
  end.

(** String.prototype.startsWith *)
Fixpoint startsWith (s prefix : jsstring) {struct prefix} : bool :=
  match prefix, s with
  | [], _ => true
  | p :: prefix', c :: s' => N.eqb c p && startsWith s' prefix'
  | _ :: _, [] => false
  end.

(** [s.slice(n)] for [0 <= n]. *)
Definition slice (n : nat) (s : jsstring) : jsstring := skipn n s.

(** [s.split(sep)] for a separator of one code unit. *)
Fixpoint split (sep : N) (s : jsstring) : list jsstring :=
  match s with
  | [] => [[]]
  | c :: s' =>
      if N.eqb c sep then [] :: split sep s'
      else match split sep s' with
           | piece :: pieces => (c :: piece) :: pieces
           | [] => [[c]]
           end
  end.

(** WhiteSpace and LineTerminator code units, the ones [trim] removes. *)
Definition is_trim_space (c : N) : bool :=
  ((9 <=? c) && (c <=? 13) || N.eqb c 32 || N.eqb c 160 || N.eqb c 5760
   || (8192 <=? c) && (c <=? 8202) || N.eqb c 8232 || N.eqb c 8233
   || N.eqb c 8239 || N.eqb c 8287 || N.eqb c 12288 || N.eqb c 65279)%N.

Fixpoint trimStart (s : jsstring) : jsstring :=
  match s with
  | c :: s' => if is_trim_space c then trimStart s' else s
  | [] => []
  end.

Definition trimEnd (s : jsstring) : jsstring := rev (trimStart (rev s)).

(** String.prototype.trim *)
Definition trim (s : jsstring) : jsstring := trimEnd (trimStart s).

Definition fence : jsstring := [BACKTICK; BACKTICK; BACKTICK].

(** [s.replace(/```(json)?\n/g, '')]: scanning from the left, every
    occurrence of three backticks, optionally followed by [json], followed
    by a line feed is removed; the scan resumes after the match. *)
Fixpoint replace_fence_newline (s : jsstring) : jsstring :=
  match s with
  | [] => []
  | c :: s' =>
      match s with
      | 96 :: 96 :: 96 :: 106 :: 115 :: 111 :: 110 :: 10 :: r =>
          replace_fence_newline r
      | 96 :: 96 :: 96 :: 10 :: r => replace_fence_newline r
      | _ => c :: replace_fence_newline s'
      end%N
  end.

(** [s.replace(/```$/g, '')]: without the [m] flag [$] only matches at the
    end of the input, so the one possible match is a final run of three
    backticks. *)
Fixpoint replace_fence_end (s : jsstring) : jsstring :=
  match s with
  | [] => []
  | c :: s' => if eqb s fence then [] else c :: replace_fence_end s'
  end.

End Str.

(** ** TextDecoder *)

Module Utf8.

Import Str.

(** State of the WHATWG UTF-8 decoder between two bytes. *)
Record state : Type := mkState {
  code_point : N;
  bytes_needed : nat;
  lower_boundary : N;
  upper_boundary : N
}.

Definition initial : state := mkState 0 0 128 191.

(** What a byte does when no sequence is pending. *)
Inductive lead : Type :=
| Scalar (cp : N)
| Pending (st : state)
| Invalid.

Definition lead_byte (b : N) : lead :=
  (if b <=? 127 then Scalar b
   else if (194 <=? b) && (b <=? 223) then Pending (mkState (N.land b 31) 1 128 191)
   else if (224 <=? b) && (b <=? 239) then
     Pending (mkState (N.land b 15) 2
                (if N.eqb b 224 then 160 else 128)
                (if N.eqb b 237 then 159 else 191))
   else if (240 <=? b) && (b <=? 244) then
     Pending (mkState (N.land b 7) 3
                (if N.eqb b 240 then 144 else 128)
                (if N.eqb b 244 then 143 else 191))
   else Invalid)%N.

Definition REPLACEMENT : N := 65533.

(** The code points decoded from a byte sequence, errors replaced by
    U+FFFD.  A byte that cannot continue the pending sequence ends it with
    an error and is then read again as a lead byte. *)
Fixpoint decode_from (st : state) (bytes : list byte) : list N :=
  match bytes with
  | [] => match bytes_needed st with O => [] | S _ => [REPLACEMENT] end
  | b :: rest =>
      let b := Byte.to_N b in
      let fresh :=
        match lead_byte b with
        | Scalar cp => cp :: decode_from initial rest
        | Pending st' => decode_from st' rest
        | Invalid => REPLACEMENT :: decode_from initial rest
        end in
      match bytes_needed st with
      | O => fresh
      | S more =>
          if ((lower_boundary st <=? b) && (b <=? upper_boundary st))%N then
            let cp := N.lor (N.shiftl (code_point st) 6) (N.land b 63) in
            match more with
            | O => cp :: decode_from initial rest
            | S _ => decode_from (mkState cp more 128 191) rest
            end
          else REPLACEMENT :: fresh
      end
  end.

(** UTF-16 encoding of one code point. *)
Definition utf16 (cp : N) : jsstring :=
  (if cp <? 65536 then [cp]
   else let c := cp - 65536 in [55296 + c / 1024; 56320 + c mod 1024])%N.

(** [new TextDecoder().decode(value)]: UTF-8, replacement on error, and a
    leading byte order mark is dropped. *)
Definition decode (value : list byte) : jsstring :=
  let cps := decode_from initial value in
  let cps := match cps with 65279%N :: r => r | _ => cps end in
  flat_map utf16 cps.

(** The bytes of an ASCII literal. *)
Definition bytes (s : string) : list byte := list_byte_of_string s.

End Utf8.

(** ** Numbers as decimal text *)

Module NumText.

Import Num Str.

(** The decimal digits of [n], as digit values, in front of the less
    significant digits [less]; [fuel] bounds the number of digits. *)
Fixpoint digits_from (fuel : nat) (n : Z) (less : list N) : list N :=
  match fuel with
  | O => less
  | S fuel' =>
      if n <? 10 then Z.to_N n :: less
      else digits_from fuel' (n / 10) (Z.to_N (n mod 10) :: less)
  end.

(** The decimal digits of a natural number, most significant first, as
    digit values; [[0]] for zero. *)
Definition decimal_digits (n : Z) : list N :=
  digits_from (S (Z.to_nat (Z.log2 n))) n [].

(** The number written by a sequence of digit values. *)
Definition digits_value (ds : list N) : Z :=
  fold_left (fun acc d => 10 * acc + Z.of_N d) ds 0.

Definition digit_chars (ds : list N) : jsstring := map (fun d => 48 + d)%N ds.

Definition number_eqb (x y : number) : bool :=
  match x, y with
  | NaN, NaN => true
  | Infinity s, Infinity t => Bool.eqb s t
  | Finite s a, Finite t b => Bool.eqb s t && (a =? b)
  | _, _ => false
  end.

(** The Number value of the decimal [D * 10^X], [0 <= D]: the exact value
    rounded to binary64.  The first two tests only keep the powers of ten
    small: at least 10^401 is above every finite Number, and a value
    below 8^-400 rounds to zero. *)
Definition decimal_to_number (neg : bool) (D X : Z) : number :=
  if D =? 0 then Finite neg 0
  else if 400 <? X then Infinity neg
  else if Z.log2 D + 1 <? 3 * (- X - 400) then Finite neg 0
  else if 0 <=? X then round_ratio neg (D * 10 ^ X * 2 ^ 1074) 1
  else round_ratio neg (D * 2 ^ 1074) (10 ^ (- X)).

(** [k * 2^-1074 < 10^n] *)
Definition lt_pow10 (k n : Z) : bool :=
  if 0 <=? n then k <? 10 ^ n * 2 ^ 1074 else k * 10 ^ (- n) <? 2 ^ 1074.

Fixpoint find_exponent (fuel : nat) (k n : Z) : Z :=
  match fuel with
  | O => n
  | S fuel' => if lt_pow10 k n then n else find_exponent fuel' k (n + 1)
  end.

(** The integer [n] with [10^(n-1) <= k * 2^-1074 < 10^n], for [0 < k]
    below the overflow threshold (so [-323 <= n <= 309]).  The search
    starts just below the estimate [log2 k * log10 2] when the value is not
    below that power of ten, and from the least possible [n] otherwise. *)
Definition decimal_exponent (k : Z) : Z :=
  let guess := (Z.log2 k - 1074) * 30103 / 100000 - 1 in
  find_exponent 640 k (if lt_pow10 k guess then -323 else guess + 1).

(** [floor (k * 2^-1074 / 10^p)] *)
Definition floor_scaled (k p : Z) : Z :=
  if 0 <=? p then k / (10 ^ p * 2 ^ 1074) else (k * 10 ^ (- p)) / 2 ^ 1074.

(** Is [s * 10^(n - number of digits of s)] read back as [Finite false k]? *)
Definition candidate_ok (k s n : Z) : bool :=
  number_eqb
    (decimal_to_number false s (n - Z.of_nat (length (decimal_digits s))))
    (Finite false k).

(** Comparison of twice the value [k * 2^-1074] with [(2 * lo + 1) * 10^p],
    that is of the value with the midpoint of [lo * 10^p] and
    [(lo + 1) * 10^p]. *)
Definition compare_midpoint (k lo p : Z) : comparison :=
  if 0 <=? p then 2 * k ?= (2 * lo + 1) * 10 ^ p * 2 ^ 1074
  else 2 * k * 10 ^ (- p) ?= (2 * lo + 1) * 2 ^ 1074.

(** Number::toString, step 5: integers [n], [len], [s] with
    [10^(len-1) <= s < 10^len] such that [s * 10^(n-len)] converts to the
    Number, [len] as small as possible; among several [s] the closest to
    the value, and the even one of two equally close. The result is
    [(s, n)]. For a given [len] only the [len]-digit decimals just below
    and just above the value can be closest. *)
Fixpoint shortest_from (fuel : nat) (k n0 len : Z) : option (Z * Z) :=
  match fuel with
  | O => None
  | S fuel' =>
      let p := n0 - len in
      let lo := floor_scaled k p in
      let hi := if lo + 1 =? 10 ^ len then (10 ^ (len - 1), n0 + 1) else (lo + 1, n0) in
      let lo_ok := (10 ^ (len - 1) <=? lo) && candidate_ok k lo n0 in
      let hi_ok := candidate_ok k (fst hi) (snd hi) in
      match lo_ok, hi_ok with
      | true, true =>
          match compare_midpoint k lo p with
          | Lt => Some (lo, n0)
          | Gt => Some hi
          | Eq => if Z.even lo then Some (lo, n0) else Some hi
          end
      | true, false => Some (lo, n0)
      | false, true => Some hi
      | false, false => shortest_from fuel' k n0 (len + 1)
      end
  end.

(** The value [k * 2^-1074] is a decimal with at most 1074 digits after
    the point and, below 2^1024, at most 309 before it: a length of 1383
    succeeds if no shorter one does. *)
Definition shortest (k : Z) : option (Z * Z) :=
  shortest_from 1400 k (decimal_exponent k) 1.

Definition zeros (n : Z) : jsstring := repeat 48%N (Z.to_nat n).

(** Number::toString, steps 9 and 10: one digit, the others after a point,
    and the exponent [n - 1] with its sign. *)
Definition exponential (ds : jsstring) (n : Z) : jsstring :=
  let e := n - 1 in
  let exponent :=
    str "e" ++ (if e <? 0 then str "-" else str "+")
      ++ digit_chars (decimal_digits (Z.abs e)) in
  match ds with
  | [] => []
  | [d] => d :: exponent
  | d :: more => d :: str "." ++ more ++ exponent
  end.

(** Number::toString, steps 6 to 10, from the digits of [s] and [n]. *)
Definition format_decimal (digits : list N) (n : Z) : jsstring :=
  let len := Z.of_nat (length digits) in
  let ds := digit_chars digits in
  if (len <=? n) && (n <=? 21) then ds ++ zeros (n - len)
  else if (0 <? n) && (n <=? 21) then
    firstn (Z.to_nat n) ds ++ str "." ++ skipn (Z.to_nat n) ds
  else if (-6 <? n) && (n <=? 0) then str "0." ++ zeros (- n) ++ ds
  else exponential ds n.

(** Number::toString with radix 10.  [shortest] finds its digits for every
    finite Number; the last branch is for integers [k] that are no Number. *)
Definition Number_toString (x : number) : jsstring :=
  match x with
  | NaN => str "NaN"
  | Infinity s => (if s then str "-" else []) ++ str "Infinity"
  | Finite s k =>
      if k =? 0 then str "0"
      else (if s then str "-" else []) ++
           match shortest k with
           | Some (digits, n) => format_decimal (decimal_digits digits) n
           | None => str "NaN"
           end
  end.

End NumText.

(** ** JSON values, JSON.parse and JSON.stringify *)

Module JSON.

Import Num Str NumText.

(** The values [JSON.parse] builds.  The members of an object are kept in
    property order. *)
#[local] Unset Elimination Schemes.
Inductive value : Type :=
| Null
| Boolean (b : bool)
| Number (n : number)
| String (s : jsstring)
| Array (elements : list value)
| Object (members : list (jsstring * value)).
#[local] Set Elimination Schemes.

Definition is_digit (c : N) : bool := ((48 <=? c) && (c <=? 57))%N.

(** An array index is the canonical decimal text of an integer below
    2^32 - 1; such keys come first, in ascending order, among the own
    properties of an ordinary object. *)
Definition array_index (key : jsstring) : option Z :=
  match key with
  | [] => None
  | _ =>
      if forallb is_digit key then
        let n := digits_value (map (fun c => c - 48)%N key) in
        if Str.eqb (digit_chars (decimal_digits n)) key && (n <? 4294967295)
        then Some n else None
      else None
  end.

Fixpoint has_key (key : jsstring) (members : list (jsstring * value)) : bool :=
  match members with
  | [] => false
  | (k, _) :: rest => Str.eqb k key || has_key key rest
  end.

Fixpoint set_member (key : jsstring) (v : value) (members : list (jsstring * value))
  : list (jsstring * value) :=
  match members with
  | [] => []
  | (k, w) :: rest =>
      if Str.eqb k key then (k, v) :: rest else (k, w) :: set_member key v rest
  end.

Fixpoint insert_index (i : Z) (key : jsstring) (v : value)
  (members : list (jsstring * value)) : list (jsstring * value) :=
  match members with
  | [] => [(key, v)]
  | (k, w) :: rest =>
      match array_index k with
      | Some j => if j <? i then (k, w) :: insert_index i key v rest
                  else (key, v) :: members
      | None => (key, v) :: members
      end
  end.

(** CreateDataProperty on an ordinary object: an existing property keeps
    its place and takes the new value; a new array index goes to its
    place among the indices; any other new key goes last. *)
Definition define_property (key : jsstring) (v : value)
  (members : list (jsstring * value)) : list (jsstring * value) :=
  if has_key key members then set_member key v members
  else match array_index key with
       | Some i => insert_index i key v members
       | None => members ++ [(key, v)]
       end.

Definition is_json_space (c : N) : bool :=
  (N.eqb c 9 || N.eqb c 10 || N.eqb c 13 || N.eqb c 32)%N.

Fixpoint skip_ws (s : jsstring) : jsstring :=
  match s with
  | c :: s' => if is_json_space c then skip_ws s' else s
  | [] => []
  end.

Definition hex_value (c : N) : option N :=
  (if (48 <=? c) && (c <=? 57) then Some (c - 48)
   else if (97 <=? c) && (c <=? 102) then Some (c - 87)
   else if (65 <=? c) && (c <=? 70) then Some (c - 55)
   else None)%N.

Definition hex4 (a b c d : N) : option N :=
  match hex_value a, hex_value b, hex_value c, hex_value d with
  | Some x, Some y, Some z, Some w => Some (((x * 16 + y) * 16 + z) * 16 + w)%N
  | _, _, _, _ => None
  end.

(** The code unit for the character after a backslash, [u] apart. *)
Definition escape (c : N) : option N :=
  (if N.eqb c 34 then Some 34         (* quotation mark *)
   else if N.eqb c 92 then Some 92    (* reverse solidus *)
   else if N.eqb c 47 then Some 47    (* solidus *)
   else if N.eqb c 98 then Some 8     (* b *)
   else if N.eqb c 102 then Some 12   (* f *)
   else if N.eqb c 110 then Some 10   (* n *)
   else if N.eqb c 114 then Some 13   (* r *)
   else if N.eqb c 116 then Some 9    (* t *)
   else None)%N.

Definition prepend (c : N) (r : option (jsstring * jsstring)) : option (jsstring * jsstring) :=
  match r with
  | Some (t, rest) => Some (c :: t, rest)
  | None => None
  end.

(** The characters of a JSON string, after its opening quotation mark, up
    to and including the closing one; gives the String value and the rest
    of the input. *)
Fixpoint parse_chars (s : jsstring) : option (jsstring * jsstring) :=
  match s with
  | [] => None
  | c :: r =>
      if N.eqb c 34 then Some ([], r)
      else if N.eqb c 92 then
        match r with
        | [] => None
        | e :: r' =>
            if N.eqb e 117 then
              match r' with
              | h1 :: h2 :: h3 :: h4 :: r'' =>
                  match hex4 h1 h2 h3 h4 with
                  | Some u => prepend u (parse_chars r'')
                  | None => None
                  end
              | _ => None
              end
            else
              match escape e with
              | Some u => prepend u (parse_chars r')
              | None => None
              end
        end
      else if (c <? 32)%N then None
      else prepend c (parse_chars r)
  end.

(** The longest prefix of decimal digits, as digit values, and the rest. *)
Fixpoint take_digits (s : jsstring) : list N * jsstring :=
  match s with
  | c :: s' =>
      if is_digit c then let (ds, rest) := take_digits s' in ((c - 48)%N :: ds, rest)
      else ([], s)
  | [] => ([], [])
  end.

(** The fraction of a number literal: its digits (none without a
    fraction) and the rest; [None] when no digit follows the point. *)
Definition parse_fraction (s : jsstring) : option (list N * jsstring) :=
  match s with
  | 46%N :: s' =>
      match take_digits s' with
      | ([], _) => None
      | (ds, rest) => Some (ds, rest)
      end
  | _ => Some ([], s)
  end.

(** The exponent of a number literal (0 without one) and the rest. *)
Definition parse_exponent (s : jsstring) : option (Z * jsstring) :=
  match s with
  | c :: s' =>
      if N.eqb c 101 || N.eqb c 69 then
        let (neg, s'') :=
          match s' with
          | 45%N :: t => (true, t)
          | 43%N :: t => (false, t)
          | _ => (false, s')
          end in
        match take_digits s'' with
        | ([], _) => None
        | (ds, rest) => Some (signed neg (digits_value ds), rest)
        end
      else Some (0, s)
  | [] => Some (0, s)
  end.

(** A JSON number literal at the head of the input: its Number value and
    the rest of the input. *)
Definition parse_number (s : jsstring) : option (number * jsstring) :=
  let (neg, s1) :=
    match s with
    | c :: t => if N.eqb c 45 then (true, t) else (false, s)
    | [] => (false, s)
    end in
  match take_digits s1 with
  | ([], _) => None
  | (0%N :: _ :: _, _) => None
  | (int, s2) =>
      match parse_fraction s2 with
      | None => None
      | Some (frac, s3) =>
          match parse_exponent s3 with
          | None => None
          | Some (e, s4) =>
              Some (decimal_to_number neg (digits_value (int ++ frac))
                      (e - Z.of_nat (length frac)), s4)
          end
      end
  end.

Definition parse_literal (s : jsstring) : option (value * jsstring) :=
  if startsWith s (str "true") then Some (Boolean true, skipn 4 s)
  else if startsWith s (str "false") then Some (Boolean false, skipn 5 s)
  else if startsWith s (str "null") then Some (Null, skipn 4 s)
  else match parse_number s with
       | Some (n, rest) => Some (Number n, rest)
       | None => None
       end.

(** The input after the token [c], when [c] is the next character that
    is not white space. *)
Definition next_is (c : N) (s : jsstring) : option jsstring :=
  match skip_ws s with
  | c' :: r => if N.eqb c' c then Some r else None
  | [] => None
  end.

(** Recursive descent over the JSON grammar.  [fuel] bounds the number of
    nested calls; each call consumes input, so the length of the input
    plus one is enough. *)
Fixpoint parse_value (fuel : nat) (s : jsstring) : option (value * jsstring) :=
  match fuel with
  | O => None
  | S fuel' =>
      match skip_ws s with
      | [] => None
      | c :: r =>
          if N.eqb c 123 then          (* left brace *)
            match next_is 125 r with
            | Some r' => Some (Object [], r')
            | None => parse_members fuel' r []
            end
          else if N.eqb c 91 then      (* left bracket *)
            match next_is 93 r with
            | Some r' => Some (Array [], r')
            | None => parse_elements fuel' r []
            end
          else if N.eqb c 34 then      (* quotation mark *)
            match parse_chars r with
            | Some (t, r') => Some (String t, r')
            | None => None
            end
          else parse_literal (c :: r)
      end
  end

with parse_elements (fuel : nat) (s : jsstring) (seen : list value)
  : option (value * jsstring) :=
  match fuel with
  | O => None
  | S fuel' =>
      match parse_value fuel' s with
      | None => None
      | Some (v, r) =>
          match next_is 44 r with      (* comma *)
          | Some r' => parse_elements fuel' r' (v :: seen)
          | None =>
              match next_is 93 r with  (* right bracket *)
              | Some r' => Some (Array (rev (v :: seen)), r')
              | None => None
              end
          end
      end
  end

with parse_members (fuel : nat) (s : jsstring) (object : list (jsstring * value))
  : option (value * jsstring) :=
  match fuel with
  | O => None
  | S fuel' =>
      match next_is 34 s with
      | None => None
      | Some r =>
          match parse_chars r with
          | None => None
          | Some (key, r1) =>
              match next_is 58 r1 with  (* colon *)
              | None => None
              | Some r2 =>
                  match parse_value fuel' r2 with
                  | None => None
                  | Some (v, r3) =>
                      match next_is 44 r3 with
                      | Some r4 =>
                          parse_members fuel' r4 (define_property key v object)
                      | None =>
                          match next_is 125 r3 with  (* right brace *)
                          | Some r4 => Some (Object (define_property key v object), r4)
                          | None => None
                          end
                      end
                  end
              end
          end
      end
  end.

(** [JSON.parse(text)]: [None] stands for the SyntaxError. *)
Definition JSON_parse (text : jsstring) : option value :=
  match parse_value (S (length text)) text with
  | Some (v, rest) =>
      match skip_ws rest with
      | [] => Some v
      | _ :: _ => None
      end
  | None => None
  end.

Definition hex_digit (n : N) : N := (if n <? 10 then 48 + n else 87 + n)%N.

(** UnicodeEscape: [\uXXXX] with lowercase hexadecimal digits. *)
Definition UnicodeEscape (c : N) : jsstring :=
  [92; 117; hex_digit (c / 4096 mod 16); hex_digit (c / 256 mod 16);
   hex_digit (c / 16 mod 16); hex_digit (c mod 16)]%N.

Definition is_leading_surrogate (c : N) : bool := ((55296 <=? c) && (c <=? 56319))%N.
Definition is_trailing_surrogate (c : N) : bool := ((56320 <=? c) && (c <=? 57343))%N.

(** The body of QuoteJSONString: code point by code point, a surrogate
    that is not part of a pair is escaped. *)
Fixpoint quote_chars (s : jsstring) : jsstring :=
  match s with
  | [] => []
  | c :: r =>
      if N.eqb c 8 then [92; 98]%N ++ quote_chars r
      else if N.eqb c 9 then [92; 116]%N ++ quote_chars r
      else if N.eqb c 10 then [92; 110]%N ++ quote_chars r
      else if N.eqb c 12 then [92; 102]%N ++ quote_chars r
      else if N.eqb c 13 then [92; 114]%N ++ quote_chars r
      else if N.eqb c 34 then [92; 34]%N ++ quote_chars r
      else if N.eqb c 92 then [92; 92]%N ++ quote_chars r
      else if (c <? 32)%N then UnicodeEscape c ++ quote_chars r
      else if is_leading_surrogate c then
        match r with
        | d :: r' =>
            if is_trailing_surrogate d then c :: d :: quote_chars r'
            else UnicodeEscape c ++ quote_chars r
        | [] => UnicodeEscape c
        end
      else if is_trailing_surrogate c then UnicodeEscape c ++ quote_chars r
      else c :: quote_chars r
  end.

Definition QuoteJSONString (s : jsstring) : jsstring := 34%N :: quote_chars s ++ [34%N].

Fixpoint join (sep : jsstring) (parts : list jsstring) : jsstring :=
  match parts with
  | [] => []
  | [p] => p
  | p :: rest => p ++ sep ++ join sep rest
  end.

(** The text of a non-empty array or object from the texts of its
    elements or members, [open] and [close] being the brackets. *)
Definition wrap (gap stepback : jsstring) (open close : N) (partial : list jsstring)
  : jsstring :=
  match gap with
  | [] => open :: join [44%N] partial ++ [close]
  | _ =>
      let indent := stepback ++ gap in
      open :: LF :: indent ++ join (44%N :: LF :: indent) partial
        ++ LF :: stepback ++ [close]
  end.

(** SerializeJSONProperty for the values of [JSON.parse] (no [toJSON], no
    replacer): [gap] is the indentation unit, [indent] the current
    indentation. *)
Fixpoint SerializeJSONProperty (gap indent : jsstring) (v : value) : jsstring :=
  match v with
  | Null => str "null"
  | Boolean true => str "true"
  | Boolean false => str "false"
  | Number n => if is_finite n then Number_toString n else str "null"
  | String s => QuoteJSONString s
  | Array [] => str "[]"
  | Array elements =>
      wrap gap indent 91 93
        (map (SerializeJSONProperty gap (indent ++ gap)) elements)
  | Object [] => str "{}"
  | Object members =>
      wrap gap indent 123 125
        (map (fun m : jsstring * value =>
                QuoteJSONString (fst m) ++ 58%N
                  :: match gap with [] => [] | _ => [32%N] end
                  ++ SerializeJSONProperty gap (indent ++ gap) (snd m))
             members)
  end.

(** [JSON.stringify(v, null, space)] for a number of spaces [0 <= space <= 10]. *)
Definition JSON_stringify (v : value) (space : nat) : jsstring :=
  SerializeJSONProperty (repeat 32%N space) [] v.

(** ToString applied to a value of [JSON.parse], as string concatenation
    does, the stack permitting; [None] stands for the TypeError of an
    object whose own [toString] property is not callable. *)
Fixpoint ToString (v : value) : option jsstring :=
  match v with
  | Null => Some (str "null")
  | Boolean true => Some (str "true")
  | Boolean false => Some (str "false")
  | Number n => Some (Number_toString n)
  | String s => Some s
  | Array elements =>
      (fix join_elements (l : list value) : option jsstring :=
         match l with
         | [] => Some []
         | e :: rest =>
             match match e with Null => Some [] | _ => ToString e end,
                   join_elements rest with
             | Some t, Some u =>
                 Some (match rest with [] => t | _ :: _ => t ++ 44%N :: u end)
             | _, _ => None
             end
         end) elements
  | Object members =>
      if has_key (str "toString") members then None
      else Some (str "[object Object]")
  end.

(** ToBoolean *)
Definition ToBoolean (v : value) : bool :=
  match v with
  | Null => false
  | Boolean b => b
  | Number n => truthy n
  | String s => match s with [] => false | _ => true end
  | Array _ | Object _ => true
  end.

Fixpoint lookup (key : jsstring) (members : list (jsstring * value)) : option value :=
  match members with
  | [] => None
  | (k, v) :: rest => if Str.eqb k key then Some v else lookup key rest
  end.

(** [base[key]] for a [base] that is neither [null] nor [undefined] and a
    [key] that no prototype defines (the source reads [choices], [0],
    [delta] and [content]); [None] is [undefined]. *)
Definition own_property (base : value) (key : jsstring) : option value :=
  match base with
  | Object members => lookup key members
  | Array elements =>
      match array_index key with
      | Some i => nth_error elements (Z.to_nat i)
      | None => None
      end
  | String s =>
      match array_index key with
      | Some i => match nth_error s (Z.to_nat i) with
                  | Some c => Some (String [c])
                  | None => None
                  end
      | None => None
      end
  | _ => None
  end.

End JSON.

(** ** The translator *)

Module Translate.

Import Num Str NumText JSON.

(** *** The platform *)

(** What [throw] and a rejected promise can carry. *)
Inductive Thrown : Type :=
| ErrorObject (name message : jsstring)   (* an Error or one of its subclasses *)
| DOMException (name message : jsstring)
| OtherValue (description : jsstring).    (* any value that is no Error *)

(** [new Error(message)] *)
Definition Error (message : jsstring) : Thrown := ErrorObject (str "Error") message.

(** [error instanceof Error]: DOMException.prototype inherits from
    Error.prototype. *)
Definition instanceof_Error (error : Thrown) : bool :=
  match error with
  | ErrorObject _ _ | DOMException _ _ => true
  | OtherValue _ => false
  end.

(** [error instanceof DOMException && error.name === 'AbortError'] *)
Definition is_AbortError (error : Thrown) : bool :=
  match error with
  | DOMException name _ => Str.eqb name (str "AbortError")
  | _ => false
  end.

(** The call suspends at its awaits: number 0 is the [fetch], number [i]
    for [1 <= i] the [i]-th [reader.read()].  An AbortSignal never goes
    back from aborted; [fires_at] is the await during which (or before
    which, for 0) it becomes aborted, if it ever does. *)
Record AbortSignal : Type := { fires_at : option nat }.

(** [signal?.aborted], read once await number [time] has settled. *)
Definition aborted (signal : option AbortSignal) (time : nat) : bool :=
  match signal with
  | Some {| fires_at := Some t |} => Nat.leb t time
  | _ => false
  end.

Inductive StreamEnd : Type :=
| Closed
| Errored (reason : Thrown).

(** What the reader of a response body delivers: the values of the reads
    that carry a fragment, then either [done] or a rejected read. *)
Record ReadableStream : Type := {
  chunks : list (list byte);
  ending : StreamEnd
}.

Record Response : Type := {
  status : Z;
  body : option ReadableStream
}.

(** [response.ok]: the status is in the range 200 to 299. *)
Definition ok (response : Response) : bool :=
  (200 <=? status response) && (status response <=? 299).

Record RequestInit : Type := {
  method : jsstring;
  headers : list (jsstring * jsstring);
  request_body : jsstring;
  request_signal : option AbortSignal
}.

Inductive Settled : Type :=
| Fulfilled (response : Response)
| Rejected (reason : Thrown).

(** The environment of one call: the two variables of [process.env], the
    answer of the network to a request, and what the ECMAScript
    specification leaves to the engine.  That is the message of the
    SyntaxError of [JSON.parse] for a text, and the room on the call
    stack: [stringify_RangeError v] is the message of the RangeError that
    [JSON.stringify(v, null, 2)] throws when it exhausts the stack on
    [v], and [join_RangeError v] tells whether the conversion of the
    Array [v] to a String exhausts it. *)
Record World : Type := {
  NEXT_PUBLIC_GEMINI_API_URL : option jsstring;
  NEXT_PUBLIC_GEMINI_API_KEY : option jsstring;
  fetch : jsstring -> RequestInit -> Settled;
  SyntaxError_message : jsstring -> jsstring;
  stringify_RangeError : value -> option jsstring;
  join_RangeError : value -> bool
}.

(** How the promise returned by [translate] settles. *)
Inductive Outcome : Type :=
| Resolves (result : jsstring)
| Rejects (reason : Thrown).

(** The calls made to the two optional callbacks. *)
Inductive Event : Type :=
| Progress (progress : number)
| Stream (chunk : jsstring).

(** [!v] for an environment variable: true when unset or empty. *)
Definition missing (v : option jsstring) : bool :=
  match v with
  | None | Some [] => true
  | Some (_ :: _) => false
  end.

(** *** The source *)

(** Lines 20 to 33. *)
Definition prompt (text targetLang : jsstring) : jsstring :=
  str "You are a JSON translator. Translate the following JSON content to "
    ++ targetLang ++ str "." ++ [LF; LF]
    ++ str "IMPORTANT RULES:" ++ [LF]
    ++ str "1. ONLY return the translated JSON, no explanations or other text" ++ [LF]
    ++ str "2. Keep ALL keys exactly as they are, only translate values" ++ [LF]
    ++ str "3. Maintain the EXACT same JSON structure and format" ++ [LF]
    ++ str "4. Preserve all special characters, spaces, and punctuation" ++ [LF]
    ++ str "5. Return valid JSON that can be parsed by JSON.parse()" ++ [LF]
    ++ str "6. Do not add any markdown, comments, or extra formatting" ++ [LF; LF]
    ++ str "Input JSON:" ++ [LF]
    ++ text ++ [LF; LF]
    ++ str "Remember: Return ONLY the translated JSON, nothing else.".

(** Lines 42 to 56. *)
Definition requestData (text targetLang : jsstring) : value :=
  Object
    [ (str "model", String (str "gemini-2.0-flash-exp"));
      (str "messages",
        Array
          [ Object
              [ (str "role", String (str "system"));
                (str "content",
                  String (str "You are a JSON translator. You must ONLY return valid JSON, no other text. Your response must be parseable by JSON.parse().")) ];
            Object
              [ (str "role", String (str "user"));
                (str "content", String (prompt text targetLang)) ] ]);
      (str "temperature", Number (decimal_to_number false 3 (-1)));
      (str "stream", Boolean true) ].

(** Lines 58 to 66: the second argument of [fetch]. *)
Definition request (API_KEY text targetLang : jsstring) (signal : option AbortSignal)
  : RequestInit :=
  {| method := str "POST";
     headers := [ (str "Content-Type", str "application/json");
                  (str "Authorization", str "Bearer " ++ API_KEY) ];
     request_body := JSON_stringify (requestData text targetLang) 0;
     request_signal := signal |}.

(** Lines 94 to 100. *)
Definition cleanJsonString (s : jsstring) : jsstring :=
  let s := replace_fence_end (replace_fence_newline s) in
  let s := trim s in
  s.

(** [content += c] for a truthy [c]: the String that [c] is converted
    to; [None] when the conversion throws, with a TypeError, or for an
    Array with the RangeError of an exhausted stack. *)
Definition appended (w : World) (c : value) : option jsstring :=
  match c with
  | Array _ => if join_RangeError w c then None else ToString c
  | _ => ToString c
  end.

(** Line 123, [parsedData.choices[0]?.delta?.content || '']: the String
    appended to [content]; [None] when the evaluation throws (a TypeError
    for reading a property of [null] or [undefined], or an error from the
    conversion to a String). *)
Definition delta_content (w : World) (parsedData : value) : option jsstring :=
  match parsedData with
  | Null => None
  | _ =>
      match own_property parsedData (str "choices") with
      | None | Some Null => None
      | Some choices =>
          let delta :=
            match own_property choices (str "0") with
            | None | Some Null => None
            | Some choice => own_property choice (str "delta")
            end in
          let content :=
            match delta with
            | None | Some Null => None
            | Some d => own_property d (str "content")
            end in
          match content with
          | None => Some []
          | Some c => if ToBoolean c then appended w c else Some []
          end
      end
  end.

(** Lines 117 to 128, the body of the loop over the lines: what one line
    adds to [content]. *)
Definition line_content (w : World) (line : jsstring) : jsstring :=
  if startsWith line (str "data: ") then
    let jsonLine := slice 6 line in
    if Str.eqb jsonLine (str "[DONE]") then []
    else
      match JSON_parse jsonLine with
      | None => []                      (* caught: SyntaxError *)
      | Some parsedData =>
          match delta_content w parsedData with
          | None => []                  (* caught: TypeError, RangeError *)
          | Some delta => delta
          end
      end
  else [].

(** Lines 106 to 129: [content] for one fragment. *)
Definition chunk_content (w : World) (value : list byte) : jsstring :=
  let chunk := Utf8.decode value in
  let lines := split LF chunk in
  fold_left (fun content line => content ++ line_content w line) lines [].

(** The variables of lines 89 and 90. *)
Record Progression : Type := {
  fullContent : jsstring;
  tokenCount : number
}.

(** Line 134. *)
Definition progress_of (tokenCount estimatedTokens : number) : number :=
  Math_min (Math_round (fmul (fdiv tokenCount estimatedTokens) (of_Z 100))) (of_Z 100).

(** Lines 131 to 143: one turn of the loop after a read that carries a
    fragment; gives the new variables and the calls to the callbacks. *)
Definition step (w : World) (estimatedTokens : number) (onProgress onStream : bool)
  (st : Progression) (value : list byte) : Progression * list Event :=
  let content := chunk_content w value in
  let fullContent := fullContent st ++ content in
  let tokenCount := fadd (tokenCount st) (fdiv (of_nat (length content)) (of_Z 4)) in
  let progress := progress_of tokenCount estimatedTokens in
  ({| fullContent := fullContent; tokenCount := tokenCount |},
   (if onProgress then [Progress progress] else [])
     ++ (if onStream then [Stream fullContent] else [])).

(** Lines 102 to 144: the loop, over the fragments that the reader delivers. *)
Fixpoint read_all (w : World) (estimatedTokens : number) (onProgress onStream : bool)
  (st : Progression) (values : list (list byte)) : Progression * list Event :=
  match values with
  | [] => (st, [])
  | value :: rest =>
      let (st', events) := step w estimatedTokens onProgress onStream st value in
      let (final, later) := read_all w estimatedTokens onProgress onStream st' rest in
      (final, events ++ later)
  end.

(** How the [try] block of lines 19 to 169 ends: with a [return], or with
    a value thrown once await number [time] has settled. *)
Inductive Attempt : Type :=
| Returned (result : jsstring)
| Threw (error : Thrown) (time : nat).

(** Lines 19 to 168. *)
Definition attempt (w : World) (API_URL API_KEY text targetLang : jsstring)
  (signal : option AbortSignal) (onProgress onStream : bool) : Attempt * list Event :=
  match fetch w API_URL (request API_KEY text targetLang signal) with
  | Rejected reason => (Threw reason 0, [])
  | Fulfilled response =>
      if negb (ok response) then
        if status response =? 401 then
          (Threw (Error (str "Invalid or expired API Key")) 0, [])
        else if status response =? 429 then
          (Threw (Error (str "API call limit reached")) 0, [])
        else
          (Threw (Error (str "API request failed with status "
                           ++ Number_toString (of_Z (status response)))) 0, [])
      else
        match body response with
        | None => (Threw (Error (str "Stream not supported")) 0, [])
        | Some reader =>
            let estimatedTokens := fdiv (of_nat (length text)) (of_Z 4) in
            let (st, events) :=
              read_all w estimatedTokens onProgress onStream
                {| fullContent := []; tokenCount := of_Z 0 |} (chunks reader) in
            let time := S (length (chunks reader)) in
            match ending reader with
            | Errored reason => (Threw reason time, events)
            | Closed =>
                let fullContent := cleanJsonString (fullContent st) in
                (* lines 151 to 158: the new [fullContent], or the message
                   of the error that the inner [try] block throws *)
                let validated :=
                  match JSON_parse fullContent with
                  | None => inr (SyntaxError_message w fullContent)
                  | Some parsedJson =>
                      match stringify_RangeError w parsedJson with
                      | Some message => inr message
                      | None => inl (JSON_stringify parsedJson 2)
                      end
                  end in
                match validated with
                | inl fullContent => (Returned fullContent, events)
                | inr message =>
                    if aborted signal time then (Returned [], events)
                    else
                      (Threw (Error (str "Invalid translation result format: "
                                       ++ message)) time,
                       events)
                end
            end
        end
  end.

(** Lines 170 to 186: the [catch] clause. *)
Definition handler (signal : option AbortSignal) (error : Thrown) (time : nat) : Outcome :=
  if aborted signal time || is_AbortError error then Resolves []
  else if instanceof_Error error then Rejects error
  else Rejects (Error (str "Unknown error occurred")).

(** Lines 1 to 187.  [onProgress] and [onStream] tell whether the callback
    is given. *)
Definition translate (w : World) (text targetLang : jsstring)
  (signal : option AbortSignal) (onProgress onStream : bool) : Outcome * list Event :=
  match NEXT_PUBLIC_GEMINI_API_URL w, NEXT_PUBLIC_GEMINI_API_KEY w with
  | API_URL, API_KEY =>
      if missing API_KEY then (Rejects (Error (str "API_KEY not configured")), [])
      else if missing API_URL then (Rejects (Error (str "API_URL not configured")), [])
      else
        match attempt w (match API_URL with Some u => u | None => [] end)
                (match API_KEY with Some k => k | None => [] end)
                text targetLang signal onProgress onStream with
        | (Returned result, events) => (Resolves result, events)
        | (Threw error time, events) => (handler signal error time, events)
        end
  end.

End Translate.

(** ** Notions used to state the properties *)

Module Properties.

Import Num Str NumText JSON Translate.

(** Both environment variables are set. *)
Definition configured (w : World) : Prop :=
  missing (NEXT_PUBLIC_GEMINI_API_KEY w) = false /\
  missing (NEXT_PUBLIC_GEMINI_API_URL w) = false.

Definition from_env (v : option jsstring) : jsstring :=
  match v with Some s => s | None => [] end.

(** How the [fetch] of the call settles. *)
Definition fetched (w : World) (text targetLang : jsstring) (signal : option AbortSignal)
  : Settled :=
  fetch w (from_env (NEXT_PUBLIC_GEMINI_API_URL w))
    (request (from_env (NEXT_PUBLIC_GEMINI_API_KEY w)) text targetLang signal).

(** The response is a success and its body stream delivers [values] and
    then closes: the stream completes. *)
Definition completes (w : World) (text targetLang : jsstring)
  (signal : option AbortSignal) (values : list (list byte)) : Prop :=
  exists response,
    fetched w text targetLang signal = Fulfilled response /\
    ok response = true /\
    body response = Some {| chunks := values; ending := Closed |}.

(** The deltas of all fragments, concatenated: the accumulated buffer
    before cleanup. *)
Definition accumulated (w : World) (values : list (list byte)) : jsstring :=
  concat (map (chunk_content w) values).

(** The places of the [try] block where an error is raised, with the await
    after which it is: the rejected [fetch], the three errors for a
    response that is no success, the missing body, a rejected read, the
    final [JSON.parse], and the [JSON.stringify] that follows it. *)
Inductive raises (w : World) (text targetLang : jsstring) (signal : option AbortSignal)
  : nat -> Prop :=
| fetch_rejected reason :
    fetched w text targetLang signal = Rejected reason ->
    raises w text targetLang signal 0
| status_not_ok response :
    fetched w text targetLang signal = Fulfilled response ->
    ok response = false ->
    raises w text targetLang signal 0
| stream_not_supported response :
    fetched w text targetLang signal = Fulfilled response ->
    ok response = true ->
    body response = None ->
    raises w text targetLang signal 0
| read_rejected response values reason :
    fetched w text targetLang signal = Fulfilled response ->
    ok response = true ->
    body response = Some {| chunks := values; ending := Errored reason |} ->
    raises w text targetLang signal (S (length values))
| result_not_json values :
    completes w text targetLang signal values ->
    JSON_parse (cleanJsonString (accumulated w values)) = None ->
    raises w text targetLang signal (S (length values))
| result_not_written values v message :
    completes w text targetLang signal values ->
    JSON_parse (cleanJsonString (accumulated w values)) = Some v ->
    stringify_RangeError w v = Some message ->
    raises w text targetLang signal (S (length values)).

(** [k * 2^-1074] is a binary64 value: a significand of at most 53 bits
    and a magnitude below 2^1024. *)
Definition representable (k : Z) : Prop :=
  exists m F, 0 <= m < 2 ^ 53 /\ 0 <= F /\ k = m * 2 ^ F /\ k < overflow_threshold.

(** A Number in the representation of the model. *)
Definition is_Number (x : number) : Prop :=
  match x with
  | Finite _ k => 0 <= k /\ representable k
  | Infinity _ => True
  | NaN => True
  end.

(** [key] comes before [key'] in the order of the own properties of an
    ordinary object: array indices first, ascending; two other keys only
    have to differ (they are kept in creation order). *)
Definition key_before (key key' : jsstring) : Prop :=
  match array_index key, array_index key' with
  | Some i, Some j => i < j
  | Some _, None => True
  | None, Some _ => False
  | None, None => key <> key'
  end.

(** The members of an object are in property order, without repeated key. *)
Fixpoint ordered (members : list (jsstring * value)) : Prop :=
  match members with
  | [] => True
  | (key, _) :: rest => Forall (fun m => key_before key (fst m)) rest /\ ordered rest
  end.

(** A value as JavaScript holds it: Numbers are binary64 values and
    objects keep their members in property order. *)
#[local] Unset Elimination Schemes.
Inductive well_formed : value -> Prop :=
| wf_Null : well_formed Null
| wf_Boolean b : well_formed (Boolean b)
| wf_Number n : is_Number n -> well_formed (Number n)
| wf_String s : well_formed (String s)
| wf_Array elements : Forall well_formed elements -> well_formed (Array elements)
| wf_Object members :
    ordered members -> Forall (fun m => well_formed (snd m)) members ->
    well_formed (Object members).

(** A Number that [JSON.stringify] writes as itself: finite (an infinity
    is written [null]) and not negative zero (written [0]). *)
Definition written_exactly (x : number) : bool :=
  match x with
  | Finite s k => negb (s && (k =? 0))
  | _ => false
  end.

(** Every Number inside the value is written as itself. *)
Inductive numbers_written_exactly : value -> Prop :=
| nw_Null : numbers_written_exactly Null
| nw_Boolean b : numbers_written_exactly (Boolean b)
| nw_Number n : written_exactly n = true -> numbers_written_exactly (Number n)
| nw_String s : numbers_written_exactly (String s)
| nw_Array elements :
    Forall numbers_written_exactly elements -> numbers_written_exactly (Array elements)
| nw_Object members :
    Forall (fun m => numbers_written_exactly (snd m)) members ->
    numbers_written_exactly (Object members).
#[local] Set Elimination Schemes.

(** Induction on values, with the hypothesis for every element or member. *)
Fixpoint value_ind (P : value -> Prop)
  (HNull : P Null) (HBoolean : forall b, P (Boolean b))
  (HNumber : forall n, P (Number n)) (HString : forall s, P (String s))
  (HArray : forall elements, Forall P elements -> P (Array elements))
  (HObject : forall members, Forall (fun m => P (snd m)) members -> P (Object members))
  (v : value) {struct v} : P v :=
  match v with
  | Null => HNull
  | Boolean b => HBoolean b
  | Number n => HNumber n
  | String s => HString s
  | Array elements =>
      HArray elements
        ((fix all (l : list value) : Forall P l :=
            match l with
            | [] => Forall_nil P
            | e :: l' =>
                Forall_cons e
                  (value_ind P HNull HBoolean HNumber HString HArray HObject e) (all l')
            end) elements)
  | Object members =>
      HObject members
        ((fix all (l : list (jsstring * value)) : Forall (fun m => P (snd m)) l :=
            match l with
            | [] => Forall_nil _
            | m :: l' =>
                Forall_cons m
                  (value_ind P HNull HBoolean HNumber HString HArray HObject (snd m)) (all l')
            end) members)
  end.

(** The number of nested calls that parsing the text of a value takes. *)
Fixpoint weight (v : value) : nat :=
  match v with
  | Array elements => S (fold_right (fun e n => S (weight e) + n)%nat O elements)
  | Object members => S (fold_right (fun m n => S (weight (snd m)) + n)%nat O members)
  | _ => 1%nat
  end.

(** The arguments of the calls to [onProgress], in order. *)
Fixpoint progress_values (events : list Event) : list number :=
  match events with
  | [] => []
  | Progress p :: rest => p :: progress_values rest
  | Stream _ :: rest => progress_values rest
  end.

(** The arguments of the calls to [onStream], in order. *)
Fixpoint stream_values (events : list Event) : list jsstring :=
  match events with
  | [] => []
  | Stream s :: rest => s :: stream_values rest
  | Progress _ :: rest => stream_values rest
  end.

(** The length of the accumulated buffer after each fragment, starting
    from a buffer of length [sofar]. *)
Fixpoint running_totals (w : World) (sofar : nat) (values : list (list byte)) : list nat :=
  match values with
  | [] => []
  | value :: rest =>
      let total := (sofar + length (chunk_content w value))%nat in
      total :: running_totals w total rest
  end.

(** An event line whose remainder after the prefix is no JSON text. *)
Definition malformed (line : jsstring) : bool :=
  startsWith line (str "data: ") &&
  match JSON_parse (slice 6 line) with
  | None => true
  | Some _ => false
  end.

(** The event line that ends the stream. *)
Definition terminal (line : jsstring) : bool := Str.eqb line (str "data: [DONE]").

(** The progress formula in the words of the specification,
    [round(min(100, 100 * totalAccumulatedChars/4 / (sourceText.length/4)))],
    in three readings: evaluated as an expression over Numbers, and over
    the rationals with a tie rounded upwards or to the even integer. *)
Definition specified_progress (totalAccumulatedChars sourceLength : nat) : number :=
  Math_round
    (Math_min (of_Z 100)
       (fdiv (fdiv (fmul (of_Z 100) (of_nat totalAccumulatedChars)) (of_Z 4))
          (fdiv (of_nat sourceLength) (of_Z 4)))).

Definition specified_progress_ties_up (totalAccumulatedChars sourceLength : nat) : Z :=
  let total := Z.of_nat totalAccumulatedChars in
  let len := Z.of_nat sourceLength in
  Z.min 100 ((200 * total + len) / (2 * len)).

Definition specified_progress_ties_even (totalAccumulatedChars sourceLength : nat) : Z :=
  let total := Z.of_nat totalAccumulatedChars in
  let len := Z.of_nat sourceLength in
  let below := (100 * total) / len in
  let twice_rest := 2 * ((100 * total) mod len) in
  Z.min 100
    (if twice_rest <? len then below
     else if len <? twice_rest then below + 1
     else if Z.even below then below else below + 1).

(** A rejection by the platform: the promise of [fetch], or that of a
    read of the body after the fragments [values], is rejected with
    [reason]; [time] is the await. *)
Inductive rejected (w : World) (text targetLang : jsstring) (signal : option AbortSignal)
  : Thrown -> nat -> Prop :=
| rejected_fetch reason :
    fetched w text targetLang signal = Rejected reason ->
    rejected w text targetLang signal reason 0
| rejected_read response values reason :
    fetched w text targetLang signal = Fulfilled response ->
    ok response = true ->
    body response = Some {| chunks := values; ending := Errored reason |} ->
    rejected w text targetLang signal reason (S (length values)).

(** The value that the text written for [v] stands for: an infinity or a
    NaN is written [null], and negative zero is written [0]. *)
Definition written_number (x : number) : value :=
  match x with
  | Finite true 0 => Number (Finite false 0)
  | Finite _ _ => Number x
  | _ => Null
  end.

Fixpoint written (v : value) : value :=
  match v with
  | Number x => written_number x
  | Array elements => Array (map written elements)
  | Object members => Object (map (fun m => (fst m, written (snd m))) members)
  | _ => v
  end.

(** A value that is no array and no object, as JavaScript holds it. *)
Definition primitive (c : value) : Prop :=
  match c with
  | Array _ | Object _ => False
  | Number n => is_Number n
  | _ => True
  end.

(** The calls to the two callbacks for progress values [ps] and the
    buffers after 1, 2, ... fragments of [values]. *)
Definition calls (w : World) (ps : list number) (values : list (list byte)) : list Event :=
  flat_map (fun pn => [Progress (fst pn); Stream (accumulated w (firstn (snd pn) values))])
    (combine ps (seq 1 (length values))).

End Properties.

(** ** Calls used as examples *)

Module Examples.

Import Num Str NumText JSON Translate Properties.

(** The bytes of an ASCII literal in which every apostrophe stands for a
    quotation mark. *)
Definition qbytes (s : string) : list byte :=
  map (fun b => if Byte.eqb b x27 then x22 else b) (list_byte_of_string s).

(** An event line with its line feed. *)
Definition event_line (s : string) : list byte := qbytes s ++ [x0a].

(** The event line that carries a delta; [content] is the text of the
    JSON string between its quotation marks. *)
Definition delta_event (content : string) : list byte :=
  qbytes "data: {'choices':[{'delta':{'content':'" ++ qbytes content
    ++ event_line "'}}]}".

(** The number of arrays and objects around the innermost value. *)
Fixpoint nesting (v : value) : nat :=
  match v with
  | Array elements => S (fold_right (fun e n => Nat.max (nesting e) n) O elements)
  | Object members => S (fold_right (fun m n => Nat.max (nesting (snd m)) n) O members)
  | _ => O
  end.

(** An engine whose stack has room for 1000 levels of nesting. *)
Definition too_deep (v : value) : bool := (1000 <? nesting v)%nat.

Definition stack_exhausted (v : value) : option jsstring :=
  if too_deep v then Some (str "Maximum call stack size exceeded") else None.

(** A configured environment whose endpoint settles every request in the
    same way. *)
Definition endpoint (answer : Settled) : World :=
  {| NEXT_PUBLIC_GEMINI_API_URL := Some (str "https://api.example/v1/chat/completions");
     NEXT_PUBLIC_GEMINI_API_KEY := Some (str "secret");
     fetch := fun _ _ => answer;
     SyntaxError_message := fun _ => str "Unexpected token";
     stringify_RangeError := stack_exhausted;
     join_RangeError := too_deep |}.

(** A success whose body delivers the fragments and closes. *)
Definition streaming (values : list (list byte)) : Settled :=
  Fulfilled {| status := 200; body := Some {| chunks := values; ending := Closed |} |}.

(** A response without body. *)
Definition answering (status : Z) : Settled :=
  Fulfilled {| status := status; body := None |}.

(** A body that delivers the fragments and then fails. *)
Definition interrupted (values : list (list byte)) (reason : Thrown) : Settled :=
  Fulfilled {| status := 200; body := Some {| chunks := values; ending := Errored reason |} |}.

Definition AbortError : Thrown :=
  DOMException (str "AbortError") (str "The operation was aborted.").

(** A signal aborted before the call. *)
Definition aborted_signal : option AbortSignal := Some {| fires_at := Some O |}.

Definition source : jsstring := qstr "{'greeting':'hello','n':[1.5,null]}".
Definition French : jsstring := str "French".

(** The translation of [source], in two fragments. *)
Definition translation : list (list byte) :=
  [ delta_event "{\'greeting\':\'bonjour\'," ;
    delta_event "\'n\':[1.5,null]}" ++ event_line "data: [DONE]" ].

(** The value of the translation. *)
Definition translated : value :=
  Object
    [ (str "greeting", String (str "bonjour"));
      (str "n", Array [Number (decimal_to_number false 15 (-1)); Null]) ].

(** A number too large for a Number. *)
Definition overflowing : list (list byte) := [ delta_event "{\'n\':1e999}" ].

(** Negative zero. *)
Definition negative_zero : list (list byte) := [ delta_event "{\'n\':-0}" ].

(** The text of 1001 arrays, one inside the other. *)
Definition deep : list (list byte) :=
  [ qbytes "data: {'choices':[{'delta':{'content':'"
      ++ repeat x5b 1001 ++ repeat x5d 1001 ++ event_line "'}}]}" ].


(** The three stream lines of the specification, in one fragment. *)
Definition three_lines : list byte :=
  event_line "data: {not json}" ++ delta_event "ok" ++ event_line "data: [DONE]".

(** A malformed line in front of a complete translation. *)
Definition with_malformed_line : list (list byte) :=
  [ event_line "data: {not json}" ++ delta_event "{\'a\':\'b\'}" ].





(** One event line cut in two by the transport. *)
Definition first_half : list byte := qbytes "data: {'choices':[{'delta':{'con".
Definition second_half : list byte := event_line "tent':'ok'}}]}".

(** A source text of 200 code units and a delta of 29. *)
Definition text200 : jsstring := repeat 97%N 200.
Definition delta29 : list byte := delta_event "12345678901234567890123456789".

(** A source text of 8 code units and a delta of one. *)
Definition text8 : jsstring := qstr "{'a':12}".
Definition delta1 : list byte := delta_event "{".

(** The object of an event that carries the delta [content]. *)
Definition delta_object (content : jsstring) : value :=
  Object
    [ (str "choices",
        Array [ Object [ (str "delta", Object [ (str "content", String content) ]) ] ]) ].

(** The same for a [content] that is any value. *)
Definition delta_of (content : value) : value :=
  Object
    [ (str "choices",
        Array [ Object [ (str "delta", Object [ (str "content", content) ]) ] ]) ].

(** A comment line, then a delta. *)
Definition late_delta : list (list byte) := [ event_line ": keep-alive"; delta_event "{}" ].



(** An environment without key. *)
Definition without_key (answer : Settled) : World :=
  {| NEXT_PUBLIC_GEMINI_API_URL := Some (str "https://api.example/v1/chat/completions");
     NEXT_PUBLIC_GEMINI_API_KEY := Some [];
     fetch := fun _ _ => answer;
     SyntaxError_message := fun _ => str "Unexpected token";
     stringify_RangeError := stack_exhausted;
     join_RangeError := too_deep |}.

(** A failure of the network, as [fetch] reports it. *)
Definition network_failure : Thrown := ErrorObject (str "TypeError") (str "Failed to fetch").

End Examples.

(** ** Notions used in the proofs *)

Module Notions.

Import Num Str NumText JSON Translate Properties.

(** The integer [k] (units of 2^-1074) produced when rounding [a / b]. *)
Definition rounded (a b : Z) : Z := rne a (b * 2 ^ binade a b) * 2 ^ binade a b.

(** A Number that is not negative: +Infinity or a non-negative binary64
    value. *)
Definition nonneg (x : number) : Prop :=
  x = Infinity false \/ exists k, x = Finite false k /\ 0 <= k /\ representable k.

(** The integer reported for a non-negative product: Math.round, then the
    cap at 100. *)
Definition percent (y : number) : Z :=
  match y with
  | Finite _ k => Z.min ((2 * k + 2 ^ 1074) / 2 ^ 1075) 100
  | _ => 100
  end.

(** The integer reported when [tokenCount] is [t]. *)
Definition pct (est t : number) : Z := percent (fmul (fdiv t est) (of_Z 100)).

Definition all_digits (ds : list N) : Prop := Forall (fun d => (d < 10)%N) ds.

(** Reading digits back. *)
Definition not_digit_first (s : jsstring) : Prop :=
  match s with
  | [] => True
  | c :: _ => is_digit c = false
  end.

(** What may follow a number literal without being read as part of it. *)
Definition number_end (s : jsstring) : Prop :=
  match s with
  | [] => True
  | c :: _ => is_digit c = false /\ c <> 46%N /\ c <> 101%N /\ c <> 69%N
  end.

Definition no_leading_zero (ds : list N) : Prop :=
  match ds with
  | 0%N :: _ :: _ => False
  | _ => True
  end.

Definition negate (x : number) : number :=
  match x with
  | NaN => NaN
  | Infinity s => Infinity (negb s)
  | Finite s k => Finite (negb s) k
  end.

(** The indentation unit of [JSON.stringify(v, null, 2)]. *)
Definition gap2 : jsstring := [32; 32]%N.

Definition all_space (s : jsstring) : Prop := Forall (fun c => is_json_space c = true) s.

(** What follows the text of a value inside the text of an array or of an
    object, or at the end: nothing, a comma or a line feed. *)
Definition value_end (s : jsstring) : Prop :=
  match s with
  | [] => True
  | c :: _ => c = 44%N \/ c = 10%N
  end.

Definition member_text (indent : jsstring) (m : jsstring * value) : jsstring :=
  QuoteJSONString (fst m) ++ 58%N :: 32%N :: SerializeJSONProperty gap2 indent (snd m).

(** The first character of the text of a value: no white space, and no
    closing bracket or brace. *)
Definition starts_value (s : jsstring) : Prop :=
  exists c t, s = c :: t /\ is_json_space c = false /\ c <> 93%N /\ c <> 125%N.

(** The text of [v], at any indentation and followed by anything that may
    follow a value, is read back as [v]. *)
Definition reads_back (v : value) : Prop :=
  forall indent rest fuel,
    all_space indent -> value_end rest -> (weight v <= fuel)%nat ->
    parse_value fuel (SerializeJSONProperty gap2 indent v ++ rest) = Some (v, rest).

Definition elements_weight (l : list value) : nat :=
  fold_right (fun e n => S (weight e) + n)%nat O l.

Definition members_weight (l : list (jsstring * value)) : nat :=
  fold_right (fun m n => S (weight (snd m)) + n)%nat O l.

(** What follows the text of a value inside a text without white space,
    or at the end: nothing, a comma, or a closing bracket or brace. *)
Definition value_follower (s : jsstring) : Prop :=
  match s with
  | [] => True
  | c :: _ => c = 44%N \/ c = 93%N \/ c = 125%N
  end.

(** The text of a member in a text without white space. *)
Definition compact_member (indent : jsstring) (m : jsstring * value) : jsstring :=
  QuoteJSONString (fst m) ++ 58%N :: SerializeJSONProperty [] indent (snd m).

(** The text of [v] without white space, followed by anything that may
    follow a value, is read back as [v]. *)
Definition reads_back_compact (v : value) : Prop :=
  forall indent rest fuel,
    value_follower rest -> (weight v <= fuel)%nat ->
    parse_value fuel (SerializeJSONProperty [] indent v ++ rest) = Some (v, rest).





(** The fragment begins with a byte order mark, which the decoder of
    that fragment drops. *)
Definition begins_with_BOM (value : list byte) : bool :=
  match Utf8.decode_from Utf8.initial value with
  | 65279%N :: _ => true
  | _ => false
  end.

(** The fragment ends with a line feed. *)
Definition ends_with_LF (value : list byte) : Prop := exists a, value = a ++ [x0a].

(** A state in which a line feed cannot continue the pending sequence. *)
Definition expects_continuation (st : Utf8.state) : Prop :=
  (128 <= Utf8.lower_boundary st)%N.

End Notions.

(** * Facts about the model *)

Module NumFacts.

Import Num Properties Notions.

Lemma pow2_pos (n : Z) : 0 <= n -> 0 < 2 ^ n.
Proof. intros; apply Z.pow_pos_nonneg; lia. Qed.

Lemma div_frac_mono (n1 d1 n2 d2 : Z) :
  0 < d1 -> 0 < d2 -> n1 * d2 <= n2 * d1 -> n1 / d1 <= n2 / d2.
Proof.
  intros H1 H2 H.
  rewrite <- (Z.div_mul_cancel_r n1 d1 d2) by lia.
  rewrite <- (Z.div_mul_cancel_r n2 d2 d1) by lia.
  rewrite (Z.mul_comm d2 d1).
  apply Z.div_le_mono; nia.
Qed.

Lemma rne_cases (n d : Z) :
  0 < d ->
  let q := n / d in let r := n mod d in
  n = d * q + r /\ 0 <= r < d /\
  ((rne n d = q /\ (2 * r < d \/ (2 * r = d /\ Z.even q = true))) \/
   (rne n d = q + 1 /\ (d < 2 * r \/ (2 * r = d /\ Z.even q = false)))).
Proof.
  intros Hd q r.
  split; [apply Z.div_mod; lia|].
  split; [apply Z.mod_pos_bound; lia|].
  unfold rne. fold q r.
  destruct (Z.compare_spec (2 * r) d).
  - destruct (Z.even q) eqn:E; [left|right]; split; auto.
  - left; split; auto.
  - right; split; auto.
Qed.

Lemma rne_mono (n1 d1 n2 d2 : Z) :
  0 < d1 -> 0 < d2 -> n1 * d2 <= n2 * d1 -> rne n1 d1 <= rne n2 d2.
Proof.
  intros H1 H2 H.
  pose proof (div_frac_mono _ _ _ _ H1 H2 H) as Hq.
  destruct (rne_cases n1 d1 H1) as (E1 & B1 & C1).
  destruct (rne_cases n2 d2 H2) as (E2 & B2 & C2).
  set (q1 := n1 / d1) in *. set (q2 := n2 / d2) in *.
  set (r1 := n1 mod d1) in *. set (r2 := n2 mod d2) in *.
  assert (q1 < q2 \/ q1 = q2) as [Hlt | Heq] by lia.
  - destruct C1 as [[-> _]|[-> _]], C2 as [[-> _]|[-> _]]; lia.
  - assert (r1 * d2 <= r2 * d1) as Hr.
    { rewrite E1, E2, Heq in H. nia. }
    destruct C2 as [[-> C2]|[-> C2]]; destruct C1 as [[-> C1]|[-> C1]]; try lia.
    exfalso.
    destruct C1 as [C1|[C1 O1]], C2 as [C2|[C2 O2]].
    + nia.
    + nia.
    + nia.
    + rewrite Heq in O1. congruence.
Qed.

Lemma rne_exact (q d : Z) : 0 < d -> rne (q * d) d = q.
Proof.
  intros Hd. unfold rne.
  rewrite Z.div_mul, Z.mod_mul by lia.
  replace (2 * 0) with 0 by lia.
  destruct (Z.compare_spec 0 d); lia.
Qed.

Lemma rne_le_bound (n d B : Z) : 0 < d -> n <= B * d -> rne n d <= B.
Proof.
  intros Hd H. rewrite <- (rne_exact B d Hd). apply rne_mono; nia.
Qed.

Lemma rne_ge_bound (n d B : Z) : 0 < d -> B * d <= n -> B <= rne n d.
Proof.
  intros Hd H. rewrite <- (rne_exact B d Hd) at 1. apply rne_mono; nia.
Qed.

Lemma binade_spec (a b : Z) :
  0 < a -> 0 < b ->
  0 <= binade a b /\ a < b * 2 ^ (binade a b + 53) /\
  (binade a b = 0 \/ b * 2 ^ (binade a b + 52) <= a).
Proof.
  intros Ha Hb. unfold binade.
  set (g := Z.max 0 (Z.log2 a - Z.log2 b - 53)).
  assert (Hg : 0 <= g) by (unfold g; lia).
  destruct (Z.log2_spec a Ha) as [La Ua].
  destruct (Z.log2_spec b Hb) as [Lb Ub].
  pose proof (Z.log2_nonneg a) as Pa. pose proof (Z.log2_nonneg b) as Pb.
  destruct (Z.ltb_spec a (b * 2 ^ (g + 53))) as [Hlt | Hge].
  - split; [lia|]. split; [exact Hlt|].
    destruct (Z.eq_dec g 0) as [->|Hne]; [left; reflexivity|right].
    assert (g = Z.log2 a - Z.log2 b - 53) as Eg by (unfold g in *; lia).
    assert (b * 2 ^ (g + 52) < 2 ^ (Z.log2 a)); [|lia].
    replace (Z.log2 a) with (Z.succ (Z.log2 b) + (g + 52)) by lia.
    rewrite (Z.pow_add_r 2 (Z.succ (Z.log2 b))) by lia.
    apply Z.mul_lt_mono_pos_r; [apply pow2_pos; lia | lia].
  - split; [lia|]. split.
    + assert (2 ^ Z.succ (Z.log2 a) <= b * 2 ^ (g + 1 + 53)); [|lia].
      assert (Z.succ (Z.log2 a) <= Z.log2 b + (g + 1 + 53)) as Hle by (unfold g; lia).
      transitivity (2 ^ (Z.log2 b + (g + 1 + 53))).
      * apply Z.pow_le_mono_r; lia.
      * rewrite (Z.pow_add_r 2 (Z.log2 b)) by lia.
        apply Z.mul_le_mono_nonneg_r; [apply Z.pow_nonneg; lia | lia].
    + right. replace (g + 1 + 52) with (g + 53) by lia. exact Hge.
Qed.

Lemma binade_least (a b F : Z) :
  0 < a -> 0 < b -> 0 <= F -> a < b * 2 ^ (F + 53) -> binade a b <= F.
Proof.
  intros Ha Hb HF H.
  destruct (binade_spec a b Ha Hb) as (H0 & _ & [E | L]); [lia|].
  assert (b * 2 ^ (binade a b + 52) < b * 2 ^ (F + 53)) as Hlt by lia.
  apply Z.mul_lt_mono_pos_l in Hlt; [|lia].
  apply Z.pow_lt_mono_r_iff in Hlt; lia.
Qed.

Lemma binade_mono (a b c d : Z) :
  0 < a -> 0 < b -> 0 < c -> 0 < d -> a * d <= c * b -> binade a b <= binade c d.
Proof.
  intros Ha Hb Hc Hd H.
  destruct (binade_spec c d Hc Hd) as (H0 & Hu & _).
  apply binade_least; try lia.
  set (P := 2 ^ (binade c d + 53)) in *.
  assert (0 < P) by (apply pow2_pos; lia).
  assert (a * d < b * P * d); [|nia].
  apply Z.le_lt_trans with (c * b); [lia|]. nia.
Qed.

Lemma rounded_mono (a b c d : Z) :
  0 < a -> 0 < b -> 0 < c -> 0 < d -> a * d <= c * b -> rounded a b <= rounded c d.
Proof.
  intros Ha Hb Hc Hd H. unfold rounded.
  pose proof (binade_mono a b c d Ha Hb Hc Hd H) as HF.
  destruct (binade_spec a b Ha Hb) as (F1 & U1 & L1).
  destruct (binade_spec c d Hc Hd) as (F2 & U2 & L2).
  set (F := binade a b) in *. set (G := binade c d) in *.
  assert (0 < 2 ^ F) as PF by (apply pow2_pos; lia).
  assert (0 < 2 ^ G) as PG by (apply pow2_pos; lia).
  assert (F = G \/ F < G) as [E | Hlt] by lia.
  - rewrite <- E in *. apply Z.mul_le_mono_nonneg_r; [lia|].
    apply rne_mono; nia.
  - destruct L2 as [L2 | L2]; [lia|].
    transitivity (2 ^ 53 * 2 ^ F).
    + apply Z.mul_le_mono_nonneg_r; [lia|].
      apply rne_le_bound; [nia|].
      rewrite Z.pow_add_r in U1 by lia. nia.
    + transitivity (2 ^ 52 * 2 ^ G).
      * rewrite <- !Z.pow_add_r by lia. apply Z.pow_le_mono_r; lia.
      * apply Z.mul_le_mono_nonneg_r; [lia|].
        apply rne_ge_bound; [nia|].
        rewrite Z.pow_add_r in L2 by lia. nia.
Qed.

Lemma rounded_exact (k c : Z) :
  0 < k -> 0 < c -> (exists m F, 0 <= m < 2 ^ 53 /\ 0 <= F /\ k = m * 2 ^ F) ->
  rounded (k * c) c = k.
Proof.
  intros Hk Hc (m & F & Hm & HF & E). unfold rounded.
  destruct (binade_spec (k * c) c) as (H0 & Hu & Hl); [nia | lia |].
  set (G := binade (k * c) c) in *.
  assert (0 < 2 ^ G) as PG by (apply pow2_pos; lia).
  assert (G <= F) as HGF.
  { destruct Hl as [-> | Hl]; [lia|].
    destruct (Z_le_gt_dec G F) as [|Hgt]; [assumption|exfalso].
    assert (2 ^ (G + 52) <= k) as L by nia.
    assert (k < 2 ^ (53 + F)) as U.
    { rewrite E, Z.pow_add_r by lia.
      assert (0 < 2 ^ F) by (apply pow2_pos; lia). nia. }
    assert (2 ^ (53 + F) <= 2 ^ (G + 52)) by (apply Z.pow_le_mono_r; lia).
    lia. }
  assert (k = (m * 2 ^ (F - G)) * 2 ^ G) as E'.
  { rewrite E, <- Z.mul_assoc, <- Z.pow_add_r by lia. do 2 f_equal. lia. }
  rewrite E' at 1.
  replace (m * 2 ^ (F - G) * 2 ^ G * c) with ((m * 2 ^ (F - G)) * (c * 2 ^ G)) by ring.
  rewrite rne_exact by nia. symmetry. exact E'.
Qed.

Lemma round_ratio_exact (s : bool) (k c : Z) :
  0 <= k -> 0 < c -> representable k -> round_ratio s (k * c) c = Finite s k.
Proof.
  intros Hk Hc (m & F & Hm & HF & E & Hlt). unfold round_ratio.
  destruct (Z.eqb_spec (k * c) 0) as [E0 | N0].
  - f_equal. nia.
  - fold (rounded (k * c) c). rewrite rounded_exact; [| nia | lia | eauto].
    destruct (Z.ltb_spec k overflow_threshold); [reflexivity | lia].
Qed.

Lemma threshold_pos : 0 < overflow_threshold.
Proof. unfold overflow_threshold. apply pow2_pos. lia. Qed.

Lemma rounded_nonneg (a b : Z) : 0 < a -> 0 < b -> 0 <= rounded a b.
Proof.
  intros Ha Hb. unfold rounded.
  destruct (binade_spec a b Ha Hb) as (H0 & _ & _).
  assert (0 < 2 ^ binade a b) by (apply pow2_pos; lia).
  apply Z.mul_nonneg_nonneg; [|lia].
  apply rne_ge_bound; nia.
Qed.

Lemma rounded_representable (a b : Z) :
  0 < a -> 0 < b -> exists m F, 0 <= m < 2 ^ 53 /\ 0 <= F /\ rounded a b = m * 2 ^ F.
Proof.
  intros Ha Hb. unfold rounded.
  destruct (binade_spec a b Ha Hb) as (H0 & Hu & _).
  set (F := binade a b) in *.
  assert (0 < 2 ^ F) as PF by (apply pow2_pos; lia).
  assert (0 <= rne a (b * 2 ^ F)) as Hq by (apply rne_ge_bound; nia).
  assert (rne a (b * 2 ^ F) <= 2 ^ 53) as Hq'.
  { apply rne_le_bound; [nia|]. rewrite Z.pow_add_r in Hu by lia. nia. }
  destruct (Z.eq_dec (rne a (b * 2 ^ F)) (2 ^ 53)) as [E | N].
  - exists (2 ^ 52), (F + 1). rewrite E. split; [|split; [lia|]].
    + split; [apply Z.pow_nonneg; lia | apply Z.pow_lt_mono_r; lia].
    + rewrite Z.pow_add_r by lia. change (2 ^ 53) with (2 ^ 52 * 2 ^ 1). ring.
  - exists (rne a (b * 2 ^ F)), F. repeat split; lia.
Qed.

Lemma round_ratio_nonneg (a b : Z) : 0 <= a -> 0 < b -> nonneg (round_ratio false a b).
Proof.
  intros Ha Hb. unfold round_ratio.
  destruct (Z.eqb_spec a 0) as [-> | N].
  - right. exists 0. repeat split; try lia.
    exists 0, 0. repeat split; try lia.
  - fold (rounded a b).
    destruct (Z.ltb_spec (rounded a b) overflow_threshold) as [Hlt | Hge]; [|now left].
    right. exists (rounded a b). split; [reflexivity|]. split.
    + apply rounded_nonneg; lia.
    + destruct (rounded_representable a b) as (m & F & Hm & HF & E); try lia.
      exists m, F. repeat split; try lia.
Qed.

Lemma rank_nonneg (x : number) : nonneg x -> 0 <= rank x.
Proof.
  intros [-> | (k & -> & Hk & _)]; unfold rank, signed.
  - pose proof threshold_pos. lia.
  - lia.
Qed.

Lemma round_ratio_mono (a b c d : Z) :
  0 <= a -> 0 < b -> 0 <= c -> 0 < d -> a * d <= c * b ->
  rank (round_ratio false a b) <= rank (round_ratio false c d).
Proof.
  intros Ha Hb Hc Hd H.
  destruct (Z.eq_dec a 0) as [-> | Na].
  - unfold round_ratio at 1. simpl. apply (rank_nonneg _ (round_ratio_nonneg c d Hc Hd)).
  - assert (0 < a) by lia. assert (0 < c) by nia.
    pose proof (rounded_mono a b c d) as M.
    unfold round_ratio.
    destruct (Z.eqb_spec a 0); [lia|]. destruct (Z.eqb_spec c 0); [lia|].
    fold (rounded a b) (rounded c d).
    destruct (Z.ltb_spec (rounded a b) overflow_threshold),
             (Z.ltb_spec (rounded c d) overflow_threshold); unfold rank, signed; lia.
Qed.

Lemma nonneg_rank_eq (x y : number) : nonneg x -> nonneg y -> rank x = rank y -> x = y.
Proof.
  intros [-> | (k & -> & Hk & (m & F & _ & _ & _ & Hlt))]
         [-> | (k' & -> & Hk' & (m' & F' & _ & _ & _ & Hlt'))]; unfold rank, signed; intros E.
  - reflexivity.
  - lia.
  - lia.
  - f_equal. lia.
Qed.

Lemma representable_scaled (n e : Z) :
  0 <= n < 2 ^ 53 -> 0 <= e <= 1074 -> representable (n * 2 ^ e).
Proof.
  intros Hn He. exists n, e. repeat split; try lia.
  unfold overflow_threshold.
  apply Z.lt_le_trans with (2 ^ 53 * 2 ^ e).
  - apply Z.mul_lt_mono_pos_r; [apply pow2_pos|]; lia.
  - rewrite <- Z.pow_add_r by lia. apply Z.pow_le_mono_r; lia.
Qed.

Lemma of_Z_exact (n : Z) : 0 <= n < 2 ^ 53 -> of_Z n = Finite false (n * 2 ^ 1074).
Proof.
  intros Hn. unfold of_Z.
  destruct (Z.ltb_spec n 0); [lia|].
  rewrite Z.abs_eq by lia.
  rewrite <- (Z.mul_1_r (n * 2 ^ 1074)) at 1.
  apply round_ratio_exact; try lia.
  apply representable_scaled; lia.
Qed.

Lemma of_Z_nonneg (n : Z) : 0 <= n -> nonneg (of_Z n).
Proof.
  intros Hn. unfold of_Z. destruct (Z.ltb_spec n 0); [lia|].
  apply round_ratio_nonneg; [|lia].
  assert (0 < 2 ^ 1074) by (apply pow2_pos; lia). nia.
Qed.

(** A quarter of an integer below 2^53 is computed exactly. *)
Lemma quarter_exact (n : Z) :
  0 <= n < 2 ^ 53 -> fdiv (of_Z n) (of_Z 4) = Finite false (n * 2 ^ 1072).
Proof.
  intros Hn. rewrite (of_Z_exact n Hn), (of_Z_exact 4) by lia. unfold fdiv.
  assert (0 < 2 ^ 1074) as P by (apply pow2_pos; lia).
  destruct (Z.eqb_spec (4 * 2 ^ 1074) 0); [lia|]. simpl xorb.
  replace (n * 2 ^ 1074 * 2 ^ 1074) with (n * 2 ^ 1072 * (4 * 2 ^ 1074)).
  - apply round_ratio_exact; try lia.
    apply representable_scaled; lia.
  - change (2 ^ 1074) with (2 ^ 1072 * 4) at 2. ring.
Qed.

Lemma quarter_nonneg (n : Z) : 0 <= n -> nonneg (fdiv (of_Z n) (of_Z 4)).
Proof.
  intros Hn. rewrite (of_Z_exact 4) by lia.
  assert (0 < 2 ^ 1074) as P by (apply pow2_pos; lia).
  destruct (of_Z_nonneg n Hn) as [-> | (k & -> & Hk & _)]; unfold fdiv.
  - now left.
  - destruct (Z.eqb_spec (4 * 2 ^ 1074) 0); [lia|]. simpl xorb.
    apply round_ratio_nonneg; nia.
Qed.

Lemma fadd_nonneg (x y : number) :
  nonneg x -> nonneg y -> nonneg (fadd x y) /\ rank x <= rank (fadd x y).
Proof.
  intros [-> | (a & -> & Ha & Ra)] [-> | (b & -> & Hb & Rb)]; unfold fadd.
  - simpl. split; [now left | lia].
  - split; [now left | lia].
  - split; [now left|]. unfold rank, signed. destruct Ra as (m & F & _ & _ & _ & Hlt). lia.
  - unfold signed. destruct (Z.eqb_spec (a + b) 0) as [E | N].
    + assert (a = 0) as -> by lia. simpl andb. split.
      * right. exists 0. repeat split; try lia. exact Ra.
      * unfold rank, signed. lia.
    + destruct (Z.ltb_spec (a + b) 0); [lia|]. rewrite Z.abs_eq by lia. split.
      * apply round_ratio_nonneg; lia.
      * rewrite <- (round_ratio_exact false a 1) at 1 by (assumption || lia).
        apply round_ratio_mono; lia.
Qed.

Lemma fdiv_nonneg_mono (x x' : number) (L : Z) :
  0 < L -> nonneg x -> nonneg x' -> rank x <= rank x' ->
  nonneg (fdiv x (Finite false L)) /\
  rank (fdiv x (Finite false L)) <= rank (fdiv x' (Finite false L)).
Proof.
  intros HL Hx Hx' H.
  assert (0 < 2 ^ 1074) as P by (apply pow2_pos; lia).
  assert (forall y, nonneg y -> nonneg (fdiv y (Finite false L))) as N.
  { intros y [-> | (k & -> & Hk & _)]; unfold fdiv; simpl xorb.
    - now left.
    - destruct (Z.eqb_spec L 0); [lia|]. apply round_ratio_nonneg; nia. }
  split; [now apply N|].
  destruct Hx as [-> | (a & -> & Ha & Ra)], Hx' as [-> | (b & -> & Hb & Rb)].
  - lia.
  - exfalso. revert H. unfold rank, signed. destruct Rb as (m & F & _ & _ & _ & Hlt). lia.
  - unfold fdiv at 2. simpl xorb.
    pose proof (N (Finite false a)) as Na.
    destruct Na as [-> | (k & -> & Hk & (m & F & _ & _ & _ & Hlt))].
    + right. exists a. auto.
    + lia.
    + unfold rank, signed. lia.
  - unfold fdiv. simpl xorb. destruct (Z.eqb_spec L 0); [lia|].
    apply round_ratio_mono; try nia.
    unfold rank, signed in H. nia.
Qed.

Lemma fmul_nonneg_mono (x x' : number) (C : Z) :
  0 < C -> nonneg x -> nonneg x' -> rank x <= rank x' ->
  nonneg (fmul x (Finite false C)) /\
  rank (fmul x (Finite false C)) <= rank (fmul x' (Finite false C)).
Proof.
  intros HC Hx Hx' H.
  assert (0 < 2 ^ 1074) as P by (apply pow2_pos; lia).
  assert (forall y, nonneg y -> nonneg (fmul y (Finite false C))) as N.
  { intros y [-> | (k & -> & Hk & _)]; unfold fmul; simpl xorb.
    - destruct (Z.eqb_spec C 0); [lia|]. now left.
    - apply round_ratio_nonneg; nia. }
  split; [now apply N|].
  destruct Hx as [-> | (a & -> & Ha & Ra)], Hx' as [-> | (b & -> & Hb & Rb)].
  - lia.
  - exfalso. revert H. unfold rank, signed. destruct Rb as (m & F & _ & _ & _ & Hlt). lia.
  - unfold fmul at 2. simpl xorb. destruct (Z.eqb_spec C 0); [lia|].
    pose proof (N (Finite false a)) as Na.
    destruct Na as [-> | (k & -> & Hk & (m & F & _ & _ & _ & Hlt))].
    + right. exists a. auto.
    + lia.
    + unfold rank, signed. lia.
  - unfold fmul. simpl xorb.
    apply round_ratio_mono; try nia.
    unfold rank, signed in H. nia.
Qed.

Lemma percent_range (y : number) : nonneg y -> 0 <= percent y <= 100.
Proof.
  intros [-> | (k & -> & Hk & _)]; unfold percent; [lia|].
  assert (0 < 2 ^ 1074) as P by (apply pow2_pos; lia).
  assert (0 <= (2 * k + 2 ^ 1074) / 2 ^ 1075); [|lia].
  apply Z.div_pos; [lia | apply pow2_pos; lia].
Qed.

Lemma percent_mono (y y' : number) :
  nonneg y -> nonneg y' -> rank y <= rank y' -> percent y <= percent y'.
Proof.
  intros [-> | (a & -> & Ha & Ra)] [-> | (b & -> & Hb & Rb)]; unfold percent; intros H.
  - lia.
  - exfalso. revert H. unfold rank, signed. destruct Rb as (m & F & _ & _ & _ & Hlt). lia.
  - lia.
  - unfold rank, signed in H.
    apply Z.min_le_compat_r. apply Z.div_le_mono; [apply pow2_pos; lia | lia].
Qed.

Lemma min_round_percent (y : number) :
  nonneg y -> Math_min (Math_round y) (of_Z 100) = of_Z (percent y).
Proof.
  intros Hy. pose proof (percent_range y Hy) as R.
  rewrite (of_Z_exact 100), (of_Z_exact (percent y)) by lia.
  assert (0 < 2 ^ 1074) as P by (apply pow2_pos; lia).
  destruct Hy as [-> | (k & -> & Hk & _)].
  - unfold Math_round, Math_min, percent, rank, signed.
    pose proof threshold_pos as T.
    assert (100 * 2 ^ 1074 < overflow_threshold) as B.
    { unfold overflow_threshold. change (2 ^ 2098) with (2 ^ 1024 * 2 ^ 1074).
      apply Z.mul_lt_mono_pos_r; [lia|]. reflexivity. }
    destruct (Z.leb_spec (2 * overflow_threshold) (2 * (100 * 2 ^ 1074) - 0)); [lia|].
    reflexivity.
  - unfold percent in *. unfold Math_round, signed.
    set (n := (2 * k + 2 ^ 1074) / 2 ^ 1075) in *.
    assert (0 <= n) as Hn by (apply Z.div_pos; [lia | apply pow2_pos; lia]).
    assert (Finite false (n * 2 ^ 1074) =
            (if n =? 0 then Finite false 0 else Finite (n <? 0) (Z.abs n * 2 ^ 1074))) as <-.
    { destruct (Z.eqb_spec n 0) as [-> | N]; [reflexivity|].
      destruct (Z.ltb_spec n 0); [lia|]. now rewrite Z.abs_eq by lia. }
    unfold Math_min, rank, signed.
    destruct (Z.leb_spec (2 * (n * 2 ^ 1074) - 0) (2 * (100 * 2 ^ 1074) - 0)) as [L | G].
    + f_equal. f_equal. nia.
    + f_equal. f_equal. nia.
Qed.

End NumFacts.

Module ControlFlow.

Import Num NumText Str JSON Translate Properties.

Lemma fold_content_app (w : World) (lines : list jsstring) (acc : jsstring) :
  fold_left (fun content line => content ++ line_content w line) lines acc
  = acc ++ concat (map (line_content w) lines).
Proof.
  revert acc. induction lines as [|l ls IH]; intros acc; simpl.
  - now rewrite app_nil_r.
  - rewrite IH. now rewrite app_assoc.
Qed.

Lemma chunk_content_lines (w : World) (value : list byte) :
  chunk_content w value = concat (map (line_content w) (split LF (Utf8.decode value))).
Proof. unfold chunk_content. now rewrite fold_content_app. Qed.

Lemma read_all_fullContent w est p s st values :
  fullContent (fst (read_all w est p s st values)) = fullContent st ++ accumulated w values.
Proof.
  revert st. induction values as [|v vs IH]; intros st; simpl.
  - now rewrite app_nil_r.
  - destruct (read_all w est p s _ vs) as [final later] eqn:E.
    simpl. change final with (fst (final, later)). rewrite <- E, IH. simpl.
    unfold accumulated. simpl. now rewrite app_assoc.
Qed.

Lemma translate_configured w text targetLang signal p s :
  configured w ->
  translate w text targetLang signal p s =
  match attempt w (from_env (NEXT_PUBLIC_GEMINI_API_URL w))
          (from_env (NEXT_PUBLIC_GEMINI_API_KEY w)) text targetLang signal p s with
  | (Returned result, events) => (Resolves result, events)
  | (Threw error time, events) => (handler signal error time, events)
  end.
Proof.
  intros [HK HU]. unfold translate. rewrite HK, HU. reflexivity.
Qed.

Lemma attempt_completes w text targetLang signal p s values :
  completes w text targetLang signal values ->
  fst (attempt w (from_env (NEXT_PUBLIC_GEMINI_API_URL w))
          (from_env (NEXT_PUBLIC_GEMINI_API_KEY w)) text targetLang signal p s) =
  let cleaned := cleanJsonString (accumulated w values) in
  let caught message :=
    if aborted signal (S (length values)) then Returned []
    else Threw (Error (str "Invalid translation result format: " ++ message))
           (S (length values)) in
  match JSON_parse cleaned with
  | Some parsedJson =>
      match stringify_RangeError w parsedJson with
      | None => Returned (JSON_stringify parsedJson 2)
      | Some message => caught message
      end
  | None => caught (SyntaxError_message w cleaned)
  end.
Proof.
  intros (response & Hf & Hok & Hb). unfold attempt. unfold fetched in Hf.
  rewrite Hf, Hok, Hb. simpl negb. cbv iota. cbn [chunks ending].
  destruct (read_all w _ p s _ values) as [st events] eqn:E.
  assert (fullContent st = accumulated w values) as ->.
  { change st with (fst (st, events)). rewrite <- E, read_all_fullContent. reflexivity. }
  cbv zeta.
  destruct (JSON_parse _) as [v|]; [destruct (stringify_RangeError w v)|];
    try reflexivity; destruct (aborted _ _); reflexivity.
Qed.

(** An error raised while the signal is aborted is turned into the empty
    result. *)
Lemma raises_aborted w text targetLang signal p s time :
  configured w ->
  raises w text targetLang signal time ->
  aborted signal time = true ->
  fst (translate w text targetLang signal p s) = Resolves [].
Proof.
  intros Hc Hr Ha. rewrite (translate_configured _ _ _ _ _ _ Hc).
  destruct Hr as [reason Hf | response Hf Hok | response Hf Hok Hb
                 | response values reason Hf Hok Hb | values Hcomp Hp
                 | values v message Hcomp Hp Hv].
  - unfold attempt. unfold fetched in Hf. rewrite Hf. simpl. unfold handler. now rewrite Ha.
  - unfold attempt. unfold fetched in Hf. rewrite Hf, Hok. simpl.
    destruct (_ =? 401); [|destruct (_ =? 429)]; simpl; unfold handler; now rewrite Ha.
  - unfold attempt. unfold fetched in Hf. rewrite Hf, Hok, Hb. simpl. unfold handler. now rewrite Ha.
  - unfold attempt. unfold fetched in Hf. rewrite Hf, Hok, Hb. simpl negb. cbv iota.
    cbn [chunks ending].
    destruct (read_all w _ p s _ values) as [st events]. simpl. unfold handler. now rewrite Ha.
  - pose proof (attempt_completes w text targetLang signal p s values Hcomp) as H.
    cbv zeta in H. rewrite Hp, Ha in H.
    destruct (attempt _ _ _ _ _ _ _ _) as [a ev]. simpl in H. subst a. reflexivity.
  - pose proof (attempt_completes w text targetLang signal p s values Hcomp) as H.
    cbv zeta in H. rewrite Hp, Hv, Ha in H.
    destruct (attempt _ _ _ _ _ _ _ _) as [a ev]. simpl in H. subst a. reflexivity.
Qed.

(** The completion of a call whose stream completes. *)
Lemma translate_completes w text targetLang signal p s values :
  configured w ->
  completes w text targetLang signal values ->
  fst (translate w text targetLang signal p s) =
  let cleaned := cleanJsonString (accumulated w values) in
  let caught message :=
    if aborted signal (S (length values)) then Resolves []
    else Rejects (Error (str "Invalid translation result format: " ++ message)) in
  match JSON_parse cleaned with
  | Some parsedJson =>
      match stringify_RangeError w parsedJson with
      | None => Resolves (JSON_stringify parsedJson 2)
      | Some message => caught message
      end
  | None => caught (SyntaxError_message w cleaned)
  end.
Proof.
  intros Hc Hcomp. rewrite (translate_configured _ _ _ _ _ _ Hc).
  pose proof (attempt_completes w text targetLang signal p s values Hcomp) as H.
  destruct (attempt _ _ _ _ _ _ _ _) as [a ev]. simpl in H. subst a. cbv zeta.
  destruct (JSON_parse _) as [v|]; [destruct (stringify_RangeError w v)|];
    try reflexivity;
    (destruct (aborted signal (S (length values))) eqn:Ha; [reflexivity|];
     simpl; unfold handler; rewrite Ha; reflexivity).
Qed.

(** The calls to the callbacks are those of the loop over the fragments
    that the reader delivers, whether it then closes or fails. *)
Lemma translate_reads w text targetLang signal p s response reader :
  configured w ->
  fetched w text targetLang signal = Fulfilled response ->
  ok response = true ->
  body response = Some reader ->
  snd (translate w text targetLang signal p s) =
  snd (read_all w (fdiv (of_nat (length text)) (of_Z 4)) p s
         {| fullContent := []; tokenCount := of_Z 0 |} (chunks reader)).
Proof.
  intros Hc Hf Hok Hb. rewrite (translate_configured _ _ _ _ _ _ Hc).
  unfold attempt. unfold fetched in Hf. rewrite Hf, Hok, Hb. simpl negb. cbv iota.
  destruct (read_all w _ p s _ (chunks reader)) as [st events].
  destruct (ending reader); [|reflexivity].
  cbv zeta.
  destruct (JSON_parse _) as [v|]; [destruct (stringify_RangeError w v)|];
    try reflexivity; destruct (aborted _ _); reflexivity.
Qed.

End ControlFlow.

Module ProgressFacts.

Import Num NumText Str JSON Translate Properties NumFacts ControlFlow Notions.

Lemma progress_values_app (e1 e2 : list Event) :
  progress_values (e1 ++ e2) = progress_values e1 ++ progress_values e2.
Proof.
  induction e1 as [|[p|s] e1 IH]; simpl; [reflexivity| now rewrite IH | exact IH].
Qed.

Section Estimated.

Variable L : Z.
Hypothesis L_pos : 0 < L.
Let est := Finite false L.

Lemma product_nonneg (t : number) : nonneg t -> nonneg (fmul (fdiv t est) (of_Z 100)).
Proof.
  intros Ht. rewrite (of_Z_exact 100) by lia.
  apply fmul_nonneg_mono with (x' := fdiv t est); try lia.
  - apply (fdiv_nonneg_mono t t L L_pos Ht Ht). lia.
  - apply (fdiv_nonneg_mono t t L L_pos Ht Ht). lia.
Qed.

Lemma progress_of_pct (t : number) : nonneg t -> progress_of t est = of_Z (pct est t).
Proof.
  intros Ht. unfold progress_of, pct. apply min_round_percent, product_nonneg, Ht.
Qed.

Lemma pct_range (t : number) : nonneg t -> 0 <= pct est t <= 100.
Proof. intros Ht. apply percent_range, product_nonneg, Ht. Qed.

Lemma pct_mono (t t' : number) :
  nonneg t -> nonneg t' -> rank t <= rank t' -> pct est t <= pct est t'.
Proof.
  intros Ht Ht' H. unfold pct.
  apply percent_mono; try now apply product_nonneg.
  rewrite (of_Z_exact 100) by lia.
  destruct (fdiv_nonneg_mono t t' L L_pos Ht Ht' H) as [N1 M1].
  destruct (fdiv_nonneg_mono t' t' L L_pos Ht' Ht') as [N2 _]; [lia|].
  apply fmul_nonneg_mono; try lia; assumption.
Qed.

Lemma read_all_progress (w : World) (onProgress onStream : bool) (values : list (list byte)) :
  forall st, nonneg (tokenCount st) ->
  exists ns,
    progress_values (snd (read_all w est onProgress onStream st values)) = map of_Z ns /\
    Forall (fun n => pct est (tokenCount st) <= n <= 100) ns /\
    StronglySorted Z.le ns.
Proof.
  induction values as [|v vs IH]; intros st Hst; simpl.
  - exists []. repeat split; constructor.
  - set (t' := fadd (tokenCount st) (fdiv (of_nat (length (chunk_content w v))) (of_Z 4))).
    set (st' := {| fullContent := fullContent st ++ chunk_content w v; tokenCount := t' |}).
    assert (nonneg t' /\ rank (tokenCount st) <= rank t') as [Ht' Hle].
    { apply fadd_nonneg; [assumption|]. apply quarter_nonneg. lia. }
    destruct (IH st' Ht') as (ns & E & B & S).
    destruct (read_all w est onProgress onStream st' vs) as [final later] eqn:R.
    simpl in E |- *. rewrite !progress_values_app, E.
    assert (progress_values (if onStream then [Stream (fullContent st ++ chunk_content w v)] else []) = []) as ->
      by (destruct onStream; reflexivity).
    rewrite app_nil_r.
    pose proof (pct_mono _ _ Hst Ht' Hle) as M.
    assert (Forall (fun n => pct est (tokenCount st) <= n <= 100) ns) as B'.
    { eapply Forall_impl; [|exact B]. simpl. intros n Hn. simpl in Hn. lia. }
    destruct onProgress; simpl.
    + exists (pct est t' :: ns). fold t'. rewrite (progress_of_pct t' Ht'). split; [reflexivity|]. split.
      * constructor; [|exact B']. pose proof (pct_range t' Ht'). lia.
      * constructor; [exact S|]. eapply Forall_impl; [|exact B]. simpl. intros n Hn. lia.
    + exists ns. auto.
Qed.

Lemma read_all_tokenCount (w : World) (onProgress onStream : bool) (values : list (list byte)) :
  forall st (n : nat),
  tokenCount st = Finite false (Z.of_nat n * 2 ^ 1072) ->
  Z.of_nat (n + length (accumulated w values)) < 2 ^ 53 ->
  progress_values (snd (read_all w est onProgress onStream st values)) =
  if onProgress then
    map (fun total => progress_of (fdiv (of_nat total) (of_Z 4)) est) (running_totals w n values)
  else [].
Proof.
  induction values as [|v vs IH]; intros st n Hst Hb; simpl.
  - destruct onProgress; reflexivity.
  - unfold accumulated in Hb. simpl in Hb. rewrite length_app in Hb. fold (accumulated w vs) in Hb.
    set (c := length (chunk_content w v)) in *.
    set (t' := fadd (tokenCount st) (fdiv (of_nat c) (of_Z 4))).
    set (st' := {| fullContent := fullContent st ++ chunk_content w v; tokenCount := t' |}).
    assert (t' = Finite false (Z.of_nat (n + c) * 2 ^ 1072)) as Ht'.
    { unfold t'. rewrite Hst. unfold of_nat. rewrite quarter_exact by lia.
      unfold fadd, signed.
      assert (0 < 2 ^ 1072) as P by (apply pow2_pos; lia).
      destruct (Z.eqb_spec (Z.of_nat n * 2 ^ 1072 + Z.of_nat c * 2 ^ 1072) 0) as [E | N].
      - simpl andb. f_equal. nia.
      - destruct (Z.ltb_spec (Z.of_nat n * 2 ^ 1072 + Z.of_nat c * 2 ^ 1072) 0); [nia|].
        rewrite Z.abs_eq by nia.
        replace (Z.of_nat n * 2 ^ 1072 + Z.of_nat c * 2 ^ 1072)
          with (Z.of_nat (n + c) * 2 ^ 1072 * 1) by nia.
        apply round_ratio_exact; try nia.
        apply representable_scaled; lia. }
    specialize (IH st' (n + c)%nat Ht').
    destruct (read_all w est onProgress onStream st' vs) as [final later] eqn:R.
    simpl in IH |- *. rewrite !progress_values_app, IH by lia.
    assert (progress_values (if onStream then [Stream (fullContent st ++ chunk_content w v)] else []) = []) as ->
      by (destruct onStream; reflexivity).
    destruct onProgress; simpl; [|reflexivity].
    f_equal. fold t'. rewrite Ht'. unfold of_nat. rewrite quarter_exact by lia. reflexivity.
Qed.

End Estimated.

Lemma estimatedTokens_exact (text : jsstring) :
  Z.of_nat (length text) < 2 ^ 53 ->
  fdiv (of_nat (length text)) (of_Z 4) = Finite false (Z.of_nat (length text) * 2 ^ 1072).
Proof. intros H. apply quarter_exact. lia. Qed.

Lemma attempt_events w url key text targetLang signal p s :
  snd (attempt w url key text targetLang signal p s) = [] \/
  exists response reader,
    fetch w url (request key text targetLang signal) = Fulfilled response /\
    ok response = true /\ body response = Some reader /\
    snd (attempt w url key text targetLang signal p s) =
    snd (read_all w (fdiv (of_nat (length text)) (of_Z 4)) p s
           {| fullContent := []; tokenCount := of_Z 0 |} (chunks reader)).
Proof.
  unfold attempt.
  destruct (fetch w url _) as [response | reason]; [|now left].
  destruct (ok response) eqn:Hok; simpl negb; cbv iota.
  2:{ left. destruct (_ =? 401); [|destruct (_ =? 429)]; reflexivity. }
  destruct (body response) as [reader|] eqn:Hb; [|now left].
  right. exists response, reader. repeat split; try assumption.
  destruct (read_all w _ p s _ (chunks reader)) as [st events].
  destruct (ending reader); [|reflexivity].
  cbv zeta.
  destruct (JSON_parse _) as [v|]; [destruct (stringify_RangeError w v)|];
    try reflexivity; destruct (aborted _ _); reflexivity.
Qed.

Lemma translate_events w text targetLang signal p s :
  snd (translate w text targetLang signal p s) = [] \/
  exists response reader,
    fetched w text targetLang signal = Fulfilled response /\
    ok response = true /\ body response = Some reader /\
    snd (translate w text targetLang signal p s) =
    snd (read_all w (fdiv (of_nat (length text)) (of_Z 4)) p s
           {| fullContent := []; tokenCount := of_Z 0 |} (chunks reader)).
Proof.
  unfold translate.
  destruct (missing (NEXT_PUBLIC_GEMINI_API_KEY w)); [now left|].
  destruct (missing (NEXT_PUBLIC_GEMINI_API_URL w)); [now left|].
  fold (from_env (NEXT_PUBLIC_GEMINI_API_URL w)) (from_env (NEXT_PUBLIC_GEMINI_API_KEY w)).
  destruct (attempt_events w (from_env (NEXT_PUBLIC_GEMINI_API_URL w))
              (from_env (NEXT_PUBLIC_GEMINI_API_KEY w)) text targetLang signal p s)
    as [E | (response & reader & Hf & Hok & Hb & E)].
  - left. destruct (attempt _ _ _ _ _ _ _ _) as [[r|e t] ev]; simpl in *; exact E.
  - right. exists response, reader. repeat split; try assumption.
    destruct (attempt _ _ _ _ _ _ _ _) as [[r|e t] ev]; simpl in *; exact E.
Qed.

End ProgressFacts.

Module StringFacts.

Import Num NumText Str JSON.

Lemma eqb_eq (s t : jsstring) : Str.eqb s t = true <-> s = t.
Proof.
  revert t. induction s as [|c s IH]; intros [|d t]; simpl; split; try congruence; try reflexivity.
  - intros H. apply andb_true_iff in H as [H1 H2]. apply N.eqb_eq in H1. apply IH in H2. congruence.
  - intros [= -> ->]. rewrite N.eqb_refl. simpl. now apply IH.
Qed.

Lemma eqb_refl (s : jsstring) : Str.eqb s s = true.
Proof. now apply eqb_eq. Qed.

Lemma eqb_neq (s t : jsstring) : Str.eqb s t = false <-> s <> t.
Proof.
  split.
  - intros H E. apply eqb_eq in E. congruence.
  - intros H. destruct (Str.eqb s t) eqn:E; [|reflexivity]. apply eqb_eq in E. contradiction.
Qed.

Lemma hex_value_digit (n : N) : (n < 16)%N -> hex_value (hex_digit n) = Some n.
Proof.
  intros H.
  assert (forallb (fun n => match hex_value (hex_digit n) with Some m => N.eqb m n | None => false end)
            (map N.of_nat (seq 0 16)) = true) as A by reflexivity.
  rewrite forallb_forall in A.
  specialize (A n). rewrite in_map_iff in A.
  assert (match hex_value (hex_digit n) with Some m => (m =? n)%N | None => false end = true) as A'.
  { apply A. exists (N.to_nat n). split; [lia|]. apply in_seq. lia. }
  destruct (hex_value (hex_digit n)); [|discriminate]. apply N.eqb_eq in A'. congruence.
Qed.

Lemma hex4_UnicodeEscape (c : N) :
  (c < 65536)%N ->
  hex4 (hex_digit (c / 4096 mod 16)) (hex_digit (c / 256 mod 16))
       (hex_digit (c / 16 mod 16)) (hex_digit (c mod 16)) = Some c.
Proof.
  intros H. unfold hex4.
  rewrite !hex_value_digit by (apply N.mod_lt; discriminate).
  f_equal. zify. Z.to_euclidean_division_equations. lia.
Qed.

(** What [parse_chars] does with the text of one escaped or plain unit. *)
Lemma parse_chars_escape2 (x u : N) (s : jsstring) :
  x <> 117%N -> escape x = Some u ->
  parse_chars (92%N :: x :: s) = prepend u (parse_chars s).
Proof.
  intros Hx He. simpl. destruct (N.eqb_spec x 117); [contradiction|]. now rewrite He.
Qed.

Lemma parse_chars_unicode (c : N) (s : jsstring) :
  (c < 65536)%N ->
  parse_chars (UnicodeEscape c ++ s) = prepend c (parse_chars s).
Proof.
  intros H. unfold UnicodeEscape. cbn [app parse_chars N.eqb Pos.eqb].
  now rewrite hex4_UnicodeEscape.
Qed.

Lemma parse_chars_plain (c : N) (s : jsstring) :
  c <> 34%N -> c <> 92%N -> (32 <= c)%N ->
  parse_chars (c :: s) = prepend c (parse_chars s).
Proof.
  intros H1 H2 H3. simpl.
  destruct (N.eqb_spec c 34); [contradiction|].
  destruct (N.eqb_spec c 92); [contradiction|].
  destruct (N.ltb_spec c 32); [lia|]. reflexivity.
Qed.

Lemma parse_quote_chars (s rest : jsstring) :
  parse_chars (quote_chars s ++ 34%N :: rest) = Some (s, rest).
Proof.
  enough (forall n s, (length s <= n)%nat ->
            parse_chars (quote_chars s ++ 34%N :: rest) = Some (s, rest)) as A
    by (apply (A (length s)); lia).
  clear s. induction n as [|n IH]; intros [|c s] Hn; simpl in Hn; try lia; try reflexivity.
  assert (IHs : parse_chars (quote_chars s ++ 34%N :: rest) = Some (s, rest))
    by (apply IH; lia).
  assert (Esc : forall x, x <> 117%N -> escape x = Some c ->
            parse_chars (([92; x]%N ++ quote_chars s) ++ 34%N :: rest) = Some (c :: s, rest)).
  { intros x Hx He. cbn [app]. rewrite (parse_chars_escape2 x c) by assumption.
    now rewrite IHs. }
  assert (Uni : (c < 65536)%N ->
            parse_chars ((UnicodeEscape c ++ quote_chars s) ++ 34%N :: rest) = Some (c :: s, rest)).
  { intros Hc. rewrite <- app_assoc, parse_chars_unicode by assumption. now rewrite IHs. }
  cbn [quote_chars].
  destruct (N.eqb_spec c 8) as [->|]; [apply Esc; [discriminate | reflexivity]|].
  destruct (N.eqb_spec c 9) as [->|]; [apply Esc; [discriminate | reflexivity]|].
  destruct (N.eqb_spec c 10) as [->|]; [apply Esc; [discriminate | reflexivity]|].
  destruct (N.eqb_spec c 12) as [->|]; [apply Esc; [discriminate | reflexivity]|].
  destruct (N.eqb_spec c 13) as [->|]; [apply Esc; [discriminate | reflexivity]|].
  destruct (N.eqb_spec c 34) as [->|]; [apply Esc; [discriminate | reflexivity]|].
  destruct (N.eqb_spec c 92) as [->|]; [apply Esc; [discriminate | reflexivity]|].
  destruct (N.ltb_spec c 32); [apply Uni; lia|].
  unfold is_leading_surrogate, is_trailing_surrogate.
  destruct (N.leb_spec 55296 c), (N.leb_spec c 56319); simpl andb.
  - (* leading surrogate *)
    destruct s as [|d s'].
    + cbn [app]. rewrite <- (app_nil_r (UnicodeEscape c)), <- app_assoc.
      rewrite parse_chars_unicode by lia. reflexivity.
    + destruct (N.leb_spec 56320 d), (N.leb_spec d 57343); simpl andb;
        try (apply Uni; lia).
      cbn [app]. rewrite parse_chars_plain by lia. rewrite parse_chars_plain by lia.
      simpl in Hn. rewrite IH by (simpl; lia). reflexivity.
  - destruct (N.leb_spec 56320 c), (N.leb_spec c 57343); simpl andb; try (apply Uni; lia); try lia.
    cbn [app]. rewrite parse_chars_plain by lia. now rewrite IHs.
  - destruct (N.leb_spec 56320 c), (N.leb_spec c 57343); simpl andb; try (apply Uni; lia); try lia.
    cbn [app]. rewrite parse_chars_plain by lia. now rewrite IHs.
  - lia.
Qed.

End StringFacts.

Module DigitFacts.

Import Num NumText Str JSON Properties NumFacts Notions.

Lemma pow10_pos (n : Z) : 0 <= n -> 0 < 10 ^ n.
Proof. intros; apply Z.pow_pos_nonneg; lia. Qed.

Lemma digits_value_from (ds : list N) (acc : Z) :
  fold_left (fun a d => 10 * a + Z.of_N d) ds acc
  = acc * 10 ^ Z.of_nat (length ds) + digits_value ds.
Proof.
  unfold digits_value. revert acc. induction ds as [|d ds IH]; intros acc.
  - simpl. lia.
  - cbn [fold_left length]. rewrite IH, (IH (10 * 0 + Z.of_N d)).
    rewrite Nat2Z.inj_succ, Z.pow_succ_r by lia. ring.
Qed.

Lemma digits_value_app (a b : list N) :
  digits_value (a ++ b) = digits_value a * 10 ^ Z.of_nat (length b) + digits_value b.
Proof.
  unfold digits_value at 1. rewrite fold_left_app. fold (digits_value a).
  apply digits_value_from.
Qed.

Lemma digits_value_cons (d : N) (ds : list N) :
  digits_value (d :: ds) = Z.of_N d * 10 ^ Z.of_nat (length ds) + digits_value ds.
Proof. change (d :: ds) with ([d] ++ ds). rewrite digits_value_app. unfold digits_value at 1. simpl. lia. Qed.

Lemma digits_value_bound (ds : list N) :
  all_digits ds -> 0 <= digits_value ds < 10 ^ Z.of_nat (length ds).
Proof.
  induction 1 as [|d ds Hd _ IH].
  - unfold digits_value. simpl. lia.
  - rewrite digits_value_cons. cbn [length]. rewrite Nat2Z.inj_succ, Z.pow_succ_r by lia.
    pose proof (pow10_pos (Z.of_nat (length ds))). nia.
Qed.

Lemma digits_from_less (fuel : nat) (n : Z) (less : list N) :
  digits_from fuel n less = digits_from fuel n [] ++ less.
Proof.
  revert n less. induction fuel as [|f IH]; intros n less; simpl; [reflexivity|].
  destruct (n <? 10); [reflexivity|].
  rewrite IH, (IH _ [_]), <- app_assoc. reflexivity.
Qed.

(** The digits of a number below ten times 2^fuel. *)
Lemma digits_from_spec (fuel : nat) (n : Z) :
  0 <= n < 10 * 2 ^ Z.of_nat fuel ->
  let ds := digits_from (S fuel) n [] in
  all_digits ds /\ digits_value ds = n /\
  (0 < n -> 10 ^ (Z.of_nat (length ds) - 1) <= n) /\ ds <> [].
Proof.
  revert n. induction fuel as [|f IH]; intros n Hn; cbn zeta.
  - simpl in Hn. cbn [digits_from]. destruct (Z.ltb_spec n 10); [|lia].
    repeat split.
    + constructor; [lia | constructor].
    + unfold digits_value. simpl. lia.
    + simpl. lia.
    + discriminate.
  - change (digits_from (S (S f)) n [])
      with (if n <? 10 then [Z.to_N n] else digits_from (S f) (n / 10) [Z.to_N (n mod 10)]).
    destruct (Z.ltb_spec n 10).
    + repeat split.
      * constructor; [lia | constructor].
      * unfold digits_value. simpl. lia.
      * simpl. lia.
      * discriminate.
    + rewrite digits_from_less.
      rewrite Nat2Z.inj_succ, Z.pow_succ_r in Hn by lia.
      destruct (IH (n / 10)) as (A & V & L & NE).
      { split; [apply Z.div_pos; lia|]. apply Z.div_lt_upper_bound; lia. }
      set (ds := digits_from (S f) (n / 10) []) in *.
      pose proof (Z.mod_pos_bound n 10 ltac:(lia)) as Hm.
      repeat split.
      * apply Forall_app. split; [exact A|]. constructor; [lia | constructor].
      * rewrite digits_value_app, V. unfold digits_value at 1. simpl.
        rewrite Z2N.id by lia. pose proof (Z.div_mod n 10 ltac:(lia)). lia.
      * intros _. rewrite length_app. simpl length.
        replace (Z.of_nat (length ds + 1) - 1) with (Z.succ (Z.of_nat (length ds) - 1)) by lia.
        assert (0 < n / 10) as Hq by (apply Z.div_str_pos; lia).
        specialize (L Hq).
        assert (1 <= Z.of_nat (length ds)).
        { destruct ds; [contradiction|]. simpl. lia. }
        rewrite Z.pow_succ_r by lia.
        pose proof (Z.div_mod n 10 ltac:(lia)). lia.
      * destruct ds; discriminate.
Qed.

Lemma decimal_digits_spec (n : Z) :
  0 <= n ->
  let ds := decimal_digits n in
  all_digits ds /\ digits_value ds = n /\
  (0 < n -> 10 ^ (Z.of_nat (length ds) - 1) <= n) /\ ds <> [].
Proof.
  intros Hn. unfold decimal_digits. apply digits_from_spec.
  split; [lia|].
  destruct (Z.eq_dec n 0) as [->|N0]; [simpl; lia|].
  rewrite Z2Nat.id by apply Z.log2_nonneg.
  destruct (Z.log2_spec n) as [_ U]; [lia|].
  rewrite Z.pow_succ_r in U by apply Z.log2_nonneg. lia.
Qed.

Lemma decimal_digits_all (n : Z) : 0 <= n -> all_digits (decimal_digits n).
Proof. intros H. apply (decimal_digits_spec n H). Qed.

Lemma decimal_digits_value (n : Z) : 0 <= n -> digits_value (decimal_digits n) = n.
Proof. intros H. apply (decimal_digits_spec n H). Qed.

Lemma decimal_digits_nonempty (n : Z) : 0 <= n -> decimal_digits n <> [].
Proof. intros H. apply (decimal_digits_spec n H). Qed.

(** A positive number with [j] digits lies in [10^(j-1), 10^j). *)
Lemma decimal_digits_length (n j : Z) :
  10 ^ (j - 1) <= n < 10 ^ j -> 1 <= j -> Z.of_nat (length (decimal_digits n)) = j.
Proof.
  intros Hn Hj.
  assert (0 < n) as Hpos by (pose proof (pow10_pos (j - 1)); lia).
  destruct (decimal_digits_spec n) as (A & V & L & NE); [lia|]. cbv zeta in *.
  specialize (L Hpos).
  pose proof (digits_value_bound _ A) as B. rewrite V in B.
  set (l := Z.of_nat (length (decimal_digits n))) in *.
  assert (1 <= l).
  { unfold l. destruct (decimal_digits n); [contradiction|]. simpl. lia. }
  destruct (Z.lt_trichotomy l j) as [Hlt | [E | Hgt]]; [exfalso | exact E | exfalso].
  - assert (10 ^ l <= 10 ^ (j - 1)) by (apply Z.pow_le_mono_r; lia). lia.
  - assert (10 ^ j <= 10 ^ (l - 1)) by (apply Z.pow_le_mono_r; lia). lia.
Qed.

(** The first digit of a positive number is not zero. *)
Lemma decimal_digits_head (n : Z) :
  0 < n -> exists d ds, decimal_digits n = d :: ds /\ d <> 0%N.
Proof.
  intros Hn.
  destruct (decimal_digits_spec n) as (A & V & L & NE); [lia|]. cbv zeta in *.
  specialize (L Hn).
  destruct (decimal_digits n) as [|d ds]; [contradiction|].
  exists d, ds. split; [reflexivity|]. intros ->.
  rewrite digits_value_cons in V. simpl Z.of_N in V.
  inversion A as [|? ? _ A']; subst.
  pose proof (digits_value_bound _ A') as B.
  cbn [length] in L. rewrite Nat2Z.inj_succ in L.
  replace (Z.succ (Z.of_nat (length ds)) - 1) with (Z.of_nat (length ds)) in L by lia.
  lia.
Qed.

Lemma digits_value_zeros (n : nat) : digits_value (repeat 0%N n) = 0.
Proof.
  induction n as [|n IH]; [reflexivity|].
  cbn [repeat]. rewrite digits_value_cons, IH. simpl. lia.
Qed.

Lemma all_digits_zeros (n : nat) : all_digits (repeat 0%N n).
Proof. induction n; simpl; constructor; [lia | assumption]. Qed.

Lemma digit_chars_app (a b : list N) : digit_chars (a ++ b) = digit_chars a ++ digit_chars b.
Proof. apply map_app. Qed.

Lemma zeros_chars (n : Z) : zeros n = digit_chars (repeat 0%N (Z.to_nat n)).
Proof. unfold zeros, digit_chars. now rewrite map_repeat. Qed.

Lemma take_digits_chars (ds : list N) (rest : jsstring) :
  all_digits ds -> not_digit_first rest ->
  take_digits (digit_chars ds ++ rest) = (ds, rest).
Proof.
  intros A Hr. induction A as [|d ds Hd _ IH]; cbn [digit_chars map app take_digits].
  - destruct rest as [|c rest]; [reflexivity|].
    cbn [take_digits]. simpl in Hr. now rewrite Hr.
  - fold (digit_chars ds). rewrite IH. unfold is_digit.
    destruct (N.leb_spec 48 (48 + d)); [|lia].
    destruct (N.leb_spec (48 + d) 57); [|lia]. cbn [andb].
    f_equal. f_equal. lia.
Qed.

End DigitFacts.

Module NumberTextFacts.

Import Num NumText Str JSON Properties NumFacts DigitFacts Notions.

#[local] Arguments decimal_to_number : simpl never.
#[local] Arguments Z.pow : simpl never.
#[local] Arguments Z.mul : simpl never.
#[local] Arguments Z.sub : simpl never.
#[local] Arguments Z.add : simpl never.

Lemma number_end_not_digit (s : jsstring) : number_end s -> not_digit_first s.
Proof. destruct s; simpl; tauto. Qed.

Lemma parse_fraction_none (s : jsstring) :
  number_end s -> parse_fraction s = Some ([], s).
Proof.
  destruct s as [|c s]; [reflexivity|]. intros (_ & H & _). unfold parse_fraction.
  destruct c as [|p]; [reflexivity|].
  do 6 (destruct p as [p|p|]; try reflexivity). congruence.
Qed.

Lemma parse_fraction_digits (ds : list N) (rest : jsstring) :
  all_digits ds -> ds <> [] -> not_digit_first rest ->
  parse_fraction (46%N :: digit_chars ds ++ rest) = Some (ds, rest).
Proof.
  intros A NE Hr. unfold parse_fraction. rewrite take_digits_chars by assumption.
  destruct ds; [contradiction | reflexivity].
Qed.

Lemma parse_exponent_none (s : jsstring) :
  number_end s -> parse_exponent s = Some (0, s).
Proof.
  destruct s as [|c s]; [reflexivity|]. intros (_ & _ & H1 & H2). unfold parse_exponent.
  destruct (N.eqb_spec c 101); [contradiction|].
  destruct (N.eqb_spec c 69); [contradiction|]. reflexivity.
Qed.

Lemma parse_exponent_digits (e : Z) (rest : jsstring) :
  not_digit_first rest ->
  parse_exponent (str "e" ++ (if e <? 0 then str "-" else str "+")
                    ++ digit_chars (decimal_digits (Z.abs e)) ++ rest) = Some (e, rest).
Proof.
  intros Hr.
  pose proof (decimal_digits_spec (Z.abs e) (Z.abs_nonneg e)) as (A & V & _ & NE). cbv zeta in *.
  assert (take_digits (digit_chars (decimal_digits (Z.abs e)) ++ rest)
          = (decimal_digits (Z.abs e), rest)) as T by (apply take_digits_chars; assumption).
  unfold parse_exponent. change (str "e") with [101%N]. cbn [app N.eqb Pos.eqb orb].
  destruct (Z.ltb_spec e 0).
  - change (str "-") with [45%N]. cbn [app]. rewrite T.
    destruct (decimal_digits (Z.abs e)); [contradiction|].
    rewrite V. unfold signed. do 2 f_equal. lia.
  - change (str "+") with [43%N]. cbn [app]. rewrite T.
    destruct (decimal_digits (Z.abs e)); [contradiction|].
    rewrite V. unfold signed. do 2 f_equal. lia.
Qed.

Lemma parse_number_parts (int frac : list N) (e : Z) (tail t2 rest : jsstring) :
  all_digits int -> int <> [] -> no_leading_zero int ->
  not_digit_first tail ->
  parse_fraction tail = Some (frac, t2) ->
  parse_exponent t2 = Some (e, rest) ->
  parse_number (digit_chars int ++ tail)
  = Some (decimal_to_number false (digits_value (int ++ frac))
            (e - Z.of_nat (length frac)), rest).
Proof.
  intros A NE NZ Ht Hf He. unfold parse_number.
  destruct int as [|d int]; [contradiction|].
  assert (digit_chars (d :: int) ++ tail = (48 + d)%N :: digit_chars int ++ tail) as E
    by reflexivity.
  assert ((48 + d)%N <> 45%N) as N45 by (inversion A; subst; lia).
  rewrite E. destruct (N.eqb_spec (48 + d) 45); [contradiction|].
  rewrite <- E, take_digits_chars by assumption.
  rewrite Hf, He.
  destruct d as [|pd].
  - destruct int; [reflexivity | contradiction].
  - reflexivity.
Qed.

Lemma decimal_to_number_shift (neg : bool) (D X : Z) :
  0 < D -> 0 <= X <= 400 ->
  decimal_to_number neg (D * 10 ^ X) 0 = decimal_to_number neg D X.
Proof.
  intros HD HX. unfold decimal_to_number.
  assert (0 < 10 ^ X) as P by (apply pow10_pos; lia).
  destruct (Z.eqb_spec (D * 10 ^ X) 0); [nia|].
  destruct (Z.eqb_spec D 0); [lia|].
  destruct (Z.ltb_spec 400 0); [lia|].
  destruct (Z.ltb_spec 400 X); [lia|].
  pose proof (Z.log2_nonneg (D * 10 ^ X)). pose proof (Z.log2_nonneg D).
  destruct (Z.ltb_spec (Z.log2 (D * 10 ^ X) + 1) (3 * (- 0 - 400))); [lia|].
  destruct (Z.ltb_spec (Z.log2 D + 1) (3 * (- X - 400))); [lia|].
  destruct (Z.leb_spec 0 0); [|lia].
  destruct (Z.leb_spec 0 X); [|lia].
  f_equal. change (10 ^ 0) with 1. ring.
Qed.

Lemma firstn_digit_chars (n : nat) (ds : list N) :
  firstn n (digit_chars ds) = digit_chars (firstn n ds).
Proof. unfold digit_chars. now rewrite firstn_map. Qed.

Lemma skipn_digit_chars (n : nat) (ds : list N) :
  skipn n (digit_chars ds) = digit_chars (skipn n ds).
Proof. unfold digit_chars. now rewrite skipn_map. Qed.

Lemma all_digits_firstn (n : nat) (ds : list N) : all_digits ds -> all_digits (firstn n ds).
Proof.
  intros A. unfold all_digits in *. rewrite <- (firstn_skipn n ds) in A.
  now apply Forall_app in A.
Qed.

Lemma all_digits_skipn (n : nat) (ds : list N) : all_digits ds -> all_digits (skipn n ds).
Proof.
  intros A. unfold all_digits in *. rewrite <- (firstn_skipn n ds) in A.
  now apply Forall_app in A.
Qed.

Lemma no_leading_zero_head (d : N) (ds : list N) : d <> 0%N -> no_leading_zero (d :: ds).
Proof. intros H. destruct d; [contradiction | exact I]. Qed.

Lemma parse_exponential (d : N) (more : list N) (n : Z) (rest : jsstring) :
  all_digits (d :: more) -> d <> 0%N -> not_digit_first rest ->
  parse_number (exponential (digit_chars (d :: more)) n ++ rest)
  = Some (decimal_to_number false (digits_value (d :: more))
            (n - Z.of_nat (length (d :: more))), rest).
Proof.
  intros A Hd Hr. unfold exponential. cbv zeta. cbn [digit_chars map]. fold (digit_chars more).
  set (exponent := str "e" ++ (if n - 1 <? 0 then str "-" else str "+")
                     ++ digit_chars (decimal_digits (Z.abs (n - 1)))).
  assert (parse_exponent (exponent ++ rest) = Some (n - 1, rest)) as He.
  { unfold exponent. rewrite <- !app_assoc. now apply parse_exponent_digits. }
  assert (not_digit_first (exponent ++ rest)) as Hx by reflexivity.
  assert (parse_fraction (exponent ++ rest) = Some ([], exponent ++ rest)) as Hf0 by reflexivity.
  destruct more as [|d2 more'].
  - cbn [digit_chars map].
    change (((48 + d)%N :: exponent) ++ rest) with (digit_chars [d] ++ exponent ++ rest).
    rewrite (parse_number_parts [d] [] (n - 1) (exponent ++ rest) (exponent ++ rest) rest);
      try assumption; try discriminate.
    + rewrite app_nil_r. cbn [length]. do 3 f_equal. lia.
    + now apply no_leading_zero_head.
  - match goal with
    | |- parse_number ?x = _ =>
        replace x
          with (digit_chars [d] ++ 46%N :: digit_chars (d2 :: more') ++ exponent ++ rest)
          by (cbn [digit_chars map app]; change (str ".") with [46%N]; cbn [app];
              now rewrite <- app_assoc)
    end.
    rewrite (parse_number_parts [d] (d2 :: more') (n - 1)
               (46%N :: digit_chars (d2 :: more') ++ exponent ++ rest) (exponent ++ rest) rest);
      try assumption; try discriminate.
    + cbn [app]. do 3 f_equal. cbn [length]. lia.
    + inversion A; subst. constructor; [assumption | constructor].
    + now apply no_leading_zero_head.
    + apply parse_fraction_digits; [inversion A; assumption | discriminate | exact Hx].
Qed.

(** Reading back the text written for the digits of [s] and the exponent
    [n]. *)
Lemma parse_format_decimal (s n : Z) (rest : jsstring) :
  0 < s -> number_end rest ->
  parse_number (format_decimal (decimal_digits s) n ++ rest)
  = Some (decimal_to_number false s (n - Z.of_nat (length (decimal_digits s))), rest).
Proof.
  intros Hs Hr.
  pose proof (decimal_digits_spec s ltac:(lia)) as (A & V & _ & NE). cbv zeta in *.
  destruct (decimal_digits_head s Hs) as (d & more & E & Hd).
  pose proof (number_end_not_digit _ Hr) as Hr'.
  assert (parse_number (exponential (digit_chars (decimal_digits s)) n ++ rest)
          = Some (decimal_to_number false s (n - Z.of_nat (length (decimal_digits s))), rest)) as X.
  { rewrite <- V at 2. rewrite E in *. now apply parse_exponential. }
  unfold format_decimal. cbv zeta.
  set (ds := decimal_digits s) in *.
  set (len := Z.of_nat (length ds)) in *.
  assert (1 <= len) as Hlen by (unfold len; rewrite E; simpl; lia).
  destruct (Z.leb_spec len n) as [L1 | L1]; [destruct (Z.leb_spec n 21) as [L2 | L2]|]; cbn [andb].
  - (* the digits, then zeros *)
    rewrite zeros_chars, <- digit_chars_app.
    rewrite (parse_number_parts (ds ++ repeat 0%N (Z.to_nat (n - len))) [] 0 rest rest rest).
    + rewrite app_nil_r, digits_value_app, V, digits_value_zeros, repeat_length.
      rewrite Z2Nat.id, Z.add_0_r by lia. cbn [length].
      now rewrite decimal_to_number_shift by lia.
    + apply Forall_app. split; [exact A | apply all_digits_zeros].
    + rewrite E. discriminate.
    + rewrite E. cbn [app]. now apply no_leading_zero_head.
    + exact Hr'.
    + now apply parse_fraction_none.
    + now apply parse_exponent_none.
  - destruct (Z.ltb_spec 0 n); [|lia]. destruct (Z.leb_spec n 21); [lia|]. cbn [andb].
    destruct (Z.ltb_spec (-6) n); [|lia]. destruct (Z.leb_spec n 0); [lia|]. cbn [andb].
    exact X.
  - destruct (Z.ltb_spec 0 n) as [L3 | L3]; [destruct (Z.leb_spec n 21) as [L4 | L4]|]; cbn [andb].
    + (* a point inside the digits *)
      rewrite firstn_digit_chars, skipn_digit_chars, <- !app_assoc.
      change (str "." ++ ?x) with (46%N :: x).
      rewrite (parse_number_parts (firstn (Z.to_nat n) ds) (skipn (Z.to_nat n) ds) 0
                 (46%N :: digit_chars (skipn (Z.to_nat n) ds) ++ rest) rest rest).
      * rewrite firstn_skipn, V, length_skipn. do 3 f_equal. unfold len. lia.
      * now apply all_digits_firstn.
      * rewrite E. destruct (Z.to_nat n) eqn:En; [lia | discriminate].
      * rewrite E. destruct (Z.to_nat n) eqn:En; [lia|]. cbn [firstn].
        now apply no_leading_zero_head.
      * reflexivity.
      * apply parse_fraction_digits; [| | exact Hr'].
        -- now apply all_digits_skipn.
        -- intros H0. apply (f_equal (@length N)) in H0. rewrite length_skipn in H0.
           simpl in H0. unfold len in *. lia.
      * now apply parse_exponent_none.
    + destruct (Z.ltb_spec (-6) n); [|lia]. destruct (Z.leb_spec n 0); [lia|]. cbn [andb].
      exact X.
    + destruct (Z.ltb_spec (-6) n) as [L5 | L5]; [destruct (Z.leb_spec n 0) as [L6 | L6]; [|lia]|];
        cbn [andb]; [|exact X].
      (* zeros after the point, then the digits *)
      rewrite zeros_chars, <- digit_chars_app, <- app_assoc.
      change (str "0." ++ ?x) with (digit_chars [0%N] ++ 46%N :: x).
      rewrite (parse_number_parts [0%N] (repeat 0%N (Z.to_nat (- n)) ++ ds) 0
                 (46%N :: digit_chars (repeat 0%N (Z.to_nat (- n)) ++ ds) ++ rest) rest rest).
      * rewrite digits_value_app, digits_value_app, V, digits_value_zeros.
        rewrite length_app, repeat_length. unfold digits_value at 1. cbn [fold_left].
        match goal with
        | |- Some (decimal_to_number _ ?a ?b, _) = _ =>
            replace a with s by (change (Z.of_N 0) with 0; lia);
            replace b with (n - len) by (unfold len; lia)
        end.
        reflexivity.
      * constructor; [lia | constructor].
      * discriminate.
      * exact I.
      * reflexivity.
      * apply parse_fraction_digits; [| | exact Hr'].
        -- apply Forall_app. split; [apply all_digits_zeros | exact A].
        -- rewrite E. destruct (repeat _ _); discriminate.
      * now apply parse_exponent_none.
Qed.

End NumberTextFacts.

Module ShortestFacts.

Import Num NumText Str JSON Properties NumFacts DigitFacts NumberTextFacts Notions.

#[local] Arguments decimal_to_number : simpl never.
#[local] Arguments Z.pow : simpl never.
#[local] Arguments Z.mul : simpl never.
#[local] Arguments Z.sub : simpl never.
#[local] Arguments Z.add : simpl never.

Lemma number_eqb_eq (x y : number) : number_eqb x y = true <-> x = y.
Proof.
  destruct x as [|s|s a], y as [|t|t b]; simpl; split; try congruence; try reflexivity.
  - intros H. apply Bool.eqb_prop in H. congruence.
  - intros [= ->]. apply Bool.eqb_reflx.
  - intros H. apply andb_true_iff in H as [H1 H2].
    apply Bool.eqb_prop in H1. apply Z.eqb_eq in H2. congruence.
  - intros [= -> ->]. rewrite Bool.eqb_reflx, Z.eqb_refl. reflexivity.
Qed.

Lemma round_ratio_negate (a b : Z) : round_ratio true a b = negate (round_ratio false a b).
Proof.
  unfold round_ratio. destruct (a =? 0); [reflexivity|].
  destruct (_ <? overflow_threshold); reflexivity.
Qed.

Lemma decimal_to_number_negate (D X : Z) :
  decimal_to_number true D X = negate (decimal_to_number false D X).
Proof.
  unfold decimal_to_number.
  destruct (D =? 0); [reflexivity|]. destruct (400 <? X); [reflexivity|].
  destruct (_ <? _); [reflexivity|].
  destruct (0 <=? X); apply round_ratio_negate.
Qed.

Lemma parse_number_minus (t : jsstring) :
  match t with c :: _ => c <> 45%N | [] => True end ->
  parse_number (45%N :: t) =
  match parse_number t with
  | Some (x, rest) => Some (negate x, rest)
  | None => None
  end.
Proof.
  intros Ht. unfold parse_number. cbn [N.eqb Pos.eqb].
  assert (match t with
          | c :: t0 => if N.eqb c 45 then (true, t0) else (false, t)
          | [] => (false, t)
          end = (false, t)) as ->.
  { destruct t as [|c t]; [reflexivity|]. now destruct (N.eqb_spec c 45). }
  destruct (take_digits t) as [[|d int] s2]; [reflexivity|].
  destruct d as [|p]; [destruct int|];
    try reflexivity;
    (destruct (parse_fraction s2) as [[frac s3]|]; [|reflexivity];
     destruct (parse_exponent s3) as [[e s4]|]; [|reflexivity];
     now rewrite decimal_to_number_negate).
Qed.

Lemma round_ratio_sign (neg s : bool) (a b k : Z) :
  round_ratio neg a b = Finite s k -> s = neg.
Proof.
  unfold round_ratio. destruct (a =? 0).
  - intros H. now injection H.
  - destruct (_ <? overflow_threshold); intros H; [now injection H | discriminate H].
Qed.

Lemma decimal_to_number_sign (neg s : bool) (D X k : Z) :
  decimal_to_number neg D X = Finite s k -> s = neg.
Proof.
  unfold decimal_to_number.
  destruct (D =? 0); [intros H; now injection H|].
  destruct (400 <? X); [intros H; discriminate H|].
  destruct (_ <? _); [intros H; now injection H|].
  destruct (0 <=? X); apply round_ratio_sign.
Qed.

Lemma parse_number_minus_sign (t rest : jsstring) (k : Z) :
  parse_number (45%N :: t) = Some (Finite false k, rest) -> False.
Proof.
  unfold parse_number. cbn [N.eqb Pos.eqb].
  destruct (take_digits t) as [[|d int] s2]; [intros H; discriminate H|].
  destruct d as [|p]; [destruct int|].
  - destruct (parse_fraction s2) as [[frac s3]|]; [|intros H; discriminate H].
     destruct (parse_exponent s3) as [[e s4]|]; [|intros H; discriminate H].
     intros H. injection H as H _. apply decimal_to_number_sign in H. discriminate H.
  - intros H; discriminate H.
  - destruct (parse_fraction s2) as [[frac s3]|]; [|intros H; discriminate H].
     destruct (parse_exponent s3) as [[e s4]|]; [|intros H; discriminate H].
     intros H. injection H as H _. apply decimal_to_number_sign in H. discriminate H.
Qed.

Lemma floor_scaled_nonneg (k p : Z) : 0 <= k -> 0 <= floor_scaled k p.
Proof.
  intros Hk. unfold floor_scaled. destruct (0 <=? p) eqn:E.
  - apply Z.leb_le in E. apply Z.div_pos; [lia|].
    apply Z.mul_pos_pos; [apply pow10_pos; lia | apply pow2_pos; lia].
  - apply Z.leb_gt in E. apply Z.div_pos; [|apply pow2_pos; lia].
    apply Z.mul_nonneg_nonneg; [lia|]. apply Z.pow_nonneg. lia.
Qed.

Lemma candidate_ok_nonzero (k s n : Z) : 0 < k -> candidate_ok k s n = true -> s <> 0.
Proof.
  intros Hk H E. subst s. unfold candidate_ok in H. apply number_eqb_eq in H.
  unfold decimal_to_number in H. simpl in H. injection H as H. lia.
Qed.

Lemma shortest_from_sound (fuel : nat) (k n0 : Z) :
  0 < k -> forall len s n,
  shortest_from fuel k n0 len = Some (s, n) ->
  1 <= len ->
  0 < s /\ candidate_ok k s n = true.
Proof.
  intros Hk. induction fuel as [|f IH]; intros len s n H Hlen; [discriminate|].
  cbn [shortest_from] in H. cbv zeta in H.
  set (lo := floor_scaled k (n0 - len)) in *.
  set (hi := if lo + 1 =? 10 ^ len then (10 ^ (len - 1), n0 + 1) else (lo + 1, n0)) in *.
  assert (0 <= lo) as Hlo by (apply floor_scaled_nonneg; lia).
  assert (0 < fst hi) as Hhi.
  { unfold hi. destruct (lo + 1 =? 10 ^ len); cbn [fst]; [apply pow10_pos|]; lia. }
  assert (forall a b, candidate_ok k a b = true -> 0 <= a -> 0 < a) as Pos.
  { intros a b Hc Ha. pose proof (candidate_ok_nonzero k a b Hk Hc). lia. }
  assert (Some (lo, n0) = Some (s, n) -> candidate_ok k lo n0 = true ->
          0 < s /\ candidate_ok k s n = true) as ByLo.
  { intros E C. injection E as E1 E2. rewrite <- E1, <- E2.
    split; [eapply Pos; eauto | exact C]. }
  assert (Some hi = Some (s, n) -> candidate_ok k (fst hi) (snd hi) = true ->
          0 < s /\ candidate_ok k s n = true) as ByHi.
  { intros E C. injection E as E. rewrite E in Hhi, C. cbn [fst snd] in *. split; assumption. }
  destruct (10 ^ (len - 1) <=? lo) eqn:B; cbn [andb] in H.
  - destruct (candidate_ok k lo n0) eqn:C1, (candidate_ok k (fst hi) (snd hi)) eqn:C2.
    + destruct (compare_midpoint k lo (n0 - len)); [destruct (Z.even lo)| |]; auto.
    + auto.
    + auto.
    + apply (IH (len + 1)); [exact H | lia].
  - destruct (candidate_ok k (fst hi) (snd hi)) eqn:C2.
    + auto.
    + apply (IH (len + 1)); [exact H | lia].
Qed.

Lemma shortest_unfold (k : Z) :
  shortest k = shortest_from 1400 k (decimal_exponent k) 1.
Proof. reflexivity. Qed.

Lemma shortest_sound (k d n : Z) :
  0 < k -> shortest k = Some (d, n) -> 0 < d /\ candidate_ok k d n = true.
Proof.
  intros Hk E. rewrite shortest_unfold in E.
  apply (shortest_from_sound 1400 k (decimal_exponent k) Hk 1 d n E). lia.
Qed.

(** Reading back the text of a Number whose digits [shortest] finds. *)
Lemma parse_Number_toString (s : bool) (k : Z) (rest : jsstring) :
  0 < k -> shortest k <> None -> number_end rest ->
  parse_number (Number_toString (Finite s k) ++ rest) = Some (Finite s k, rest).
Proof.
  intros Hk Hs Hr. unfold Number_toString.
  destruct (Z.eqb_spec k 0) as [|_]; [lia|].
  destruct (shortest k) as [[d n]|] eqn:E; [|contradiction].
  destruct (shortest_sound k d n Hk E) as [Hd Hc].
  apply number_eqb_eq in Hc.
  pose proof (parse_format_decimal d n rest Hd Hr) as P.
  rewrite Hc in P.
  destruct s.
  - change (str "-") with [45%N]. cbn [app]. rewrite parse_number_minus.
    + rewrite P. reflexivity.
    + destruct (format_decimal (decimal_digits d) n ++ rest) as [|c t] eqn:F; [exact I|].
      intros ->. exact (parse_number_minus_sign _ _ _ P).
  - cbn [app]. exact P.
Qed.

Lemma parse_zero (rest : jsstring) :
  number_end rest ->
  parse_number (Number_toString (Finite false 0) ++ rest) = Some (Finite false 0, rest).
Proof.
  intros Hr. unfold Number_toString. cbn [Z.eqb].
  change (str "0") with (digit_chars [0%N]).
  rewrite (parse_number_parts [0%N] [] 0 rest rest rest).
  - reflexivity.
  - constructor; [lia | constructor].
  - discriminate.
  - exact I.
  - now apply number_end_not_digit.
  - now apply parse_fraction_none.
  - now apply parse_exponent_none.
Qed.

End ShortestFacts.

Module ShortestExists.

Import Num NumText Str JSON Properties NumFacts DigitFacts NumberTextFacts ShortestFacts Notions.

#[local] Arguments decimal_to_number : simpl never.
#[local] Arguments Z.pow : simpl never.
#[local] Arguments Z.mul : simpl never.
#[local] Arguments Z.sub : simpl never.
#[local] Arguments Z.add : simpl never.

Lemma pow10_split : 10 ^ 1074 = 2 ^ 1074 * 5 ^ 1074.
Proof. change 10 with (2 * 5). apply Z.pow_mul_l. Qed.

Lemma pow5_pos : 0 < 5 ^ 1074.
Proof. apply Z.pow_pos_nonneg; lia. Qed.

(** The value [k * 2^-1074] is the integer [k * 5^1074] divided by
    10^1074. *)
Lemma lt_pow10_iff (k n : Z) :
  0 < k -> -1074 <= n -> (lt_pow10 k n = true <-> k * 5 ^ 1074 < 10 ^ (n + 1074)).
Proof.
  intros Hk Hn. unfold lt_pow10.
  pose proof pow5_pos as P5. pose proof (pow2_pos 1074 ltac:(lia)) as P2.
  destruct (Z.leb_spec 0 n) as [H | H].
  - rewrite Z.ltb_lt, Z.pow_add_r, pow10_split by lia.
    pose proof (pow10_pos n H).
    split; intros L.
    + replace (10 ^ n * (2 ^ 1074 * 5 ^ 1074)) with (10 ^ n * 2 ^ 1074 * 5 ^ 1074) by ring.
      apply Z.mul_lt_mono_pos_r; assumption.
    + replace (10 ^ n * (2 ^ 1074 * 5 ^ 1074)) with (10 ^ n * 2 ^ 1074 * 5 ^ 1074) in L by ring.
      apply Z.mul_lt_mono_pos_r in L; assumption.
  - rewrite Z.ltb_lt.
    pose proof (pow10_pos (- n) ltac:(lia)) as Pn.
    assert (10 ^ 1074 = 10 ^ (- n) * 10 ^ (n + 1074)) as E.
    { rewrite <- Z.pow_add_r by lia. f_equal. lia. }
    split; intros L.
    + apply (Z.mul_lt_mono_pos_l (10 ^ (- n))); [assumption|].
      rewrite <- E, pow10_split.
      replace (10 ^ (- n) * (k * 5 ^ 1074)) with (k * 10 ^ (- n) * 5 ^ 1074) by ring.
      apply Z.mul_lt_mono_pos_r; assumption.
    + apply (Z.mul_lt_mono_pos_l (10 ^ (- n))) in L; [|assumption].
      rewrite <- E, pow10_split in L.
      replace (10 ^ (- n) * (k * 5 ^ 1074)) with (k * 10 ^ (- n) * 5 ^ 1074) in L by ring.
      apply Z.mul_lt_mono_pos_r in L; assumption.
Qed.

Lemma find_exponent_spec (k : Z) (fuel : nat) :
  forall n m,
  n <= m < n + Z.of_nat fuel -> lt_pow10 k m = true ->
  let r := find_exponent fuel k n in
  lt_pow10 k r = true /\ n <= r <= m /\ (n < r -> lt_pow10 k (r - 1) = false).
Proof.
  induction fuel as [|f IH]; intros n m Hm Ht; cbv zeta; [lia|].
  cbn [find_exponent]. destruct (lt_pow10 k n) eqn:E.
  - repeat split; try lia. exact E.
  - assert (m <> n) by congruence.
    destruct (IH (n + 1) m ltac:(lia) Ht) as (R1 & R2 & R3). cbv zeta in *.
    repeat split; try lia; try assumption.
    intros _. destruct (Z.eq_dec (find_exponent f k (n + 1)) (n + 1)) as [-> | N].
    + replace (n + 1 - 1) with n by lia. exact E.
    + apply R3. lia.
Qed.

Lemma threshold_decimal : overflow_threshold * 5 ^ 1074 < 10 ^ (309 + 1074).
Proof.
  unfold overflow_threshold. change (2 ^ 2098) with (2 ^ 1024 * 2 ^ 1074).
  rewrite Z.pow_add_r, pow10_split by lia.
  replace (2 ^ 1024 * 2 ^ 1074 * 5 ^ 1074) with (2 ^ 1024 * (2 ^ 1074 * 5 ^ 1074)) by ring.
  apply Z.mul_lt_mono_pos_r.
  - apply Z.mul_pos_pos; [apply pow2_pos; lia | apply pow5_pos].
  - reflexivity.
Qed.

Lemma decimal_exponent_spec (k : Z) :
  0 < k < overflow_threshold ->
  let n0 := decimal_exponent k in
  -324 <= n0 <= 309 /\ 10 ^ (n0 + 1073) <= k * 5 ^ 1074 < 10 ^ (n0 + 1074).
Proof.
  intros Hk. cbv zeta. unfold decimal_exponent. cbv zeta.
  set (guess := (Z.log2 k - 1074) * 30103 / 100000 - 1).
  pose proof pow5_pos as P5.
  assert (-325 <= guess) as G.
  { unfold guess. pose proof (Z.log2_nonneg k).
    assert (-324 <= (Z.log2 k - 1074) * 30103 / 100000); [|lia].
    change (-324) with ((-1074 * 30103) / 100000).
    apply Z.div_le_mono; lia. }
  assert (U : k * 5 ^ 1074 < 10 ^ (309 + 1074)).
  { apply Z.lt_trans with (overflow_threshold * 5 ^ 1074); [|apply threshold_decimal].
    apply Z.mul_lt_mono_pos_r; lia. }
  assert (T309 : lt_pow10 k 309 = true) by (apply lt_pow10_iff; lia).
  set (start := if lt_pow10 k guess then -323 else guess + 1).
  assert (-324 <= start <= 309 /\ lt_pow10 k (start - 1) = false) as (S1 & S2).
  { unfold start. destruct (lt_pow10 k guess) eqn:E.
    - split; [lia|]. change (-323 - 1) with (-324).
      destruct (lt_pow10 k (-324)) eqn:E'; [|reflexivity].
      apply lt_pow10_iff in E'; lia.
    - replace (guess + 1 - 1) with guess by lia. split; [|exact E].
      split; [lia|].
      destruct (Z_le_gt_dec (guess + 1) 309) as [|Hgt]; [assumption|exfalso].
      assert (lt_pow10 k guess = true); [|congruence].
      apply lt_pow10_iff; try lia.
      apply Z.lt_le_trans with (10 ^ (309 + 1074)); [exact U|].
      apply Z.pow_le_mono_r; lia. }
  destruct (find_exponent_spec k 640 start 309) as (R1 & R2 & R3); [lia | exact T309|].
  cbv zeta in *. set (r := find_exponent 640 k start) in *.
  assert (lt_pow10 k (r - 1) = false) as Prev.
  { destruct (Z.eq_dec r start) as [-> | N]; [exact S2 | apply R3; lia]. }
  split; [lia|].
  apply lt_pow10_iff in R1; try lia.
  split; [|exact R1].
  destruct (Z_le_gt_dec (10 ^ (r + 1073)) (k * 5 ^ 1074)) as [|Hgt]; [assumption|exfalso].
  assert (lt_pow10 k (r - 1) = true); [|congruence].
  apply lt_pow10_iff; try lia.
  replace (r - 1 + 1074) with (r + 1073) by lia. lia.
Qed.

Lemma floor_scaled_exact (k : Z) : floor_scaled k (-1074) = k * 5 ^ 1074.
Proof.
  unfold floor_scaled. change (0 <=? -1074) with false. cbv iota.
  change (- -1074) with 1074. rewrite pow10_split.
  replace (k * (2 ^ 1074 * 5 ^ 1074)) with (k * 5 ^ 1074 * 2 ^ 1074) by ring.
  apply Z.div_mul. pose proof (pow2_pos 1074). lia.
Qed.

Lemma decimal_to_number_exact (k : Z) :
  0 < k -> representable k -> decimal_to_number false (k * 5 ^ 1074) (-1074) = Finite false k.
Proof.
  intros Hk Hr. unfold decimal_to_number.
  pose proof pow5_pos as P5.
  destruct (Z.eqb_spec (k * 5 ^ 1074) 0); [nia|].
  change (400 <? -1074) with false. cbv iota.
  change (3 * (- -1074 - 400)) with 2022.
  assert (2493 <= Z.log2 (k * 5 ^ 1074)) as L.
  { change 2493 with (Z.log2 (5 ^ 1074)). apply Z.log2_le_mono. nia. }
  destruct (Z.ltb_spec (Z.log2 (k * 5 ^ 1074) + 1) 2022); [lia|].
  change (0 <=? -1074) with false. cbv iota.
  change (- -1074) with 1074.
  replace (k * 5 ^ 1074 * 2 ^ 1074) with (k * 10 ^ 1074) by (rewrite pow10_split; ring).
  apply round_ratio_exact; [lia | apply pow10_pos; lia | exact Hr].
Qed.

Lemma shortest_from_complete (k n0 target : Z) (fuel : nat) :
  let lo := floor_scaled k (n0 - target) in
  (10 ^ (target - 1) <=? lo) && candidate_ok k lo n0 = true ->
  forall len, len <= target < len + Z.of_nat fuel ->
  shortest_from fuel k n0 len <> None.
Proof.
  cbv zeta. intros Hok. induction fuel as [|f IH]; intros len Hlen; [lia|].
  cbn [shortest_from]. cbv zeta.
  destruct ((10 ^ (len - 1) <=? floor_scaled k (n0 - len))
            && candidate_ok k (floor_scaled k (n0 - len)) n0) eqn:Lo.
  - destruct (candidate_ok k (fst _) (snd _)); cbv iota; [|discriminate].
    destruct (compare_midpoint _ _ _); [destruct (Z.even _)| |]; discriminate.
  - destruct (candidate_ok k (fst _) (snd _)); cbv iota; [discriminate|].
    apply IH.
    assert (len <> target) by (intros ->; congruence). lia.
Qed.

(** Every binary64 value has a decimal text: the search of Number::toString
    succeeds. *)
Lemma shortest_exists (k : Z) : 0 < k -> representable k -> shortest k <> None.
Proof.
  intros Hk Hr.
  assert (k < overflow_threshold) as Hlt by (destruct Hr as (m & F & _ & _ & _ & H); exact H).
  destruct (decimal_exponent_spec k ltac:(lia)) as (B & L & U). cbv zeta in *.
  set (n0 := decimal_exponent k) in *.
  rewrite shortest_unfold. fold n0.
  apply (shortest_from_complete k n0 (n0 + 1074)).
  - cbv zeta. replace (n0 - (n0 + 1074)) with (-1074) by lia.
    rewrite floor_scaled_exact.
    replace (n0 + 1074 - 1) with (n0 + 1073) by lia.
    apply andb_true_iff. split; [apply Z.leb_le; exact L|].
    unfold candidate_ok.
    rewrite (decimal_digits_length (k * 5 ^ 1074) (n0 + 1074)).
    + replace (n0 - (n0 + 1074)) with (-1074) by lia.
      rewrite decimal_to_number_exact by assumption.
      apply number_eqb_eq. reflexivity.
    + replace (n0 + 1074 - 1) with (n0 + 1073) by lia. lia.
    + lia.
  - change (Z.of_nat 1400) with 1400. lia.
Qed.

End ShortestExists.

Module ObjectFacts.

Import Num NumText Str JSON Properties StringFacts.

Lemma array_index_text (key : jsstring) (i : Z) :
  array_index key = Some i -> key = digit_chars (decimal_digits i).
Proof.
  unfold array_index. destruct key as [|c key]; [discriminate|].
  destruct (forallb is_digit (c :: key)); [|discriminate].
  destruct (Str.eqb _ _ && _) eqn:E; [|discriminate].
  intros [= <-]. apply andb_true_iff in E as [E _]. apply eqb_eq in E. now symmetry.
Qed.

Lemma array_index_inj (key key' : jsstring) (i : Z) :
  array_index key = Some i -> array_index key' = Some i -> key = key'.
Proof. intros H H'. apply array_index_text in H, H'. congruence. Qed.

Lemma key_before_irrefl (key : jsstring) : ~ key_before key key.
Proof. unfold key_before. destruct (array_index key); [lia | congruence]. Qed.

Lemma key_before_neq (key key' : jsstring) : key_before key key' -> key <> key'.
Proof. intros H ->. exact (key_before_irrefl _ H). Qed.

Lemma key_before_trans (a b c : jsstring) :
  key_before a b -> key_before b c -> a <> c -> key_before a c.
Proof.
  unfold key_before.
  destruct (array_index a), (array_index b), (array_index c); try tauto; try lia.
Qed.

Lemma has_key_false (key : jsstring) (members : list (jsstring * value)) :
  has_key key members = false <-> Forall (fun m => fst m <> key) members.
Proof.
  induction members as [|[k v] rest IH]; simpl.
  - split; [constructor | reflexivity].
  - rewrite orb_false_iff, IH, eqb_neq. split.
    + intros [H1 H2]. now constructor.
    + intros H. inversion H; subst. now split.
Qed.

Lemma ordered_app (a b : list (jsstring * value)) :
  ordered (a ++ b) <->
  ordered a /\ ordered b /\
  Forall (fun x => Forall (fun y => key_before (fst x) (fst y)) b) a.
Proof.
  induction a as [|[k v] a IH]; simpl.
  - split; [intros H; repeat split; [assumption | constructor] | tauto].
  - rewrite IH, Forall_app. split.
    + intros ((H1 & H2) & H3 & H4 & H5). repeat split; try assumption.
      constructor; assumption.
    + intros ((H1 & H2) & H3 & H4). inversion H4; subst. simpl in *. tauto.
Qed.

Lemma set_member_absent (key : jsstring) (v : value) (members : list (jsstring * value)) :
  has_key key members = false -> set_member key v members = members.
Proof.
  induction members as [|[k w] rest IH]; simpl; [reflexivity|].
  intros H. apply orb_false_iff in H as [H1 H2]. rewrite H1. now rewrite IH.
Qed.

Lemma insert_index_last (i : Z) (key : jsstring) (v : value)
  (members : list (jsstring * value)) :
  Forall (fun m => match array_index (fst m) with Some j => j < i | None => False end) members ->
  insert_index i key v members = members ++ [(key, v)].
Proof.
  induction 1 as [|[k w] rest H _ IH]; simpl; [reflexivity|].
  simpl in H. destruct (array_index k) as [j|]; [|contradiction].
  destruct (Z.ltb_spec j i); [|lia]. now rewrite IH.
Qed.

(** Defining, one after the other, the members of an object that is in
    property order rebuilds it. *)
Lemma define_property_last (key : jsstring) (v : value) (members : list (jsstring * value)) :
  ordered (members ++ [(key, v)]) ->
  define_property key v members = members ++ [(key, v)].
Proof.
  intros H. apply ordered_app in H as (_ & _ & H).
  assert (Forall (fun m => key_before (fst m) key) members) as B.
  { eapply Forall_impl; [|exact H]. intros m Hm. now inversion Hm. }
  unfold define_property.
  assert (has_key key members = false) as ->.
  { apply has_key_false. eapply Forall_impl; [|exact B]. intros m. apply key_before_neq. }
  destruct (array_index key) as [i|] eqn:E; [|reflexivity].
  apply insert_index_last. eapply Forall_impl; [|exact B].
  intros m. unfold key_before. rewrite E. destruct (array_index (fst m)); tauto.
Qed.

Lemma set_member_keys (key : jsstring) (v : value) (members : list (jsstring * value)) :
  map fst (set_member key v members) = map fst members.
Proof.
  induction members as [|[k w] rest IH]; simpl; [reflexivity|].
  destruct (Str.eqb k key); simpl; [reflexivity | now rewrite IH].
Qed.

Lemma ordered_keys (a b : list (jsstring * value)) :
  map fst a = map fst b -> ordered a -> ordered b.
Proof.
  revert b. induction a as [|[k v] a IH]; intros [|[k' v'] b]; simpl; try discriminate; auto.
  intros [= -> E] [H1 H2]. split; [|now apply IH].
  clear - E H1. revert b E. induction H1 as [|m a Hm _ IH]; intros [|m' b]; simpl;
    try discriminate; constructor.
  - injection E as E _. now rewrite <- E.
  - injection E as _ E. now apply IH.
Qed.

Lemma insert_index_ordered (i : Z) (key : jsstring) (v : value)
  (members : list (jsstring * value)) :
  array_index key = Some i -> has_key key members = false ->
  ordered members -> ordered (insert_index i key v members) /\
  forall k0, Forall (fun m => key_before k0 (fst m)) members -> key_before k0 key ->
             Forall (fun m => key_before k0 (fst m)) (insert_index i key v members).
Proof.
  intros Hi. induction members as [|[k w] rest IH]; intros Hk Ho.
  - simpl. split; [split; [constructor | exact I]|]. intros k0 _ H. now constructor.
  - simpl in Hk. apply orb_false_iff in Hk as [Hk1 Hk2]. apply eqb_neq in Hk1.
    destruct Ho as [Ho1 Ho2].
    assert (key_before key k ->
            ordered ((key, v) :: (k, w) :: rest) /\
            forall k0, Forall (fun m => key_before k0 (fst m)) ((k, w) :: rest) ->
                       key_before k0 key ->
                       Forall (fun m => key_before k0 (fst m)) ((key, v) :: (k, w) :: rest)) as Front.
    { intros B. split.
      - simpl. split; [|split; assumption]. constructor; [exact B|].
        apply has_key_false in Hk2.
        rewrite Forall_forall in *. intros m Hm. simpl.
        apply key_before_trans with k; [exact B | now apply Ho1 |].
        intros ->. now apply (Hk2 m Hm).
      - intros k0 H0 Hb. now constructor. }
    cbn [insert_index]. destruct (array_index k) as [j|] eqn:Ej.
    + destruct (Z.ltb_spec j i).
      * destruct (IH Hk2 Ho2) as [I1 I2]. split.
        -- simpl. split; [|exact I1]. apply I2; [exact Ho1|].
           unfold key_before. now rewrite Ej, Hi.
        -- intros k0 H0 Hb. inversion H0; subst. constructor; [assumption|].
           now apply I2.
      * apply Front. unfold key_before. rewrite Hi, Ej.
        assert (i <> j); [|lia]. intros ->. apply Hk1. eapply array_index_inj; eauto.
    + apply Front. unfold key_before. now rewrite Hi, Ej.
Qed.

Lemma define_property_ordered (key : jsstring) (v : value) (members : list (jsstring * value)) :
  ordered members -> ordered (define_property key v members).
Proof.
  intros Ho. unfold define_property. destruct (has_key key members) eqn:Hk.
  - eapply ordered_keys; [|exact Ho]. symmetry. apply set_member_keys.
  - destruct (array_index key) as [i|] eqn:Ei.
    + now apply insert_index_ordered.
    + apply ordered_app. split; [exact Ho|]. split; [simpl; split; [constructor | exact I]|].
      apply has_key_false in Hk. eapply Forall_impl; [|exact Hk].
      intros m Hm. constructor; [|constructor]. simpl. unfold key_before. rewrite Ei.
      destruct (array_index (fst m)); [exact I | exact Hm].
Qed.

Lemma define_property_values (P : value -> Prop) (key : jsstring) (v : value)
  (members : list (jsstring * value)) :
  P v -> Forall (fun m => P (snd m)) members ->
  Forall (fun m => P (snd m)) (define_property key v members).
Proof.
  intros Hv Hm. unfold define_property. destruct (has_key key members).
  - induction Hm as [|[k w] rest H Hr IH]; simpl; [constructor|].
    destruct (Str.eqb k key); constructor; simpl in *; assumption.
  - destruct (array_index key) as [i|].
    + induction Hm as [|[k w] rest H Hr IH]; simpl; [now constructor|].
      destruct (array_index k) as [j|]; [destruct (j <? i)|]; repeat constructor;
        simpl in *; assumption.
    + apply Forall_app. split; [assumption | now constructor].
Qed.

End ObjectFacts.

Module RoundTrip.

Import Num NumText Str JSON Properties NumFacts StringFacts DigitFacts NumberTextFacts ShortestFacts ShortestExists ObjectFacts Notions.

Lemma value_end_number_end (s : jsstring) : value_end s -> number_end s.
Proof. destruct s as [|c s]; [trivial|]. intros [-> | ->]; repeat split; discriminate. Qed.

Lemma skip_ws_app (ws s : jsstring) : all_space ws -> skip_ws (ws ++ s) = skip_ws s.
Proof. induction 1 as [|c ws Hc _ IH]; simpl; [reflexivity|]. now rewrite Hc. Qed.

Lemma parse_value_skip (fuel : nat) (ws s : jsstring) :
  all_space ws -> parse_value fuel (ws ++ s) = parse_value fuel s.
Proof. intros H. destruct fuel; [reflexivity|]. cbn [parse_value]. now rewrite skip_ws_app. Qed.

Lemma next_is_skip (c : N) (ws s : jsstring) :
  all_space ws -> next_is c (ws ++ s) = next_is c s.
Proof. intros H. unfold next_is. now rewrite skip_ws_app. Qed.

Lemma next_is_here (c : N) (s : jsstring) :
  is_json_space c = false -> next_is c (c :: s) = Some s.
Proof. intros H. unfold next_is. cbn [skip_ws]. now rewrite H, N.eqb_refl. Qed.

Lemma next_is_other (c c' : N) (s : jsstring) :
  is_json_space c' = false -> c' <> c -> next_is c (c' :: s) = None.
Proof.
  intros H N. unfold next_is. cbn [skip_ws]. rewrite H.
  now destruct (N.eqb_spec c' c).
Qed.

Lemma all_space_indent (indent : jsstring) : all_space indent -> all_space (indent ++ gap2).
Proof. intros H. apply Forall_app. split; [exact H|]. repeat constructor. Qed.

Lemma all_space_LF (ws : jsstring) : all_space ws -> all_space (10%N :: ws).
Proof. intros H. constructor; [reflexivity | exact H]. Qed.

(** *** Numbers *)

Lemma parse_number_text (x : number) (rest : jsstring) :
  is_Number x -> written_exactly x = true -> number_end rest ->
  parse_number (Number_toString x ++ rest) = Some (x, rest).
Proof.
  destruct x as [| s | s k]; try discriminate.
  intros [Hk Hr] Hw He.
  destruct (Z.eq_dec k 0) as [-> | N].
  - destruct s; [discriminate|]. now apply parse_zero.
  - apply parse_Number_toString; [lia | apply shortest_exists; [lia | exact Hr] | exact He].
Qed.

Lemma number_text_head (x : number) :
  is_Number x -> written_exactly x = true ->
  exists c t, Number_toString x = c :: t /\ (c = 45%N \/ is_digit c = true).
Proof.
  intros Hn Hw. pose proof (parse_number_text x [] Hn Hw I) as P.
  rewrite app_nil_r in P.
  destruct (Number_toString x) as [|c t]; [discriminate P|].
  exists c, t. split; [reflexivity|].
  destruct (N.eqb_spec c 45) as [|N45]; [now left | right].
  destruct (is_digit c) eqn:D; [reflexivity|exfalso].
  unfold parse_number in P. destruct (N.eqb_spec c 45); [contradiction|].
  cbn [take_digits] in P. rewrite D in P. discriminate P.
Qed.

Lemma is_digit_range (c : N) : is_digit c = true -> (48 <= c <= 57)%N.
Proof.
  unfold is_digit. intros H. apply andb_true_iff in H as [H1 H2].
  apply N.leb_le in H1, H2. lia.
Qed.

Lemma head_not_space (c : N) : c = 45%N \/ is_digit c = true -> is_json_space c = false.
Proof.
  intros [-> | H]; [reflexivity|]. apply is_digit_range in H. unfold is_json_space.
  destruct (N.eqb_spec c 9), (N.eqb_spec c 10), (N.eqb_spec c 13), (N.eqb_spec c 32);
    try lia; reflexivity.
Qed.

Lemma parse_value_number (fuel : nat) (c : N) (t : jsstring) :
  c = 45%N \/ is_digit c = true ->
  parse_value (S fuel) (c :: t) =
  match parse_number (c :: t) with
  | Some (n, rest) => Some (Number n, rest)
  | None => None
  end.
Proof.
  intros H. cbn [parse_value skip_ws]. rewrite (head_not_space c H).
  assert ((c = 45 \/ 48 <= c <= 57)%N) as R.
  { destruct H as [-> | H]; [now left | right; now apply is_digit_range]. }
  destruct (N.eqb_spec c 123); [lia|]. destruct (N.eqb_spec c 91); [lia|].
  destruct (N.eqb_spec c 34); [lia|].
  unfold parse_literal.
  assert (forall p q, (c <> p)%N -> startsWith (c :: t) (p :: q) = false) as NS.
  { intros p q Hp. cbn [startsWith]. now destruct (N.eqb_spec c p). }
  change (str "true") with (116%N :: str "rue").
  change (str "false") with (102%N :: str "alse").
  change (str "null") with (110%N :: str "ull").
  rewrite !NS by lia. reflexivity.
Qed.

(** *** The shape of the text *)

Lemma wrap_gap2 (indent : jsstring) (open close : N) (partial : list jsstring) :
  wrap gap2 indent open close partial =
  open :: 10%N :: (indent ++ gap2)
    ++ join (44%N :: 10%N :: indent ++ gap2) partial ++ 10%N :: indent ++ [close].
Proof. reflexivity. Qed.

Lemma serialize_array (indent : jsstring) (e : value) (l : list value) :
  SerializeJSONProperty gap2 indent (Array (e :: l)) =
  wrap gap2 indent 91 93 (map (SerializeJSONProperty gap2 (indent ++ gap2)) (e :: l)).
Proof. reflexivity. Qed.

Lemma serialize_object (indent : jsstring) (m : jsstring * value)
  (l : list (jsstring * value)) :
  SerializeJSONProperty gap2 indent (Object (m :: l)) =
  wrap gap2 indent 123 125 (map (member_text (indent ++ gap2)) (m :: l)).
Proof. reflexivity. Qed.

Lemma array_text (indent rest : jsstring) (e : value) (l : list value) :
  SerializeJSONProperty gap2 indent (Array (e :: l)) ++ rest =
  91%N :: 10%N :: (indent ++ gap2)
    ++ join (44%N :: 10%N :: indent ++ gap2)
         (map (SerializeJSONProperty gap2 (indent ++ gap2)) (e :: l))
    ++ 10%N :: indent ++ 93%N :: rest.
Proof.
  rewrite serialize_array, wrap_gap2. cbn [app]. do 2 f_equal.
  rewrite <- !app_assoc. do 3 f_equal. cbn [app]. f_equal.
  now rewrite <- app_assoc.
Qed.

Lemma object_text (indent rest : jsstring) (m : jsstring * value)
  (l : list (jsstring * value)) :
  SerializeJSONProperty gap2 indent (Object (m :: l)) ++ rest =
  123%N :: 10%N :: (indent ++ gap2)
    ++ join (44%N :: 10%N :: indent ++ gap2) (map (member_text (indent ++ gap2)) (m :: l))
    ++ 10%N :: indent ++ 125%N :: rest.
Proof.
  rewrite serialize_object, wrap_gap2. cbn [app]. do 2 f_equal.
  rewrite <- !app_assoc. do 3 f_equal. cbn [app]. f_equal.
  now rewrite <- app_assoc.
Qed.

Lemma serialize_starts (indent : jsstring) (v : value) :
  well_formed v -> numbers_written_exactly v ->
  starts_value (SerializeJSONProperty gap2 indent v).
Proof.
  intros Hwf Hnw. unfold starts_value. destruct v as [| [|] | n | s | [|e l] | [|m l]];
    try (eexists; eexists; split; [reflexivity|]; repeat split; discriminate).
  inversion Hwf; subst. inversion Hnw; subst.
  cbn [SerializeJSONProperty].
  destruct n as [| s | s k]; try discriminate. cbn [is_finite].
  destruct (number_text_head (Finite s k)) as (c & t & E & Hc); try assumption.
  exists c, t. split; [exact E|]. split; [now apply head_not_space|].
  destruct Hc as [-> | Hc]; [split; discriminate|]. apply is_digit_range in Hc. lia.
Qed.

(** *** Values *)

Lemma parse_elements_serialized (indent rest : jsstring) (l : list value) :
  all_space indent -> l <> [] -> Forall reads_back l ->
  forall seen fuel, (elements_weight l <= fuel)%nat ->
  parse_elements fuel
    (10%N :: (indent ++ gap2)
       ++ join (44%N :: 10%N :: indent ++ gap2)
            (map (SerializeJSONProperty gap2 (indent ++ gap2)) l)
       ++ 10%N :: indent ++ 93%N :: rest) seen
  = Some (Array (rev seen ++ l), rest).
Proof.
  intros Hi NE H. induction H as [|e l He Hl IH]; [contradiction|].
  intros seen fuel Hf. cbn [elements_weight fold_right] in Hf. fold (elements_weight l) in Hf.
  destruct fuel as [|f]; [lia|]. cbn [parse_elements].
  pose proof (all_space_indent _ Hi) as Hi'.
  change (10%N :: (indent ++ gap2) ++ ?x) with ((10%N :: indent ++ gap2) ++ x).
  rewrite parse_value_skip by (now apply all_space_LF).
  destruct l as [|e2 l'].
  - (* the last element *)
    cbn [map join]. rewrite (He (indent ++ gap2) (10%N :: indent ++ 93%N :: rest) f);
      [| assumption | now right | lia].
    change (10%N :: indent ++ 93%N :: rest) with ((10%N :: indent) ++ 93%N :: rest).
    rewrite !next_is_skip by (now apply all_space_LF).
    rewrite next_is_other by (reflexivity || discriminate).
    rewrite next_is_here by reflexivity.
    cbn [rev]. reflexivity.
  - cbn [map]. change (join ?sep (?p :: ?q :: ?r)) with (p ++ sep ++ join sep (q :: r)).
    rewrite <- !app_assoc.
    rewrite (He (indent ++ gap2)); [| assumption | now left | lia].
    cbn [app]. rewrite next_is_here by reflexivity.
    cbn [elements_weight fold_right] in Hf.
    specialize (IH ltac:(discriminate) (e :: seen) f).
    cbn [map] in IH. rewrite IH by (cbn [elements_weight fold_right]; lia).
    cbn [rev]. now rewrite <- app_assoc.
Qed.

Lemma parse_members_serialized (indent rest : jsstring) (l : list (jsstring * value)) :
  all_space indent -> l <> [] -> Forall (fun m => reads_back (snd m)) l ->
  forall object fuel, ordered (object ++ l) -> (members_weight l <= fuel)%nat ->
  parse_members fuel
    (10%N :: (indent ++ gap2)
       ++ join (44%N :: 10%N :: indent ++ gap2) (map (member_text (indent ++ gap2)) l)
       ++ 10%N :: indent ++ 125%N :: rest) object
  = Some (Object (object ++ l), rest).
Proof.
  intros Hi NE H. induction H as [|[k v] l Hv Hl IH]; [contradiction|].
  intros object fuel Ho Hf. cbn [members_weight fold_right snd] in Hf.
  fold (members_weight l) in Hf.
  destruct fuel as [|f]; [lia|]. cbn [parse_members].
  pose proof (all_space_indent _ Hi) as Hi'.
  assert (define_property k v object = object ++ [(k, v)]) as D.
  { apply define_property_last.
    change ((k, v) :: l) with ([(k, v)] ++ l) in Ho. rewrite app_assoc in Ho.
    apply ordered_app in Ho. tauto. }
  change (10%N :: (indent ++ gap2) ++ ?x) with ((10%N :: indent ++ gap2) ++ x).
  rewrite next_is_skip by (now apply all_space_LF).
  simpl snd in Hv.
  destruct l as [|m2 l'].
  - cbn [map join]. unfold member_text at 1. cbn [fst snd]. unfold QuoteJSONString.
    cbn [app]. rewrite next_is_here by reflexivity.
    rewrite <- !app_assoc. cbn [app]. rewrite parse_quote_chars.
    rewrite next_is_here by reflexivity.
    change (32%N :: ?x) with ([32%N] ++ x).
    rewrite parse_value_skip by (repeat constructor).
    rewrite (Hv (indent ++ gap2) (10%N :: indent ++ 125%N :: rest) f);
      [| assumption | now right | lia].
    change (10%N :: indent ++ 125%N :: rest) with ((10%N :: indent) ++ 125%N :: rest).
    rewrite !next_is_skip by (now apply all_space_LF).
    rewrite next_is_other by (reflexivity || discriminate).
    rewrite next_is_here by reflexivity.
    now rewrite D.
  - cbn [map]. change (join ?sep (?p :: ?q :: ?r)) with (p ++ sep ++ join sep (q :: r)).
    unfold member_text at 1. cbn [fst snd]. unfold QuoteJSONString.
    cbn [app]. rewrite next_is_here by reflexivity.
    rewrite <- !app_assoc. cbn [app]. rewrite parse_quote_chars.
    rewrite next_is_here by reflexivity.
    change (32%N :: ?x) with ([32%N] ++ x).
    rewrite parse_value_skip by (repeat constructor).
    rewrite <- !app_assoc.
    rewrite (Hv (indent ++ gap2)); [| assumption | now left | lia].
    cbn [app]. rewrite next_is_here by reflexivity.
    cbn [members_weight fold_right] in Hf.
    specialize (IH ltac:(discriminate) (object ++ [(k, v)]) f).
    cbn [map] in IH. rewrite <- (app_assoc indent gap2) in IH. rewrite D, IH.
    + now rewrite <- app_assoc.
    + now rewrite <- app_assoc.
    + cbn [members_weight fold_right]. lia.
Qed.

Lemma Forall_and_inv {A} (P Q R : A -> Prop) (l : list A) :
  Forall (fun x => P x -> Q x -> R x) l -> Forall P l -> Forall Q l -> Forall R l.
Proof.
  induction 1; intros HP HQ; inversion HP; inversion HQ; subst; constructor; auto.
Qed.

Theorem parse_serialized (v : value) :
  well_formed v -> numbers_written_exactly v -> reads_back v.
Proof.
  induction v as [| b | n | s | l IH | l IH] using value_ind; intros Hwf Hnw indent rest fuel Hi Hr Hf;
    (destruct fuel as [|f]; [simpl in Hf; lia|]).
  - reflexivity.
  - destruct b; reflexivity.
  - inversion Hwf; subst. inversion Hnw; subst.
    pose proof (parse_number_text n rest H0 H1 (value_end_number_end _ Hr)) as P.
    destruct (number_text_head n H0 H1) as (c & t & E & Hc).
    cbn [SerializeJSONProperty].
    assert (is_finite n = true) as -> by (destruct n; try discriminate; reflexivity).
    rewrite E in *. cbn [app] in *. rewrite parse_value_number by assumption.
    now rewrite P.
  - cbn [SerializeJSONProperty]. unfold QuoteJSONString. cbn [app]. rewrite <- app_assoc.
    cbn [app parse_value skip_ws is_json_space N.eqb Pos.eqb orb].
    now rewrite parse_quote_chars.
  - destruct l as [|e l]; [reflexivity|].
    inversion Hwf as [| | | | ? Hwl |]; subst. inversion Hnw as [| | | | ? Hnl |]; subst.
    pose proof (Forall_and_inv _ _ _ _ IH Hwl Hnl) as Hrb.
    rewrite array_text.
    cbn [parse_value skip_ws is_json_space N.eqb Pos.eqb orb].
    inversion Hwl; subst. inversion Hnl; subst.
    destruct (serialize_starts (indent ++ gap2) e) as (c & t & E & Hc1 & Hc2 & Hc3);
      try assumption.
    assert (next_is 93
              (10%N :: (indent ++ gap2)
                 ++ join (44%N :: 10%N :: indent ++ gap2)
                      (map (SerializeJSONProperty gap2 (indent ++ gap2)) (e :: l))
                 ++ 10%N :: indent ++ 93%N :: rest) = None) as ->.
    { change (10%N :: (indent ++ gap2) ++ ?x) with ((10%N :: indent ++ gap2) ++ x).
      rewrite next_is_skip by (apply all_space_LF, all_space_indent, Hi).
      cbn [map]. destruct l; cbn [join map]; rewrite E; cbn [app];
        now apply next_is_other. }
    rewrite (parse_elements_serialized indent rest (e :: l)); try assumption.
    + reflexivity.
    + discriminate.
    + change (weight (Array (e :: l))) with (S (elements_weight (e :: l))) in Hf. lia.
  - destruct l as [|m l]; [reflexivity|].
    inversion Hwf as [| | | | | ? Ho Hwl]; subst. inversion Hnw as [| | | | | ? Hnl]; subst.
    pose proof (Forall_and_inv (fun m => well_formed (snd m))
                  (fun m => numbers_written_exactly (snd m))
                  (fun m => reads_back (snd m)) _ IH Hwl Hnl) as Hrb.
    rewrite object_text.
    cbn [parse_value skip_ws is_json_space N.eqb Pos.eqb orb].
    assert (next_is 125
              (10%N :: (indent ++ gap2)
                 ++ join (44%N :: 10%N :: indent ++ gap2)
                      (map (member_text (indent ++ gap2)) (m :: l))
                 ++ 10%N :: indent ++ 125%N :: rest) = None) as ->.
    { change (10%N :: (indent ++ gap2) ++ ?x) with ((10%N :: indent ++ gap2) ++ x).
      rewrite next_is_skip by (apply all_space_LF, all_space_indent, Hi).
      cbn [map]. destruct l; cbn [join map]; unfold member_text at 1, QuoteJSONString;
        cbn [app]; now apply next_is_other. }
    rewrite (parse_members_serialized indent rest (m :: l)); try assumption.
    + reflexivity.
    + discriminate.
    + change (weight (Object (m :: l))) with (S (members_weight (m :: l))) in Hf. lia.
Qed.

End RoundTrip.

Module ParseFacts.

Import Num NumText Str JSON Properties NumFacts StringFacts DigitFacts NumberTextFacts ShortestFacts ShortestExists ObjectFacts RoundTrip Notions.

#[local] Arguments Z.pow : simpl never.
#[local] Arguments Z.mul : simpl never.

(** *** The values of JSON.parse are well formed *)

Lemma round_ratio_is_Number (neg : bool) (a b : Z) :
  0 <= a -> 0 < b -> is_Number (round_ratio neg a b).
Proof.
  intros Ha Hb. unfold round_ratio.
  destruct (Z.eqb_spec a 0) as [-> | N].
  - split; [lia|]. exists 0, 0. repeat split; try lia.
  - fold (rounded a b).
    destruct (Z.ltb_spec (rounded a b) overflow_threshold) as [Hlt | Hge]; [|exact I].
    split; [apply rounded_nonneg; lia|].
    destruct (rounded_representable a b) as (m & F & Hm & HF & E); try lia.
    exists m, F. repeat split; try lia.
Qed.

Lemma digits_value_nonneg (ds : list N) : 0 <= digits_value ds.
Proof.
  unfold digits_value.
  enough (forall acc, 0 <= acc -> 0 <= fold_left (fun a d => 10 * a + Z.of_N d) ds acc) as A
    by (apply A; lia).
  induction ds as [|d ds IH]; intros acc Hacc; simpl; [assumption|].
  apply IH. lia.
Qed.

Lemma decimal_to_number_is_Number (neg : bool) (D X : Z) :
  0 <= D -> is_Number (decimal_to_number neg D X).
Proof.
  intros HD. unfold decimal_to_number.
  assert (is_Number (Finite neg 0)) as Z0.
  { split; [lia|]. exists 0, 0. repeat split; try lia. }
  destruct (D =? 0); [exact Z0|]. destruct (400 <? X); [exact I|].
  destruct (_ <? _); [exact Z0|].
  destruct (Z.leb_spec 0 X).
  - apply round_ratio_is_Number; [|lia].
    pose proof (pow10_pos X ltac:(lia)). pose proof (pow2_pos 1074 ltac:(lia)). nia.
  - apply round_ratio_is_Number; [|apply pow10_pos; lia].
    pose proof (pow2_pos 1074 ltac:(lia)). nia.
Qed.

Lemma parse_number_is_Number (s rest : jsstring) (n : number) :
  parse_number s = Some (n, rest) -> is_Number n.
Proof.
  unfold parse_number.
  destruct (match s with
            | c :: t => if N.eqb c 45 then (true, t) else (false, s)
            | [] => (false, s)
            end) as [neg s1].
  destruct (take_digits s1) as [[|d int] s2]; [discriminate|].
  assert (forall frac e s4,
            Some (decimal_to_number neg (digits_value ((d :: int) ++ frac))
                    (e - Z.of_nat (length frac)), s4) = Some (n, rest) -> is_Number n) as K.
  { intros frac e s4 H. injection H as <- _.
    apply decimal_to_number_is_Number, digits_value_nonneg. }
  destruct d as [|p]; [destruct int|]; try discriminate;
    (destruct (parse_fraction s2) as [[frac s3]|]; [|discriminate];
     destruct (parse_exponent s3) as [[e s4]|]; [|discriminate]; apply K).
Qed.

Lemma parse_literal_well_formed (s rest : jsstring) (v : value) :
  parse_literal s = Some (v, rest) -> well_formed v.
Proof.
  unfold parse_literal.
  destruct (startsWith s (str "true")); [intros [= <- _]; constructor|].
  destruct (startsWith s (str "false")); [intros [= <- _]; constructor|].
  destruct (startsWith s (str "null")); [intros [= <- _]; constructor|].
  destruct (parse_number s) as [[n r]|] eqn:E; [|discriminate].
  intros [= <- _]. constructor. eapply parse_number_is_Number; eauto.
Qed.

Lemma parse_well_formed (fuel : nat) :
  (forall s v r, parse_value fuel s = Some (v, r) -> well_formed v) /\
  (forall s seen v r, Forall well_formed seen ->
                      parse_elements fuel s seen = Some (v, r) -> well_formed v) /\
  (forall s object v r, ordered object -> Forall (fun m => well_formed (snd m)) object ->
                        parse_members fuel s object = Some (v, r) -> well_formed v).
Proof.
  induction fuel as [|f (IHv & IHe & IHm)]; [repeat split; discriminate|].
  repeat split.
  - intros s v r. cbn [parse_value].
    destruct (skip_ws s) as [|c t]; [discriminate|].
    destruct (N.eqb c 123).
    { destruct (next_is 125 t).
      - intros [= <- _]. constructor; [exact I | constructor].
      - apply IHm; [exact I | constructor]. }
    destruct (N.eqb c 91).
    { destruct (next_is 93 t).
      - intros [= <- _]. constructor. constructor.
      - apply IHe. constructor. }
    destruct (N.eqb c 34).
    { destruct (parse_chars t) as [[u r']|]; [|discriminate].
      intros [= <- _]. constructor. }
    apply parse_literal_well_formed.
  - intros s seen v r Hs. cbn [parse_elements].
    destruct (parse_value f s) as [[e r1]|] eqn:E; [|discriminate].
    apply IHv in E.
    destruct (next_is 44 r1).
    { apply IHe. now constructor. }
    destruct (next_is 93 r1); [|discriminate].
    intros [= <- _]. constructor. change (rev seen ++ [e]) with (rev (e :: seen)).
    apply Forall_rev. now constructor.
  - intros s object v r Ho Hw. cbn [parse_members].
    destruct (next_is 34 s) as [r0|]; [|discriminate].
    destruct (parse_chars r0) as [[key r1]|]; [|discriminate].
    destruct (next_is 58 r1) as [r2|]; [|discriminate].
    destruct (parse_value f r2) as [[e r3]|] eqn:E; [|discriminate].
    apply IHv in E.
    destruct (next_is 44 r3).
    { apply IHm; [now apply define_property_ordered | now apply define_property_values]. }
    destruct (next_is 125 r3); [|discriminate].
    intros [= <- _]. constructor;
      [now apply define_property_ordered | now apply define_property_values].
Qed.

Lemma JSON_parse_well_formed (text : jsstring) (v : value) :
  JSON_parse text = Some v -> well_formed v.
Proof.
  unfold JSON_parse.
  destruct (parse_value _ text) as [[w rest]|] eqn:E; [|discriminate].
  destruct (skip_ws rest); [|discriminate].
  intros [= <-]. eapply (proj1 (parse_well_formed _)); eauto.
Qed.

(** *** The fuel of JSON.parse suffices for what JSON.stringify writes *)

Lemma join_length (sep : jsstring) (parts : list jsstring) :
  (length (join sep parts) + length sep =
   fold_right (fun p n => length p + length sep + n) 0 parts + (match parts with [] => length sep | _ => 0 end))%nat.
Proof.
  induction parts as [|p [|q r] IH].
  - simpl. lia.
  - simpl. lia.
  - change (join sep (p :: q :: r)) with (p ++ sep ++ join sep (q :: r)).
    rewrite !length_app. cbn [fold_right] in *. lia.
Qed.

Lemma weight_le_length (v : value) :
  well_formed v -> numbers_written_exactly v ->
  forall indent, (weight v <= length (SerializeJSONProperty gap2 indent v))%nat.
Proof.
  induction v as [| b | n | s | l IH | l IH] using value_ind; intros Hwf Hnw indent.
  - simpl. lia.
  - destruct b; simpl; lia.
  - inversion Hwf; subst. inversion Hnw; subst.
    destruct (serialize_starts indent (Number n) Hwf Hnw) as (c & t & E & _).
    rewrite E. simpl. lia.
  - cbn [SerializeJSONProperty weight]. unfold QuoteJSONString. simpl. lia.
  - destruct l as [|e l]; [simpl; lia|].
    inversion Hwf as [| | | | ? Hwl |]; subst. inversion Hnw as [| | | | ? Hnl |]; subst.
    rewrite serialize_array, wrap_gap2.
    change (weight (Array (e :: l))) with (S (elements_weight (e :: l))).
    set (sep := 44%N :: 10%N :: indent ++ gap2).
    cbn [length]. rewrite !length_app. cbn [length].
    pose proof (join_length sep (map (SerializeJSONProperty gap2 (indent ++ gap2)) (e :: l))) as J.
    assert (elements_weight (e :: l) <=
            fold_right (fun p n => length p + length sep + n) 0
              (map (SerializeJSONProperty gap2 (indent ++ gap2)) (e :: l)))%nat as W.
    { clear J. revert IH Hwl Hnl. generalize (e :: l) as l0.
      induction 1 as [|x l0 Hx _ IHl]; intros Hwl Hnl; [simpl; lia|].
      inversion Hwl; subst. inversion Hnl; subst.
      cbn [map fold_right elements_weight]. fold (elements_weight l0).
      specialize (Hx H1 H3 (indent ++ gap2)). specialize (IHl H2 H4).
      unfold sep at 1. cbn [length]. lia. }
    assert (length sep = 4 + length indent)%nat as Ls
      by (unfold sep; cbn [length]; rewrite length_app; simpl; lia).
    cbn [map] in *. change (length gap2) with 2%nat. lia.
  - destruct l as [|m l]; [simpl; lia|].
    inversion Hwf as [| | | | | ? Ho Hwl]; subst. inversion Hnw as [| | | | | ? Hnl]; subst.
    rewrite serialize_object, wrap_gap2.
    change (weight (Object (m :: l))) with (S (members_weight (m :: l))).
    set (sep := 44%N :: 10%N :: indent ++ gap2).
    cbn [length]. rewrite !length_app. cbn [length].
    pose proof (join_length sep (map (member_text (indent ++ gap2)) (m :: l))) as J.
    assert (members_weight (m :: l) <=
            fold_right (fun p n => length p + length sep + n) 0
              (map (member_text (indent ++ gap2)) (m :: l)))%nat as W.
    { clear J Ho. revert IH Hwl Hnl. generalize (m :: l) as l0.
      induction 1 as [|x l0 Hx _ IHl]; intros Hwl Hnl; [simpl; lia|].
      inversion Hwl; subst. inversion Hnl; subst.
      cbn [map fold_right members_weight]. fold (members_weight l0).
      specialize (Hx H1 H3 (indent ++ gap2)). specialize (IHl H2 H4).
      unfold member_text at 1. rewrite !length_app. cbn [length].
      unfold sep at 1. cbn [length]. lia. }
    assert (length sep = 4 + length indent)%nat as Ls
      by (unfold sep; cbn [length]; rewrite length_app; simpl; lia).
    cbn [map] in *. change (length gap2) with 2%nat. lia.
Qed.

(** Reading back what [JSON.stringify(v, null, 2)] writes. *)
Theorem JSON_parse_stringify (v : value) :
  well_formed v -> numbers_written_exactly v ->
  JSON_parse (JSON_stringify v 2) = Some v.
Proof.
  intros Hwf Hnw. unfold JSON_parse, JSON_stringify.
  change (repeat 32%N 2) with gap2.
  pose proof (parse_serialized v Hwf Hnw [] []
                (S (length (SerializeJSONProperty gap2 [] v)))) as P.
  rewrite app_nil_r in P. rewrite P; [reflexivity | constructor | exact I |].
  pose proof (weight_le_length v Hwf Hnw []). lia.
Qed.

End ParseFacts.

Module CleanFacts.

Import Num NumText Str JSON Translate Properties StringFacts.





Lemma stream_values_app (e1 e2 : list Event) :
  stream_values (e1 ++ e2) = stream_values e1 ++ stream_values e2.
Proof.
  induction e1 as [|[p|s] e1 IH]; simpl; [reflexivity| exact IH | now rewrite IH].
Qed.

(** A line that is malformed or ends the stream adds nothing. *)
Lemma line_content_malformed (w : World) (line : jsstring) :
  malformed line = true -> line_content w line = [].
Proof.
  unfold malformed, line_content. intros H. apply andb_prop in H as [H1 H2].
  rewrite H1. destruct (Str.eqb _ _); [reflexivity|].
  destruct (JSON_parse _); [discriminate|reflexivity].
Qed.

Lemma line_content_terminal (w : World) (line : jsstring) :
  terminal line = true -> line_content w line = [].
Proof.
  unfold terminal. intros H. apply eqb_eq in H. subst line. reflexivity.
Qed.

Lemma concat_map_filter {A B : Type} (f : A -> list B) (keep : A -> bool) (l : list A) :
  (forall x, keep x = false -> f x = []) ->
  concat (map f (filter keep l)) = concat (map f l).
Proof.
  intros H. induction l as [|x l IH]; [reflexivity|]. simpl.
  destruct (keep x) eqn:K; simpl; rewrite IH; [reflexivity|].
  now rewrite (H x K).
Qed.

End CleanFacts.

Module CompactRoundTrip.

Import Num NumText Str JSON Properties NumFacts StringFacts DigitFacts
  NumberTextFacts ShortestFacts ShortestExists ObjectFacts RoundTrip
  ParseFacts Notions.

Lemma value_follower_number_end (s : jsstring) : value_follower s -> number_end s.
Proof.
  destruct s as [|c s]; [trivial|]. intros [-> | [-> | ->]]; repeat split; discriminate.
Qed.

Lemma compact_array (indent : jsstring) (e : value) (l : list value) :
  SerializeJSONProperty [] indent (Array (e :: l)) =
  91%N :: join [44%N] (map (SerializeJSONProperty [] (indent ++ [])) (e :: l)) ++ [93%N].
Proof. reflexivity. Qed.

Lemma compact_object (indent : jsstring) (m : jsstring * value)
  (l : list (jsstring * value)) :
  SerializeJSONProperty [] indent (Object (m :: l)) =
  123%N :: join [44%N] (map (compact_member (indent ++ [])) (m :: l)) ++ [125%N].
Proof. reflexivity. Qed.

Lemma compact_starts (indent : jsstring) (v : value) :
  well_formed v -> numbers_written_exactly v ->
  starts_value (SerializeJSONProperty [] indent v).
Proof.
  intros Hwf Hnw. unfold starts_value. destruct v as [| [|] | n | s | [|e l] | [|m l]];
    try (eexists; eexists; split; [reflexivity|]; repeat split; discriminate).
  inversion Hwf; subst. inversion Hnw; subst.
  cbn [SerializeJSONProperty].
  destruct n as [| s | s k]; try discriminate. cbn [is_finite].
  destruct (number_text_head (Finite s k)) as (c & t & E & Hc); try assumption.
  exists c, t. split; [exact E|]. split; [now apply head_not_space|].
  destruct Hc as [-> | Hc]; [split; discriminate|]. apply is_digit_range in Hc. lia.
Qed.

Lemma parse_elements_compact (indent rest : jsstring) (l : list value) :
  l <> [] -> Forall reads_back_compact l ->
  forall seen fuel, (elements_weight l <= fuel)%nat ->
  parse_elements fuel
    (join [44%N] (map (SerializeJSONProperty [] indent) l) ++ 93%N :: rest) seen
  = Some (Array (rev seen ++ l), rest).
Proof.
  intros NE H. induction H as [|e l He Hl IH]; [contradiction|].
  intros seen fuel Hf. cbn [elements_weight fold_right] in Hf. fold (elements_weight l) in Hf.
  destruct fuel as [|f]; [lia|]. cbn [parse_elements].
  destruct l as [|e2 l'].
  - cbn [map join]. rewrite (He indent (93%N :: rest) f); [| right; now left | lia].
    rewrite next_is_other by (reflexivity || discriminate).
    rewrite next_is_here by reflexivity.
    cbn [rev]. reflexivity.
  - cbn [map]. change (join ?sep (?p :: ?q :: ?r)) with (p ++ sep ++ join sep (q :: r)).
    rewrite <- ?app_assoc.
    rewrite (He indent); [| now left | lia].
    cbn [app]. rewrite next_is_here by reflexivity.
    cbn [elements_weight fold_right] in Hf.
    specialize (IH ltac:(discriminate) (e :: seen) f).
    cbn [map] in IH. rewrite IH by (cbn [elements_weight fold_right]; lia).
    cbn [rev]. now rewrite <- app_assoc.
Qed.

Lemma parse_members_compact (indent rest : jsstring) (l : list (jsstring * value)) :
  l <> [] -> Forall (fun m => reads_back_compact (snd m)) l ->
  forall object fuel, ordered (object ++ l) -> (members_weight l <= fuel)%nat ->
  parse_members fuel
    (join [44%N] (map (compact_member indent) l) ++ 125%N :: rest) object
  = Some (Object (object ++ l), rest).
Proof.
  intros NE H. induction H as [|[k v] l Hv Hl IH]; [contradiction|].
  intros object fuel Ho Hf. cbn [members_weight fold_right snd] in Hf.
  fold (members_weight l) in Hf.
  destruct fuel as [|f]; [lia|]. cbn [parse_members].
  assert (define_property k v object = object ++ [(k, v)]) as D.
  { apply define_property_last.
    change ((k, v) :: l) with ([(k, v)] ++ l) in Ho. rewrite app_assoc in Ho.
    apply ordered_app in Ho. tauto. }
  simpl snd in Hv.
  destruct l as [|m2 l'].
  - cbn [map join]. unfold compact_member at 1. cbn [fst snd]. unfold QuoteJSONString.
    cbn [app]. rewrite next_is_here by reflexivity.
    rewrite <- ?app_assoc. cbn [app]. rewrite parse_quote_chars.
    rewrite next_is_here by reflexivity.
    rewrite (Hv indent (125%N :: rest) f); [| right; now right | lia].
    rewrite next_is_other by (reflexivity || discriminate).
    rewrite next_is_here by reflexivity.
    now rewrite D.
  - cbn [map]. change (join ?sep (?p :: ?q :: ?r)) with (p ++ sep ++ join sep (q :: r)).
    unfold compact_member at 1. cbn [fst snd]. unfold QuoteJSONString.
    cbn [app]. rewrite next_is_here by reflexivity.
    rewrite <- ?app_assoc. cbn [app]. rewrite parse_quote_chars.
    rewrite next_is_here by reflexivity.
    rewrite <- ?app_assoc.
    rewrite (Hv indent); [| now left | lia].
    cbn [app]. rewrite next_is_here by reflexivity.
    cbn [members_weight fold_right] in Hf.
    specialize (IH ltac:(discriminate) (object ++ [(k, v)]) f).
    cbn [map] in IH. rewrite D, IH.
    + now rewrite <- app_assoc.
    + now rewrite <- app_assoc.
    + cbn [members_weight fold_right]. lia.
Qed.

Lemma parse_compact (v : value) :
  well_formed v -> numbers_written_exactly v -> reads_back_compact v.
Proof.
  induction v as [| b | n | s | l IH | l IH] using value_ind;
    intros Hwf Hnw indent rest fuel Hr Hf;
    (destruct fuel as [|f]; [simpl in Hf; lia|]).
  - reflexivity.
  - destruct b; reflexivity.
  - inversion Hwf; subst. inversion Hnw; subst.
    pose proof (parse_number_text n rest H0 H1 (value_follower_number_end _ Hr)) as P.
    destruct (number_text_head n H0 H1) as (c & t & E & Hc).
    cbn [SerializeJSONProperty].
    assert (is_finite n = true) as -> by (destruct n; try discriminate; reflexivity).
    rewrite E in *. cbn [app] in *. rewrite parse_value_number by assumption.
    now rewrite P.
  - cbn [SerializeJSONProperty]. unfold QuoteJSONString. cbn [app]. rewrite <- app_assoc.
    cbn [app parse_value skip_ws is_json_space N.eqb Pos.eqb orb].
    now rewrite parse_quote_chars.
  - destruct l as [|e l]; [reflexivity|].
    inversion Hwf as [| | | | ? Hwl |]; subst. inversion Hnw as [| | | | ? Hnl |]; subst.
    pose proof (Forall_and_inv _ _ _ _ IH Hwl Hnl) as Hrb.
    rewrite compact_array. cbn [app]. rewrite <- app_assoc. cbn [app].
    cbn [parse_value skip_ws is_json_space N.eqb Pos.eqb orb].
    inversion Hwl; subst. inversion Hnl; subst.
    destruct (compact_starts (indent ++ []) e) as (c & t & E & Hc1 & Hc2 & Hc3);
      try assumption.
    assert (next_is 93
              (join [44%N] (map (SerializeJSONProperty [] (indent ++ [])) (e :: l))
                 ++ 93%N :: rest) = None) as ->.
    { cbn [map]. destruct l; cbn [join map]; rewrite E; cbn [app];
        now apply next_is_other. }
    rewrite (parse_elements_compact (indent ++ []) rest (e :: l)); try assumption.
    + reflexivity.
    + discriminate.
    + change (weight (Array (e :: l))) with (S (elements_weight (e :: l))) in Hf. lia.
  - destruct l as [|m l]; [reflexivity|].
    inversion Hwf as [| | | | | ? Ho Hwl]; subst. inversion Hnw as [| | | | | ? Hnl]; subst.
    pose proof (Forall_and_inv (fun m => well_formed (snd m))
                  (fun m => numbers_written_exactly (snd m))
                  (fun m => reads_back_compact (snd m)) _ IH Hwl Hnl) as Hrb.
    rewrite compact_object. cbn [app]. rewrite <- app_assoc. cbn [app].
    cbn [parse_value skip_ws is_json_space N.eqb Pos.eqb orb].
    assert (next_is 125
              (join [44%N] (map (compact_member (indent ++ [])) (m :: l))
                 ++ 125%N :: rest) = None) as ->.
    { cbn [map]. destruct l; cbn [join map]; unfold compact_member at 1, QuoteJSONString;
        cbn [app]; now apply next_is_other. }
    rewrite (parse_members_compact (indent ++ []) rest (m :: l)); try assumption.
    + reflexivity.
    + discriminate.
    + change (weight (Object (m :: l))) with (S (members_weight (m :: l))) in Hf. lia.
Qed.

Lemma weight_le_compact (v : value) :
  well_formed v -> numbers_written_exactly v ->
  forall indent, (weight v <= length (SerializeJSONProperty [] indent v))%nat.
Proof.
  induction v as [| b | n | s | l IH | l IH] using value_ind; intros Hwf Hnw indent.
  - simpl. lia.
  - destruct b; simpl; lia.
  - destruct (compact_starts indent (Number n) Hwf Hnw) as (c & t & E & _).
    rewrite E. simpl. lia.
  - cbn [SerializeJSONProperty weight]. unfold QuoteJSONString. simpl. lia.
  - destruct l as [|e l]; [simpl; lia|].
    inversion Hwf as [| | | | ? Hwl |]; subst. inversion Hnw as [| | | | ? Hnl |]; subst.
    rewrite compact_array.
    change (weight (Array (e :: l))) with (S (elements_weight (e :: l))).
    cbn [length]. rewrite !length_app. cbn [length].
    pose proof (join_length [44%N]
                  (map (SerializeJSONProperty [] (indent ++ [])) (e :: l))) as J.
    cbn [length] in J.
    assert (elements_weight (e :: l) <=
            fold_right (fun p n => length p + 1 + n) 0
              (map (SerializeJSONProperty [] (indent ++ [])) (e :: l)))%nat as W.
    { clear J. revert IH Hwl Hnl. generalize (e :: l) as l0.
      induction 1 as [|x l0 Hx _ IHl]; intros Hwl Hnl; [simpl; lia|].
      inversion Hwl; subst. inversion Hnl; subst.
      cbn [map fold_right elements_weight]. fold (elements_weight l0).
      specialize (Hx H1 H3 (indent ++ [])). specialize (IHl H2 H4).
      lia. }
    cbn [map length] in *. lia.
  - destruct l as [|m l]; [simpl; lia|].
    inversion Hwf as [| | | | | ? Ho Hwl]; subst. inversion Hnw as [| | | | | ? Hnl]; subst.
    rewrite compact_object.
    change (weight (Object (m :: l))) with (S (members_weight (m :: l))).
    cbn [length]. rewrite !length_app. cbn [length].
    pose proof (join_length [44%N] (map (compact_member (indent ++ [])) (m :: l))) as J.
    cbn [length] in J.
    assert (members_weight (m :: l) <=
            fold_right (fun p n => length p + 1 + n) 0
              (map (compact_member (indent ++ [])) (m :: l)))%nat as W.
    { clear J Ho. revert IH Hwl Hnl. generalize (m :: l) as l0.
      induction 1 as [|x l0 Hx _ IHl]; intros Hwl Hnl; [simpl; lia|].
      inversion Hwl; subst. inversion Hnl; subst.
      cbn [map fold_right members_weight]. fold (members_weight l0).
      specialize (Hx H1 H3 (indent ++ [])). specialize (IHl H2 H4).
      unfold compact_member at 1. rewrite !length_app. cbn [length]. lia. }
    cbn [map length] in *. lia.
Qed.

(** Reading back what [JSON.stringify(v)] writes. *)
Lemma JSON_parse_compact (v : value) :
  well_formed v -> numbers_written_exactly v ->
  JSON_parse (JSON_stringify v 0) = Some v.
Proof.
  intros Hwf Hnw. unfold JSON_parse, JSON_stringify. cbn [repeat].
  pose proof (parse_compact v Hwf Hnw [] []
                (S (length (SerializeJSONProperty [] [] v)))) as P.
  rewrite app_nil_r in P. rewrite P; [reflexivity | exact I |].
  pose proof (weight_le_compact v Hwf Hnw []). lia.
Qed.

(** The object sent in the request is a value that is written as itself. *)
Lemma requestData_well_formed (text targetLang : jsstring) :
  well_formed (Translate.requestData text targetLang).
Proof.
  assert (forall k k' : jsstring,
            array_index k = None -> array_index k' = None -> Str.eqb k k' = false ->
            key_before k k') as KB.
  { intros k k' H1 H2 H3. unfold key_before. rewrite H1, H2. intros ->.
    now rewrite eqb_refl in H3. }
  unfold Translate.requestData.
  constructor.
  - cbn [ordered fst]. repeat split;
      repeat (constructor; [apply KB; vm_compute; reflexivity|]); constructor.
  - repeat (constructor; [cbn [snd]|]); try constructor.
    + constructor; [|constructor; [|constructor]].
      * constructor.
        -- cbn [ordered fst]. repeat split;
             repeat (constructor; [apply KB; vm_compute; reflexivity|]); constructor.
        -- repeat (constructor; [cbn [snd]; constructor|]). constructor.
      * constructor.
        -- cbn [ordered fst]. repeat split;
             repeat (constructor; [apply KB; vm_compute; reflexivity|]); constructor.
        -- repeat (constructor; [cbn [snd]; constructor|]). constructor.
    + apply decimal_to_number_is_Number. lia.
Qed.

Lemma requestData_written_exactly (text targetLang : jsstring) :
  numbers_written_exactly (Translate.requestData text targetLang).
Proof.
  unfold Translate.requestData.
  constructor. repeat (constructor; [cbn [snd]|]); try constructor.
  - repeat (constructor; [constructor; repeat (constructor; [cbn [snd]; constructor|]);
                          constructor|]).
    constructor.
  - vm_compute. reflexivity.
Qed.

(** What a line made of [data: ] and the text of a value adds. *)
Lemma line_content_compact (w : Translate.World) (v : value) :
  well_formed v -> numbers_written_exactly v ->
  Translate.line_content w (str "data: " ++ JSON_stringify v 0) =
  match Translate.delta_content w v with
  | Some delta => delta
  | None => []
  end.
Proof.
  intros Hwf Hnw. pose proof (JSON_parse_compact v Hwf Hnw) as P.
  unfold Translate.line_content.
  change (startsWith (str "data: " ++ JSON_stringify v 0) (str "data: ")) with true.
  cbv iota. change (slice 6 (str "data: " ++ JSON_stringify v 0)) with (JSON_stringify v 0).
  cbv zeta.
  destruct (Str.eqb (JSON_stringify v 0) (str "[DONE]")) eqn:E.
  - apply eqb_eq in E. rewrite E in P. vm_compute in P. discriminate P.
  - now rewrite P.
Qed.

End CompactRoundTrip.

Module WrittenFacts.

Import Num NumText Str JSON Translate Properties NumFacts ControlFlow
  ObjectFacts ParseFacts CompactRoundTrip Notions.

(** [written v] and [v] are written in the same way. *)
Lemma serialize_written (gap : jsstring) (v : value) :
  forall indent,
    SerializeJSONProperty gap indent (written v) = SerializeJSONProperty gap indent v.
Proof.
  induction v as [| b | n | s | l IH | l IH] using value_ind; intros indent;
    try reflexivity.
  - destruct n as [| s | [|] [|k|k]]; reflexivity.
  - destruct l as [|e l]; [reflexivity|].
    cbn [written map SerializeJSONProperty]. f_equal.
    inversion IH as [|? ? He Hl]; subst. rewrite He. f_equal.
    rewrite map_map. apply map_ext_Forall.
    eapply Forall_impl; [|exact Hl]. intros a Ha. apply Ha.
  - destruct l as [|m l]; [reflexivity|].
    cbn [written map SerializeJSONProperty fst snd]. f_equal.
    inversion IH as [|? ? Hm Hl]; subst. rewrite Hm. f_equal.
    rewrite map_map. apply map_ext_Forall.
    eapply Forall_impl; [|exact Hl]. intros a Ha. cbn [fst snd]. now rewrite Ha.
Qed.

Lemma ordered_written (members : list (jsstring * value)) :
  ordered members -> ordered (map (fun m => (fst m, written (snd m))) members).
Proof.
  induction members as [|[k v] l IH]; [trivial|]. cbn [ordered map fst snd].
  intros [H1 H2]. split; [|now apply IH].
  apply Forall_map. eapply Forall_impl; [|exact H1]. now intros [k' v'].
Qed.

Lemma Forall_modus_ponens {A} (P Q : A -> Prop) (l : list A) :
  Forall (fun x => P x -> Q x) l -> Forall P l -> Forall Q l.
Proof. induction 1; intros HP; inversion HP; subst; constructor; auto. Qed.

Lemma well_formed_written (v : value) : well_formed v -> well_formed (written v).
Proof.
  induction v as [| b | n | s | l IH | l IH] using value_ind; intros H;
    try exact H.
  - inversion H as [| | ? Hn | | |]; subst.
    destruct n as [| s | [|] [|k|k]]; cbn [written written_number];
      constructor; try exact Hn.
  - inversion H as [| | | | ? Hl |]; subst. cbn [written]. constructor.
    apply Forall_map. exact (Forall_modus_ponens _ _ _ IH Hl).
  - inversion H as [| | | | | ? Ho Hl]; subst. cbn [written]. constructor.
    + now apply ordered_written.
    + apply Forall_map. cbn [snd].
      exact (Forall_modus_ponens (fun m => well_formed (snd m)) _ _ IH Hl).
Qed.

Lemma numbers_written_written (v : value) : numbers_written_exactly (written v).
Proof.
  induction v as [| b | n | s | l IH | l IH] using value_ind;
    try (constructor; fail).
  - destruct n as [| s | [|] [|k|k]]; cbn [written written_number];
      constructor; reflexivity.
  - cbn [written]. constructor. apply Forall_map. exact IH.
  - cbn [written]. constructor. apply Forall_map. exact IH.
Qed.

(** What the text written for a value is read back as. *)
Lemma JSON_parse_written (v : value) :
  well_formed v -> JSON_parse (JSON_stringify v 2) = Some (written v).
Proof.
  intros H. unfold JSON_stringify. rewrite <- serialize_written.
  apply JSON_parse_stringify; [now apply well_formed_written|].
  apply numbers_written_written.
Qed.

Lemma JSON_stringify_written (v : value) (space : nat) :
  JSON_stringify (written v) space = JSON_stringify v space.
Proof. apply serialize_written. Qed.

(** The same for the text without white space. *)
Lemma JSON_parse_compact_written (v : value) :
  well_formed v -> JSON_parse (JSON_stringify v 0) = Some (written v).
Proof.
  intros H. rewrite <- JSON_stringify_written.
  apply JSON_parse_compact; [now apply well_formed_written|].
  apply numbers_written_written.
Qed.

(** What a line made of [data: ] and the text of a value adds. *)
Lemma line_content_written (w : World) (v : value) :
  well_formed v ->
  line_content w (str "data: " ++ JSON_stringify v 0) =
  match delta_content w (written v) with
  | Some delta => delta
  | None => []
  end.
Proof.
  intros Hwf. pose proof (JSON_parse_compact_written v Hwf) as P.
  unfold line_content.
  change (startsWith (str "data: " ++ JSON_stringify v 0) (str "data: ")) with true.
  cbv iota. change (slice 6 (str "data: " ++ JSON_stringify v 0)) with (JSON_stringify v 0).
  cbv zeta.
  destruct (Str.eqb (JSON_stringify v 0) (str "[DONE]")) eqn:E.
  - apply StringFacts.eqb_eq in E. rewrite E in P. vm_compute in P. discriminate P.
  - now rewrite P.
Qed.

Lemma map_id_Forall {A} (f : A -> A) (P : A -> Prop) (l : list A) :
  Forall (fun x => f x = x -> P x) l -> map f l = l -> Forall P l.
Proof.
  induction 1 as [|x l Hx _ IH]; intros E; [constructor|].
  cbn [map] in E. injection E as E1 E2. constructor; auto.
Qed.

(** A value is written as itself only if its Numbers are. *)
Lemma written_fixed (v : value) : written v = v -> numbers_written_exactly v.
Proof.
  induction v as [| b | n | s | l IH | l IH] using value_ind; intros E;
    try (constructor; fail).
  - constructor. destruct n as [| s | [|] [|k|k]]; try reflexivity; discriminate E.
  - constructor. cbn [written] in E. injection E as E.
    exact (map_id_Forall written _ l IH E).
  - constructor. cbn [written] in E. injection E as E.
    assert (map (fun m => written (snd m)) l = map snd l) as E'.
    { rewrite <- E at 2. rewrite map_map. reflexivity. }
    clear E. induction IH as [|m l Hm _ IHl]; [constructor|].
    cbn [map] in E'. injection E' as E1 E2. constructor; auto.
Qed.

Lemma written_exact (v : value) : numbers_written_exactly v -> written v = v.
Proof.
  induction v as [| b | n | s | l IH | l IH] using value_ind; intros H;
    try reflexivity.
  - inversion H as [| | ? Hn | | |]; subst.
    destruct n as [| s | [|] [|k|k]]; try reflexivity; discriminate Hn.
  - inversion H as [| | | | ? Hl |]; subst. cbn [written]. f_equal.
    rewrite <- (map_id l) at 2. apply map_ext_Forall.
    exact (Forall_modus_ponens _ _ _ IH Hl).
  - inversion H as [| | | | | ? Hl]; subst. cbn [written]. f_equal.
    rewrite <- (map_id l) at 2. apply map_ext_Forall.
    pose proof (Forall_modus_ponens (fun m => numbers_written_exactly (snd m)) _ _ IH Hl) as F.
    eapply Forall_impl; [|exact F]. intros [k e] He. cbn [fst snd] in *. now rewrite He.
Qed.

(** What the [try] block can return. *)
Lemma attempt_returned w url key text targetLang signal p s result :
  fst (attempt w url key text targetLang signal p s) = Returned result ->
  result = [] \/
  exists cleaned v, JSON_parse cleaned = Some v /\ result = JSON_stringify v 2.
Proof.
  unfold attempt.
  destruct (fetch w url _) as [response | reason]; [|discriminate].
  destruct (negb (ok response)).
  { destruct (_ =? 401); [|destruct (_ =? 429)]; discriminate. }
  destruct (body response) as [reader|]; [|discriminate].
  destruct (read_all w _ p s _ (chunks reader)) as [st events].
  destruct (ending reader); [|discriminate].
  cbv zeta. destruct (JSON_parse _) as [v|] eqn:E.
  - destruct (stringify_RangeError w v).
    + destruct (aborted _ _); [|discriminate]. intros H. injection H as <-. now left.
    + intros H. injection H as <-. right. eauto.
  - destruct (aborted _ _); [|discriminate]. intros H. injection H as <-. now left.
Qed.

(** What the [try] block can throw: an Error, or what the platform
    rejected a promise with. *)
Lemma attempt_threw w url key text targetLang signal p s error time :
  fst (attempt w url key text targetLang signal p s) = Threw error time ->
  (exists message, error = Error message) \/
  fetch w url (request key text targetLang signal) = Rejected error \/
  exists response reader,
    fetch w url (request key text targetLang signal) = Fulfilled response /\
    body response = Some reader /\ ending reader = Errored error.
Proof.
  unfold attempt.
  destruct (fetch w url _) as [response | reason].
  2:{ intros H. injection H as <- _. right. now left. }
  destruct (negb (ok response)).
  { destruct (_ =? 401); [|destruct (_ =? 429)]; intros H; injection H as <- _;
      left; eauto. }
  destruct (body response) as [reader|] eqn:Hb.
  2:{ intros H. injection H as <- _. left. eauto. }
  destruct (read_all w _ p s _ (chunks reader)) as [st events].
  destruct (ending reader) as [|reason] eqn:He.
  - cbv zeta.
    destruct (JSON_parse _) as [v|]; [destruct (stringify_RangeError w v)|];
      try discriminate;
      (destruct (aborted _ _); [discriminate|]; intros H; injection H as <- _; left; eauto).
  - intros H. injection H as <- _. right. right. exists response, reader. auto.
Qed.

(** The handler rejects with an Error that is no AbortError. *)
Lemma handler_rejects signal error time reason :
  handler signal error time = Rejects reason ->
  instanceof_Error reason = true /\ is_AbortError reason = false.
Proof.
  unfold handler. destruct (aborted signal time); [discriminate|]. cbn [orb].
  destruct (is_AbortError error) eqn:A; [discriminate|].
  destruct (instanceof_Error error) eqn:I; intros H; injection H as <-.
  - now split.
  - split; reflexivity.
Qed.

Lemma flat_map_combine_shift {A B} (f : A * nat -> list B) (ps : list A) (ns : list nat) :
  flat_map f (combine ps (map S ns))
  = flat_map (fun pn => f (fst pn, S (snd pn))) (combine ps ns).
Proof.
  revert ns. induction ps as [|p ps IH]; intros [|n ns]; try reflexivity.
  cbn [map combine flat_map fst snd]. now rewrite IH.
Qed.

(** The calls of the loop: one to each callback that is given for every
    fragment, [onProgress] first, [onStream] with the buffer so far. *)
Lemma read_all_calls (w : World) (est : number) (values : list (list byte)) :
  forall st, exists ps,
    length ps = length values /\
    forall p s,
      snd (read_all w est p s st values) =
      flat_map
        (fun pn =>
           (if p then [Progress (fst pn)] else []) ++
           (if s then [Stream (fullContent st ++ accumulated w (firstn (snd pn) values))]
            else []))
        (combine ps (seq 1 (length values))).
Proof.
  induction values as [|v vs IH]; intros st.
  - exists []. split; [reflexivity|]. reflexivity.
  - set (st' := fst (step w est true true st v)).
    destruct (IH st') as (ps & Hl & H).
    exists (progress_of (tokenCount st') est :: ps). split; [simpl; now rewrite Hl|].
    intros p s. cbn [read_all step].
    specialize (H p s). cbn [step fst] in st'. fold st'.
    destruct (read_all w est p s st' vs) as [final later]. cbn [snd] in H |- *.
    cbn [length seq combine flat_map fst snd firstn]. rewrite <- seq_shift.
    unfold accumulated at 1. cbn [map concat]. rewrite app_nil_r. f_equal.
    rewrite H. clear H. rewrite flat_map_combine_shift.
    apply flat_map_ext. intros [q n].
    cbn [fst snd firstn]. unfold st'. cbn [fullContent].
    unfold accumulated. cbn [map concat]. now rewrite app_assoc.
Qed.

Lemma flat_map_progress (ps : list number) (ns : list nat) :
  length ps = length ns ->
  flat_map (fun pn : number * nat => [Progress (fst pn)]) (combine ps ns) = map Progress ps.
Proof.
  revert ns. induction ps as [|p ps IH]; intros [|n ns] H; try discriminate; [reflexivity|].
  cbn [combine flat_map fst app map]. f_equal. apply IH. now injection H.
Qed.

Lemma flat_map_stream (ps : list number) (ns : list nat) (f : nat -> jsstring) :
  length ps = length ns ->
  flat_map (fun pn : number * nat => [Stream (f (snd pn))]) (combine ps ns)
  = map (fun n => Stream (f n)) ns.
Proof.
  revert ns. induction ps as [|p ps IH]; intros [|n ns] H; try discriminate; [reflexivity|].
  cbn [combine flat_map snd app map]. f_equal. apply IH. now injection H.
Qed.

Lemma flat_map_nothing {A B} (l : list A) : flat_map (fun _ : A => @nil B) l = [].
Proof. induction l; [reflexivity | assumption]. Qed.

End WrittenFacts.

Module ProgressEnds.

Import Num NumText Str JSON Translate Properties NumFacts ControlFlow
  ProgressFacts Notions.

Lemma pow2_1075 : 2 ^ 1075 = 2 * 2 ^ 1074.
Proof. change 1075 with (Z.succ 1074). apply Z.pow_succ_r. lia. Qed.

Lemma pow2_1074 : 2 ^ 1074 = 4 * 2 ^ 1072.
Proof.
  change 1074 with (Z.succ (Z.succ 1072)). rewrite !Z.pow_succ_r by lia. ring.
Qed.

(** The integer reported for an integral product. *)
Lemma percent_integer (n : Z) : 0 <= n -> percent (Finite false (n * 2 ^ 1074)) = Z.min n 100.
Proof.
  intros Hn. unfold percent. f_equal. rewrite pow2_1075.
  pose proof (pow2_pos 1074 ltac:(lia)) as P. revert P.
  generalize (2 ^ 1074) as q. intros q P.
  symmetry. apply Z.div_unique with (r := q); [lia | ring].
Qed.

Lemma hundred_below_threshold : 100 * 2 ^ 1074 < overflow_threshold.
Proof.
  unfold overflow_threshold. change 2098 with (1024 + 1074).
  rewrite Z.pow_add_r by lia.
  apply Z.mul_lt_mono_pos_r; [apply pow2_pos; lia | reflexivity].
Qed.

Lemma running_totals_le (w : World) (values : list (list byte)) :
  forall n,
    Forall (fun total => (n <= total <= n + length (accumulated w values))%nat)
      (running_totals w n values).
Proof.
  induction values as [|v vs IH]; intros n; [constructor|].
  cbn [running_totals]. unfold accumulated. cbn [map concat]. rewrite length_app.
  fold (accumulated w vs). constructor; [lia|].
  eapply Forall_impl; [|apply IH]. cbv beta. intros total H. lia.
Qed.

Section Estimated.

Variable len : Z.
Hypothesis len_pos : 0 < len.
Hypothesis len_small : len < 2 ^ 53.
Let est := Finite false (len * 2 ^ 1072).

Lemma est_pos : 0 < len * 2 ^ 1072.
Proof. apply Z.mul_pos_pos; [exact len_pos | apply pow2_pos; lia]. Qed.

Lemma quarters_nonneg (n : Z) : 0 <= n < 2 ^ 53 -> nonneg (Finite false (n * 2 ^ 1072)).
Proof.
  intros Hn. right. exists (n * 2 ^ 1072). split; [reflexivity|]. split.
  - apply Z.mul_nonneg_nonneg; [lia|]. pose proof (pow2_pos 1072 ltac:(lia)). lia.
  - apply representable_scaled; lia.
Qed.

Lemma pct_full : pct est est = 100.
Proof.
  unfold pct, est, fdiv. pose proof est_pos as E.
  destruct (Z.eqb_spec (len * 2 ^ 1072) 0) as [Z0 | _]; [lia|]. cbn [xorb].
  rewrite (Z.mul_comm (len * 2 ^ 1072) (2 ^ 1074)).
  rewrite <- (Z.mul_1_l (2 ^ 1074)) at 1.
  rewrite round_ratio_exact;
    [ | pose proof (pow2_pos 1074 ltac:(lia)); lia | exact E
      | apply representable_scaled; lia ].
  rewrite (of_Z_exact 100) by lia. unfold fmul. cbn [xorb].
  rewrite Z.mul_1_l, (Z.mul_comm (2 ^ 1074) (100 * 2 ^ 1074)).
  rewrite round_ratio_exact;
    [ | pose proof (pow2_pos 1074 ltac:(lia)); lia | apply pow2_pos; lia
      | apply representable_scaled; lia ].
  rewrite percent_integer by lia. reflexivity.
Qed.

Lemma pct_nothing : pct est (Finite false 0) = 0.
Proof.
  unfold pct, est, fdiv. pose proof est_pos as E.
  destruct (Z.eqb_spec (len * 2 ^ 1072) 0) as [Z0 | _]; [lia|]. cbn [xorb].
  rewrite Z.mul_0_l. unfold round_ratio at 1. cbn [Z.eqb].
  rewrite (of_Z_exact 100) by lia. unfold fmul. cbn [xorb].
  rewrite Z.mul_0_l. unfold round_ratio. cbn [Z.eqb].
  rewrite <- (Z.mul_0_l (2 ^ 1074)). rewrite percent_integer by lia. reflexivity.
Qed.

(** Nothing has arrived: 0. *)
Lemma progress_nothing : progress_of (Finite false 0) est = of_Z 0.
Proof.
  unfold est. rewrite progress_of_pct; [| exact est_pos |].
  - f_equal. exact pct_nothing.
  - rewrite <- (Z.mul_0_l (2 ^ 1072)). apply quarters_nonneg. lia.
Qed.

(** At least as much as the source text has arrived: 100. *)
Lemma progress_full (total : Z) :
  len <= total < 2 ^ 53 -> progress_of (Finite false (total * 2 ^ 1072)) est = of_Z 100.
Proof.
  intros Ht. unfold est.
  assert (nonneg (Finite false (total * 2 ^ 1072))) as Nt by (apply quarters_nonneg; lia).
  assert (nonneg (Finite false (len * 2 ^ 1072))) as Nl by (apply quarters_nonneg; lia).
  rewrite progress_of_pct; [| exact est_pos | exact Nt]. f_equal.
  pose proof (pct_range _ est_pos _ Nt) as R.
  pose proof (pct_mono _ est_pos _ _ Nl Nt) as M.
  fold est in M, R |- *. rewrite pct_full in M.
  assert (100 <= pct est (Finite false (total * 2 ^ 1072))); [|lia].
  apply M. unfold rank, signed.
  pose proof (pow2_pos 1072 ltac:(lia)) as P.
  apply Z.sub_le_mono_r, Z.mul_le_mono_nonneg_l; [lia|].
  apply Z.mul_le_mono_nonneg_r; [|lia]. revert P. generalize (2 ^ 1072). lia.
Qed.

End Estimated.

(** The progress for an empty source text. *)
Lemma progress_of_empty (total : Z) :
  0 <= total < 2 ^ 53 ->
  progress_of (Finite false (total * 2 ^ 1072)) (Finite false 0) =
  if total =? 0 then NaN else of_Z 100.
Proof.
  intros Ht. unfold progress_of. rewrite (of_Z_exact 100) by lia.
  unfold fdiv. cbn [Z.eqb].
  pose proof (pow2_pos 1072 ltac:(lia)) as P.
  pose proof (pow2_pos 1074 ltac:(lia)) as Q.
  destruct (Z.eqb_spec total 0) as [-> | N].
  - rewrite Z.mul_0_l. reflexivity.
  - destruct (Z.eqb_spec (total * 2 ^ 1072) 0) as [E | _].
    { exfalso. revert P E. generalize (2 ^ 1072) as q. intros q P E. nia. }
    cbn [xorb]. unfold fmul. cbn [xorb].
    destruct (Z.eqb_spec (100 * 2 ^ 1074) 0) as [E | _].
    { exfalso. revert Q E. generalize (2 ^ 1074) as q. intros q Q E. lia. }
    unfold Math_round, Math_min, rank, signed.
    pose proof hundred_below_threshold as B.
    destruct (Z.leb_spec (2 * overflow_threshold) (2 * (100 * 2 ^ 1074) - 0)) as [L | _];
      [|reflexivity].
    exfalso. revert B L. generalize (100 * 2 ^ 1074) as a.
    generalize overflow_threshold as b. intros b a B L. lia.
Qed.

(** The values of the loop, for totals that a String can have. *)
Lemma progress_of_totals w text targetLang signal s response reader :
  configured w ->
  fetched w text targetLang signal = Fulfilled response ->
  ok response = true ->
  body response = Some reader ->
  Z.of_nat (length text) < 2 ^ 53 ->
  Z.of_nat (length (accumulated w (chunks reader))) < 2 ^ 53 ->
  progress_values (snd (translate w text targetLang signal true s)) =
  map (fun total =>
         progress_of (Finite false (Z.of_nat total * 2 ^ 1072))
           (Finite false (Z.of_nat (length text) * 2 ^ 1072)))
      (running_totals w 0 (chunks reader)).
Proof.
  intros Hc Hf Hok Hb Hl Ha.
  rewrite (translate_reads w text targetLang signal true s response reader Hc Hf Hok Hb).
  rewrite (estimatedTokens_exact text Hl).
  rewrite (read_all_tokenCount _ w true s (chunks reader) _ 0%nat); [ | | exact Ha].
  - apply map_ext_in. intros total Hin. f_equal.
    pose proof (running_totals_le w (chunks reader) 0) as B.
    rewrite Forall_forall in B. specialize (B total Hin). cbv beta in B.
    unfold of_nat. apply quarter_exact. lia.
  - cbn [tokenCount]. rewrite (of_Z_exact 0) by lia. reflexivity.
Qed.

End ProgressEnds.

Module ValidJson.

Import Num NumText Str JSON Translate Properties StringFacts CleanFacts
  Notions.

(** *** No fence in such a text *)






(** *** The texts that JSON.parse accepts *)























End ValidJson.

Module FenceFacts.

Import Num NumText Str JSON Translate Properties StringFacts CleanFacts
  ValidJson Notions.

(** *** Fences that stay *)










End FenceFacts.

Module Framing.

Import Num NumText Str JSON Translate Properties ControlFlow Notions.

Lemma lead_byte_expects (b : N) (st : Utf8.state) :
  Utf8.lead_byte b = Utf8.Pending st -> expects_continuation st.
Proof.
  unfold Utf8.lead_byte, expects_continuation.
  destruct (N.leb b 127); [discriminate|].
  destruct (_ && _)%bool; [intros [= <-]; cbn; lia|].
  destruct (_ && _)%bool.
  { intros [= <-]. cbn. destruct (N.eqb b 224); lia. }
  destruct (_ && _)%bool; [|discriminate].
  intros [= <-]. cbn. destruct (N.eqb b 240); lia.
Qed.

(** After a line feed the decoder is in its initial state. *)
Lemma decode_from_LF (c : list byte) (a : list byte) :
  forall st, expects_continuation st ->
    Utf8.decode_from st (a ++ x0a :: c)
    = Utf8.decode_from st (a ++ [x0a]) ++ Utf8.decode_from Utf8.initial c.
Proof.
  assert (expects_continuation Utf8.initial) as I0 by (cbv; discriminate).
  induction a as [|b a IH]; intros st Hst.
  - cbn [app Utf8.decode_from]. change (Byte.to_N x0a) with 10%N.
    change (Utf8.lead_byte 10) with (Utf8.Scalar 10).
    destruct (Utf8.bytes_needed st) as [|more]; [reflexivity|].
    unfold expects_continuation in Hst.
    destruct (N.leb_spec (Utf8.lower_boundary st) 10); [lia|]. reflexivity.
  - cbn [app Utf8.decode_from].
    assert (match Utf8.lead_byte (Byte.to_N b) with
            | Utf8.Scalar cp => cp :: Utf8.decode_from Utf8.initial (a ++ x0a :: c)
            | Utf8.Pending st' => Utf8.decode_from st' (a ++ x0a :: c)
            | Utf8.Invalid => Utf8.REPLACEMENT :: Utf8.decode_from Utf8.initial (a ++ x0a :: c)
            end =
            match Utf8.lead_byte (Byte.to_N b) with
            | Utf8.Scalar cp => cp :: Utf8.decode_from Utf8.initial (a ++ [x0a])
            | Utf8.Pending st' => Utf8.decode_from st' (a ++ [x0a])
            | Utf8.Invalid => Utf8.REPLACEMENT :: Utf8.decode_from Utf8.initial (a ++ [x0a])
            end ++ Utf8.decode_from Utf8.initial c) as F.
    { destruct (Utf8.lead_byte (Byte.to_N b)) as [cp | st' |] eqn:L.
      - now rewrite IH.
      - rewrite IH; [reflexivity | eapply lead_byte_expects, L].
      - now rewrite IH. }
    destruct (Utf8.bytes_needed st) as [|more]; [exact F|].
    destruct (_ && _)%bool.
    + destruct more as [|more].
      * now rewrite IH.
      * rewrite IH; [reflexivity | cbv; discriminate].
    + now rewrite F.
Qed.

(** What is decoded from bytes that end with a line feed ends with it. *)
Lemma decode_from_ends_LF (a : list byte) :
  forall st, expects_continuation st ->
    exists cps, Utf8.decode_from st (a ++ [x0a]) = cps ++ [10%N].
Proof.
  assert (expects_continuation Utf8.initial) as I0 by (cbv; discriminate).
  induction a as [|b a IH]; intros st Hst.
  - cbn [app Utf8.decode_from]. change (Byte.to_N x0a) with 10%N.
    change (Utf8.lead_byte 10) with (Utf8.Scalar 10).
    destruct (Utf8.bytes_needed st) as [|more]; [now exists []|].
    unfold expects_continuation in Hst.
    destruct (N.leb_spec (Utf8.lower_boundary st) 10); [lia|].
    now exists [Utf8.REPLACEMENT].
  - cbn [app Utf8.decode_from].
    assert (exists cps,
              match Utf8.lead_byte (Byte.to_N b) with
              | Utf8.Scalar cp => cp :: Utf8.decode_from Utf8.initial (a ++ [x0a])
              | Utf8.Pending st' => Utf8.decode_from st' (a ++ [x0a])
              | Utf8.Invalid => Utf8.REPLACEMENT :: Utf8.decode_from Utf8.initial (a ++ [x0a])
              end = cps ++ [10%N]) as (f & F).
    { destruct (Utf8.lead_byte (Byte.to_N b)) as [cp | st' |] eqn:L.
      - destruct (IH _ I0) as (cps & ->). now exists (cp :: cps).
      - apply IH. eapply lead_byte_expects, L.
      - destruct (IH _ I0) as (cps & ->). now exists (Utf8.REPLACEMENT :: cps). }
    destruct (Utf8.bytes_needed st) as [|more]; [now exists f|].
    destruct (_ && _)%bool.
    + destruct more as [|more].
      * destruct (IH _ I0) as (cps & ->). eexists (_ :: cps). reflexivity.
      * apply IH. cbv. discriminate.
    + rewrite F. now exists (Utf8.REPLACEMENT :: f).
Qed.

Lemma flat_map_utf16_LF (cps : list N) :
  flat_map Utf8.utf16 (cps ++ [10%N]) = flat_map Utf8.utf16 cps ++ [LF].
Proof. rewrite flat_map_app. reflexivity. Qed.

(** The text of a fragment that ends with a line feed ends with it. *)
Lemma decode_ends_LF (a : list byte) :
  exists text, Utf8.decode (a ++ [x0a]) = text ++ [LF].
Proof.
  unfold Utf8.decode.
  destruct (decode_from_ends_LF a Utf8.initial) as (cps & ->); [cbv; discriminate|].
  destruct cps as [|cp cps].
  - now exists [].
  - assert (exists r, match (cp :: cps) ++ [10%N] with
                      | 65279%N :: r => r
                      | _ => (cp :: cps) ++ [10%N]
                      end = r ++ [10%N]) as (r & ->).
    { destruct (N.eqb_spec cp 65279) as [-> | NE].
      - now exists cps.
      - exists (cp :: cps). cbn [app].
        destruct cp as [|p]; [reflexivity|].
        do 20 (try first [ reflexivity
                         | match goal with H : ?x <> ?x |- _ => now elim H end
                         | destruct p as [p|p|] ]). }
    rewrite flat_map_utf16_LF. eauto.
Qed.

(** A boundary after a line feed: the text of the whole is the text of
    the parts. *)
Lemma decode_after_LF (a c : list byte) :
  begins_with_BOM c = false ->
  Utf8.decode ((a ++ [x0a]) ++ c) = Utf8.decode (a ++ [x0a]) ++ Utf8.decode c.
Proof.
  intros HB. unfold Utf8.decode. rewrite <- app_assoc. cbn [app].
  rewrite decode_from_LF by (cbv; discriminate).
  destruct (decode_from_ends_LF a Utf8.initial) as (cps & E); [cbv; discriminate|].
  rewrite E.
  assert (match Utf8.decode_from Utf8.initial c with
          | 65279%N :: r => r
          | _ => Utf8.decode_from Utf8.initial c
          end = Utf8.decode_from Utf8.initial c) as ->.
  { unfold begins_with_BOM in HB.
    destruct (Utf8.decode_from Utf8.initial c) as [|cp r]; [reflexivity|].
    destruct cp as [|p]; [reflexivity|].
    do 20 (try first [ reflexivity | discriminate HB | destruct p as [p|p|] ]). }
  rewrite <- flat_map_app. f_equal.
  destruct cps as [|cp cps]; [reflexivity|]. cbn [app].
  destruct cp as [|p]; [reflexivity|].
  do 20 (try first [ reflexivity | destruct p as [p|p|] ]).
Qed.

Lemma split_not_empty (sep : N) (s : jsstring) : split sep s <> [].
Proof.
  destruct s as [|c s]; [discriminate|]. cbn [split].
  destruct (N.eqb c sep); [discriminate|]. destruct (split sep s); discriminate.
Qed.

(** The lines of a text cut after a separator. *)
Lemma split_app (sep : N) (u v : jsstring) :
  split sep (u ++ sep :: v) = split sep u ++ split sep v.
Proof.
  induction u as [|c u IH].
  - cbn [app split]. now rewrite N.eqb_refl.
  - cbn [app split]. rewrite IH. destruct (N.eqb c sep); [reflexivity|].
    pose proof (split_not_empty sep u) as NE.
    destruct (split sep u); [contradiction | reflexivity].
Qed.

(** Two fragments cut after a line feed add what the whole adds. *)
Lemma chunk_content_after_LF (w : World) (a c : list byte) :
  begins_with_BOM c = false ->
  chunk_content w ((a ++ [x0a]) ++ c) = chunk_content w (a ++ [x0a]) ++ chunk_content w c.
Proof.
  intros HB. rewrite !chunk_content_lines, decode_after_LF by exact HB.
  destruct (decode_ends_LF a) as (text & ->).
  rewrite <- app_assoc. cbn [app]. rewrite split_app.
  change (text ++ [LF]) with (text ++ LF :: []). rewrite split_app.
  rewrite !map_app, !concat_app. cbn [split map concat].
  change (line_content w []) with (@nil N). now rewrite !app_nil_r.
Qed.

(** Appending bytes after the line feed does not change whether the
    fragment begins with a byte order mark. *)
Lemma begins_with_BOM_app (a c : list byte) :
  begins_with_BOM ((a ++ [x0a]) ++ c) = begins_with_BOM (a ++ [x0a]).
Proof.
  unfold begins_with_BOM. rewrite <- app_assoc. cbn [app].
  rewrite decode_from_LF by (cbv; discriminate).
  destruct (decode_from_ends_LF a Utf8.initial) as (cps & ->); [cbv; discriminate|].
  destruct cps; reflexivity.
Qed.

(** Fragments cut after line feeds add what their concatenation adds. *)
Lemma accumulated_lines (w : World) (values : list (list byte)) (last : list byte) :
  Forall ends_with_LF values ->
  Forall (fun value => begins_with_BOM value = false) (values ++ [last]) ->
  accumulated w (values ++ [last]) = chunk_content w (concat (values ++ [last])).
Proof.
  induction 1 as [|v values (a & ->) Hrest IH]; intros HB.
  - cbn [app concat]. unfold accumulated. cbn [map concat]. now rewrite !app_nil_r.
  - cbn [app] in HB. inversion HB as [|? ? H1 H2]; subst.
    cbn [app concat]. unfold accumulated. cbn [map concat]. fold (accumulated w (values ++ [last])).
    rewrite IH by exact H2. symmetry. apply chunk_content_after_LF.
    destruct values as [|v2 values].
    + cbn [app concat]. rewrite app_nil_r. now inversion H2.
    + cbn [app concat]. inversion H2 as [|? ? H3 _]; subst.
      inversion Hrest as [|? ? (a2 & ->) _]; subst.
      now rewrite begins_with_BOM_app.
Qed.

End Framing.

Module IntegerText.

Import Num NumText Str JSON Properties NumFacts DigitFacts NumberTextFacts
  ShortestFacts ShortestExists Notions.

#[local] Arguments decimal_to_number : simpl never.
#[local] Arguments Z.pow : simpl never.
#[local] Arguments Z.mul : simpl never.
#[local] Arguments Z.sub : simpl never.
#[local] Arguments Z.add : simpl never.

(** *** Decimal digits *)

Lemma digit_split (d e x y q : Z) :
  0 <= x < q -> 0 <= y < q -> d * q + x = e * q + y -> d = e /\ x = y.
Proof. intros Hx Hy H. assert (d = e) by nia. subst. lia. Qed.

Lemma digits_value_inj (a : list N) :
  forall b, all_digits a -> all_digits b -> length a = length b ->
            digits_value a = digits_value b -> a = b.
Proof.
  induction a as [|d a IH]; intros [|e b] Ha Hb Hl Hv; try discriminate; [reflexivity|].
  inversion Ha as [|? ? Hd Ha']; inversion Hb as [|? ? He Hb']; subst.
  injection Hl as Hl. rewrite !digits_value_cons in Hv. rewrite <- Hl in Hv.
  pose proof (digits_value_bound a Ha') as Ba.
  pose proof (digits_value_bound b Hb') as Bb. rewrite <- Hl in Bb.
  destruct (digit_split _ _ _ _ _ Ba Bb Hv) as [E E'].
  f_equal; [lia | now apply IH].
Qed.

(** The digits of a number are the only ones that write it without a
    leading zero. *)
Lemma decimal_digits_unique (d : N) (ds : list N) :
  all_digits (d :: ds) -> d <> 0%N ->
  decimal_digits (digits_value (d :: ds)) = d :: ds.
Proof.
  intros Ha Hd.
  pose proof (digits_value_bound _ Ha) as B.
  pose proof (digits_value_cons d ds) as C.
  inversion Ha as [|? ? Hd9 Ha']; subst.
  pose proof (digits_value_bound _ Ha') as B'.
  set (n := digits_value (d :: ds)) in *.
  assert (10 ^ Z.of_nat (length ds) <= n) as L.
  { rewrite C. assert (1 <= Z.of_N d) by lia.
    revert B'. generalize (10 ^ Z.of_nat (length ds)) (digits_value ds). intros q x B'. nia. }
  assert (Z.of_nat (length (decimal_digits n)) = Z.of_nat (length (d :: ds))) as E.
  { apply decimal_digits_length; [|cbn [length]; lia].
    split; [|exact (proj2 B)].
    replace (Z.of_nat (length (d :: ds)) - 1) with (Z.of_nat (length ds))
      by (cbn [length]; lia).
    exact L. }
  apply digits_value_inj.
  - apply decimal_digits_all. lia.
  - exact Ha.
  - lia.
  - apply decimal_digits_value. lia.
Qed.

(** The digits of a multiple of a power of ten. *)
Lemma decimal_digits_shift (d p : Z) :
  0 < d -> 0 <= p ->
  decimal_digits (d * 10 ^ p) = decimal_digits d ++ repeat 0%N (Z.to_nat p).
Proof.
  intros Hd Hp.
  destruct (decimal_digits_head d Hd) as (h & t & E & Hh).
  assert (digits_value (decimal_digits d ++ repeat 0%N (Z.to_nat p)) = d * 10 ^ p) as V.
  { rewrite digits_value_app, digits_value_zeros, repeat_length. rewrite Z2Nat.id by lia.
    rewrite decimal_digits_value by lia. lia. }
  rewrite <- V. rewrite E. cbn [app]. apply decimal_digits_unique; [|exact Hh].
  change (h :: t ++ repeat 0%N (Z.to_nat p)) with ((h :: t) ++ repeat 0%N (Z.to_nat p)).
  rewrite <- E. apply Forall_app. split; [apply decimal_digits_all; lia|].
  apply all_digits_zeros.
Qed.

(** *** Integers below 2^53 as decimals *)

Lemma small_exponent (s X : Z) : 0 < s -> 0 <= X -> s * 10 ^ X < 2 ^ 53 -> X < 16.
Proof.
  intros Hs HX H. destruct (Z.lt_ge_cases X 16) as [|G]; [assumption|exfalso].
  assert (10 ^ 16 <= 10 ^ X) as P by (apply Z.pow_le_mono_r; lia).
  assert (2 ^ 53 < 10 ^ 16) as Q by reflexivity.
  assert (0 < 10 ^ 16) as R by reflexivity.
  revert H P Q R. generalize (10 ^ X) (2 ^ 53) (10 ^ 16). intros a b c H P Q R. nia.
Qed.

Lemma decimal_to_number_integer (s X : Z) :
  0 < s -> 0 <= X -> s * 10 ^ X < 2 ^ 53 ->
  decimal_to_number false s X = Finite false (s * 10 ^ X * 2 ^ 1074).
Proof.
  intros Hs HX H. pose proof (small_exponent s X Hs HX H) as HX'.
  unfold decimal_to_number.
  destruct (Z.eqb_spec s 0); [lia|].
  destruct (Z.ltb_spec 400 X); [lia|].
  pose proof (Z.log2_nonneg s).
  destruct (Z.ltb_spec (Z.log2 s + 1) (3 * (- X - 400))); [lia|].
  destruct (Z.leb_spec 0 X); [|lia].
  rewrite <- (Z.mul_1_r (s * 10 ^ X * 2 ^ 1074)) at 1.
  assert (0 < 10 ^ X) by (apply pow10_pos; lia).
  apply round_ratio_exact; [ | lia | apply representable_scaled; [|lia] ].
  - apply Z.mul_nonneg_nonneg; [|pose proof (pow2_pos 1074); lia].
    apply Z.mul_nonneg_nonneg; lia.
  - split; [|exact H]. apply Z.mul_nonneg_nonneg; lia.
Qed.

Lemma floor_scaled_integer (n p : Z) :
  0 <= p -> floor_scaled (n * 2 ^ 1074) p = n / 10 ^ p.
Proof.
  intros Hp. unfold floor_scaled. destruct (Z.leb_spec 0 p); [|lia].
  apply Z.div_mul_cancel_r.
  - pose proof (pow10_pos p Hp). lia.
  - pose proof (pow2_pos 1074). lia.
Qed.

(** A decimal with the value of another integer is no candidate. *)
Lemma candidate_other (n s e : Z) :
  0 < s -> 0 <= e - Z.of_nat (length (decimal_digits s)) ->
  s * 10 ^ (e - Z.of_nat (length (decimal_digits s))) < 2 ^ 53 ->
  s * 10 ^ (e - Z.of_nat (length (decimal_digits s))) <> n ->
  candidate_ok (n * 2 ^ 1074) s e = false.
Proof.
  intros Hs He Hb Hn. unfold candidate_ok.
  rewrite decimal_to_number_integer by assumption.
  cbn [number_eqb Bool.eqb andb].
  apply Z.eqb_neq. intros E. apply Hn.
  apply Z.mul_cancel_r in E; [exact E|]. pose proof (pow2_pos 1074). lia.
Qed.

Lemma candidate_same (n s e : Z) :
  0 < s -> 0 <= e - Z.of_nat (length (decimal_digits s)) ->
  n < 2 ^ 53 ->
  s * 10 ^ (e - Z.of_nat (length (decimal_digits s))) = n ->
  candidate_ok (n * 2 ^ 1074) s e = true.
Proof.
  intros Hs He Hb Hn. unfold candidate_ok.
  rewrite decimal_to_number_integer by (try assumption; lia).
  cbn [number_eqb Bool.eqb andb]. apply Z.eqb_eq. now rewrite Hn.
Qed.

(** The digits that are found for an integer: those of the integer
    without its final zeros. *)
Lemma shortest_from_integer (n n0 : Z) (fuel : nat) :
  0 < n < 2 ^ 52 -> 10 ^ (n0 - 1) <= n < 10 ^ n0 ->
  forall len, 1 <= len <= n0 -> n0 - len < Z.of_nat fuel ->
  exists d L,
    shortest_from fuel (n * 2 ^ 1074) n0 len = Some (d, n0) /\
    len <= L <= n0 /\ Z.of_nat (length (decimal_digits d)) = L /\ 0 < d /\
    d * 10 ^ (n0 - L) = n.
Proof.
  intros Hn Hn0. induction fuel as [|f IH]; intros len Hlen Hf; [lia|].
  cbn [shortest_from]. cbv zeta.
  rewrite floor_scaled_integer by lia.
  set (p := n0 - len).
  assert (0 < 10 ^ p) as Pp by (apply pow10_pos; lia).
  assert (10 ^ n0 = 10 ^ len * 10 ^ p) as Split
    by (rewrite <- Z.pow_add_r by lia; f_equal; lia).
  assert (10 ^ (n0 - 1) = 10 ^ (len - 1) * 10 ^ p) as Split'
    by (rewrite <- Z.pow_add_r by lia; f_equal; lia).
  set (lo := n / 10 ^ p).
  assert (lo * 10 ^ p <= n < (lo + 1) * 10 ^ p) as Hlo.
  { unfold lo. pose proof (Z.mul_div_le n (10 ^ p) Pp).
    pose proof (Z.mul_succ_div_gt n (10 ^ p) Pp). lia. }
  assert (10 ^ (len - 1) <= lo < 10 ^ len) as Blo.
  { split.
    - apply Z.div_le_lower_bound; [exact Pp|]. rewrite Z.mul_comm. lia.
    - apply Z.div_lt_upper_bound; [exact Pp|]. rewrite Z.mul_comm. lia. }
  assert (0 < lo) as Plo by (pose proof (pow10_pos (len - 1)); lia).
  assert (Z.of_nat (length (decimal_digits lo)) = len) as Dlo
    by (apply decimal_digits_length; lia).
  assert (10 ^ p <= n) as Small.
  { apply Z.le_trans with (10 ^ (n0 - 1)); [|lia].
    apply Z.pow_le_mono_r; lia. }
  assert ((lo + 1) * 10 ^ p < 2 ^ 53) as Bhi.
  { change (2 ^ 53) with (2 * 2 ^ 52). lia. }
  destruct (Z.leb_spec (10 ^ (len - 1)) lo) as [_|]; [|lia]. cbn [andb].
  (* the decimal above the integer is no candidate *)
  assert (candidate_ok (n * 2 ^ 1074)
            (fst (if lo + 1 =? 10 ^ len then (10 ^ (len - 1), n0 + 1) else (lo + 1, n0)))
            (snd (if lo + 1 =? 10 ^ len then (10 ^ (len - 1), n0 + 1) else (lo + 1, n0)))
          = false) as ->.
  { destruct (Z.eqb_spec (lo + 1) (10 ^ len)) as [E | NE]; cbn [fst snd].
    - assert (0 < 10 ^ (len - 1)) by (apply pow10_pos; lia).
      assert (Z.of_nat (length (decimal_digits (10 ^ (len - 1)))) = len) as D.
      { apply decimal_digits_length; [|lia]. split; [lia|].
        apply Z.pow_lt_mono_r; lia. }
      assert (10 ^ (len - 1) * 10 ^ (n0 + 1 - len) = (lo + 1) * 10 ^ p) as V.
      { rewrite E, <- !Z.pow_add_r by lia. f_equal. lia. }
      apply candidate_other; rewrite ?D, ?V; try lia.
    - assert (Z.of_nat (length (decimal_digits (lo + 1))) = len) as D
        by (apply decimal_digits_length; lia).
      apply candidate_other; rewrite ?D; fold p; lia. }
  destruct (Z.eq_dec (lo * 10 ^ p) n) as [E | NE].
  - rewrite candidate_same; [ | exact Plo | rewrite Dlo; lia
                              | change (2 ^ 53) with (2 * 2 ^ 52); lia
                              | rewrite Dlo; exact E ].
    exists lo, len. repeat split; try lia. exact E.
  - rewrite candidate_other; [ | exact Plo | rewrite Dlo; lia
                               | rewrite Dlo; fold p; lia
                               | rewrite Dlo; exact NE ].
    assert (len < n0) as Lt.
    { destruct (Z.eq_dec len n0) as [-> | ]; [|lia]. exfalso. apply NE.
      unfold lo, p. rewrite Z.sub_diag. change (10 ^ 0) with 1.
      rewrite Z.div_1_r. lia. }
    destruct (IH (len + 1)) as (d & L & H1 & H2 & H3 & H4 & H5); [lia | lia |].
    exists d, L. repeat split; try assumption; lia.
Qed.

(** The text of a Number whose shortest digits are known. *)
Lemma Number_toString_shortest (k d n0 : Z) :
  k <> 0 -> shortest k = Some (d, n0) ->
  Number_toString (Finite false k) = format_decimal (decimal_digits d) n0.
Proof.
  intros NZ H. unfold Number_toString.
  destruct (Z.eqb_spec k 0); [contradiction|]. cbn [app]. now rewrite H.
Qed.

(** Digits that fill the integer part are written with zeros after them. *)
Lemma format_decimal_integer (d n0 L : Z) :
  0 < d -> Z.of_nat (length (decimal_digits d)) = L -> 1 <= L <= n0 -> n0 <= 21 ->
  format_decimal (decimal_digits d) n0 = digit_chars (decimal_digits (d * 10 ^ (n0 - L))).
Proof.
  intros Pd HL B1 B2. unfold format_decimal. rewrite HL.
  destruct (Z.leb_spec L n0); [|lia]. destruct (Z.leb_spec n0 21); [|lia]. cbn [andb].
  now rewrite decimal_digits_shift, digit_chars_app, zeros_chars by lia.
Qed.

(** Bounds by powers of ten, with the scale [10^e] removed. *)
Lemma scaled_bounds (n n0 e : Z) :
  0 <= e -> 0 < n ->
  10 ^ (n0 + (e - 1)) <= n * 10 ^ e < 10 ^ (n0 + e) ->
  1 <= n0 /\ 10 ^ (n0 - 1) <= n < 10 ^ n0.
Proof.
  intros He Pn [Lo Hi].
  assert (0 < 10 ^ e) as P10 by (apply pow10_pos; lia).
  assert (1 <= n0) as N1.
  { destruct (Z.lt_ge_cases n0 1) as [Lt|]; [exfalso | assumption].
    assert (10 ^ (n0 + e) <= 10 ^ e) by (apply Z.pow_le_mono_r; lia).
    revert Hi P10 H. generalize (10 ^ (n0 + e)) (10 ^ e). intros a b Hi P10 H. nia. }
  split; [exact N1|].
  replace (n0 + (e - 1)) with ((n0 - 1) + e) in Lo by lia.
  rewrite Z.pow_add_r in Lo, Hi by lia.
  revert Lo Hi P10. generalize (10 ^ (n0 - 1)) (10 ^ n0) (10 ^ e).
  intros a b c Lo Hi P10. split; nia.
Qed.

Lemma digits_below_17 (n n0 : Z) : n < 2 ^ 52 -> 10 ^ (n0 - 1) <= n -> n0 < 17.
Proof.
  intros Hn B.
  destruct (Z.lt_ge_cases n0 17) as [|G]; [assumption|exfalso].
  assert (10 ^ 16 <= 10 ^ (n0 - 1)) by (apply Z.pow_le_mono_r; lia).
  assert (2 ^ 52 < 10 ^ 16) by reflexivity. lia.
Qed.

Lemma integer_below_threshold (n : Z) :
  0 < n < 2 ^ 52 -> 0 < n * 2 ^ 1074 < overflow_threshold.
Proof.
  intros Hn. split.
  - apply Z.mul_pos_pos; [lia | apply pow2_pos; lia].
  - assert (representable (n * 2 ^ 1074)) as Rk
      by (apply representable_scaled; [change (2 ^ 53) with (2 * 2 ^ 52)|]; lia).
    destruct Rk as (m & F & _ & _ & _ & T). exact T.
Qed.

(** The decimal exponent of an integer below 2^52 is its number of
    digits. *)
Lemma decimal_exponent_integer (n : Z) :
  0 < n < 2 ^ 52 ->
  10 ^ (decimal_exponent (n * 2 ^ 1074) - 1) <= n < 10 ^ decimal_exponent (n * 2 ^ 1074) /\
  1 <= decimal_exponent (n * 2 ^ 1074) < 17.
Proof.
  intros Hn.
  destruct (decimal_exponent_spec (n * 2 ^ 1074) (integer_below_threshold n Hn))
    as (_ & Lo & Hi).
  revert Lo Hi. generalize (decimal_exponent (n * 2 ^ 1074)). intros n0 Lo Hi.
  assert (n * 2 ^ 1074 * 5 ^ 1074 = n * 10 ^ 1074) as K
    by (now rewrite pow10_split, Z.mul_assoc).
  rewrite K in Lo, Hi. clear K.
  destruct (scaled_bounds n n0 1074 ltac:(discriminate) (proj1 Hn) (conj Lo Hi)) as (N1 & B).
  split; [exact B|]. split; [exact N1|].
  exact (digits_below_17 n n0 (proj2 Hn) (proj1 B)).
Qed.

(** Number::toString of an integer below 2^52: its decimal digits. *)
Lemma Number_toString_integer (n : Z) :
  0 <= n < 2 ^ 52 -> Number_toString (of_Z n) = digit_chars (decimal_digits n).
Proof.
  intros Hn. rewrite of_Z_exact by (change (2 ^ 53) with (2 * 2 ^ 52); lia).
  destruct (Z.eq_dec n 0) as [-> | NZ]; [reflexivity|].
  assert (0 < n < 2 ^ 52) as Pn by lia.
  destruct (decimal_exponent_integer n Pn) as (B & N1 & N17).
  assert (decimal_exponent (n * 2 ^ 1074) - 1 < Z.of_nat 1400) as A2
    by (change (Z.of_nat 1400) with 1400; lia).
  destruct (shortest_from_integer n (decimal_exponent (n * 2 ^ 1074)) 1400 Pn B 1
              (conj (Z.le_refl 1) N1) A2)
    as (d & L & H1 & H2 & H3 & H4 & H5).
  rewrite <- shortest_unfold in H1.
  assert (n * 2 ^ 1074 <> 0) as NK
    by (pose proof (pow2_pos 1074 ltac:(lia)); apply Z.neq_mul_0; lia).
  rewrite (Number_toString_shortest _ _ _ NK H1).
  rewrite (format_decimal_integer d _ L H4 H3) by lia.
  now rewrite H5.
Qed.

End IntegerText.

Module NonEmpty.

Import Num NumText Str JSON Translate Properties NumFacts ControlFlow
  DigitFacts ShortestFacts ParseFacts WrittenFacts Notions.

Lemma format_decimal_not_empty (digits : list N) (n : Z) :
  digits <> [] -> format_decimal digits n <> [].
Proof.
  intros NE. destruct digits as [|d ds]; [contradiction|].
  unfold format_decimal.
  destruct (_ && _)%bool; [discriminate|].
  destruct (_ && _)%bool.
  { destruct (Z.to_nat n); cbn [firstn digit_chars map app]; discriminate. }
  destruct (_ && _)%bool; [discriminate|].
  unfold exponential. cbn [digit_chars map]. destruct (map _ ds); discriminate.
Qed.

Lemma Number_toString_not_empty (x : number) : is_Number x -> Number_toString x <> [].
Proof.
  destruct x as [| s | s k]; [discriminate | destruct s; discriminate |].
  intros [Hk _]. unfold Number_toString.
  destruct (Z.eqb_spec k 0) as [|NZ]; [discriminate|].
  assert (match shortest k with
          | Some (digits, n) => format_decimal (decimal_digits digits) n
          | None => str "NaN"
          end <> []) as F.
  { destruct (shortest k) as [[d n]|] eqn:E; [|discriminate].
    apply format_decimal_not_empty.
    destruct (shortest_sound k d n ltac:(lia) E) as [Hd _].
    apply decimal_digits_nonempty. lia. }
  destruct s; [discriminate|]. exact F.
Qed.

(** The text written for a value is never empty. *)
Lemma JSON_stringify_not_empty (v : value) (space : nat) :
  well_formed v -> JSON_stringify v space <> [].
Proof.
  intros H. unfold JSON_stringify.
  destruct v as [| [|] | n | s | [|e l] | [|m l]]; try discriminate.
  - inversion H; subst. cbn [SerializeJSONProperty].
    destruct (is_finite n); [now apply Number_toString_not_empty | discriminate].
  - cbn [SerializeJSONProperty]. unfold wrap. destruct (repeat 32%N space); discriminate.
  - cbn [SerializeJSONProperty]. unfold wrap. destruct (repeat 32%N space); discriminate.
Qed.

(** Where the empty result comes from. *)
Lemma attempt_returned_empty w url key text targetLang signal p s :
  fst (attempt w url key text targetLang signal p s) = Returned [] ->
  exists time, aborted signal time = true.
Proof.
  unfold attempt.
  destruct (fetch w url _) as [response | reason]; [|discriminate].
  destruct (negb (ok response)).
  { destruct (_ =? 401); [|destruct (_ =? 429)]; discriminate. }
  destruct (body response) as [reader|]; [|discriminate].
  destruct (read_all w _ p s _ (chunks reader)) as [st events].
  destruct (ending reader); [|discriminate].
  cbv zeta. destruct (JSON_parse _) as [v|] eqn:E.
  - destruct (stringify_RangeError w v).
    + destruct (aborted signal _) eqn:A; [|discriminate]. eauto.
    + intros H. injection H as H. exfalso.
      apply (JSON_stringify_not_empty v 2); [|exact H].
      exact (JSON_parse_well_formed _ _ E).
  - destruct (aborted signal _) eqn:A; [|discriminate]. eauto.
Qed.

(** What the [try] block throws is an Error of its own or what the
    platform rejected a promise with. *)
Lemma attempt_threw_rejected w text targetLang signal p s error time :
  fst (attempt w (from_env (NEXT_PUBLIC_GEMINI_API_URL w))
         (from_env (NEXT_PUBLIC_GEMINI_API_KEY w)) text targetLang signal p s)
  = Threw error time ->
  (exists message, error = Error message) \/
  rejected w text targetLang signal error time.
Proof.
  unfold attempt.
  destruct (fetch w _ _) as [response | reason] eqn:Hf.
  2:{ intros H. injection H as <- <-. right. now apply rejected_fetch. }
  destruct (ok response) eqn:Hok; cbn [negb].
  2:{ destruct (_ =? 401); [|destruct (_ =? 429)]; intros H; injection H as <- _;
        left; eauto. }
  destruct (body response) as [reader|] eqn:Hb.
  2:{ intros H. injection H as <- _. left. eauto. }
  destruct (read_all w _ p s _ (chunks reader)) as [st events].
  destruct reader as [values [|reason]]; cbn [chunks ending].
  - cbv zeta.
    destruct (JSON_parse _) as [v|]; [destruct (stringify_RangeError w v)|];
      try discriminate;
      (destruct (aborted _ _); [discriminate|]; intros H; injection H as <- _; left; eauto).
  - intros H. injection H as <- <-. right.
    now apply (rejected_read w text targetLang signal response values reason).
Qed.


End NonEmpty.

(** * The properties of the specification *)

Module Specification.

Import Num NumText Str JSON Translate Properties Examples NumFacts ControlFlow ProgressFacts StringFacts ParseFacts CleanFacts WrittenFacts FenceFacts NonEmpty Notions.

(** Closed statements about the examples are settled by evaluation. *)
Ltac evaluate :=
  repeat match goal with |- _ /\ _ => apply conj; [vm_compute; reflexivity|] end;
  vm_compute; reflexivity.

(** ** Completion *)

(** C1 (amended): when the stream completes and the cleaned accumulated
    buffer is a JSON text, the call resolves to the value of that text
    written again with an indentation of 2 spaces, unless the value is
    nested too deeply for the stack of the engine: the RangeError of
    [JSON.stringify] is then caught at line 160 like a failure of the
    parse.  The returned string parses back to the value with every
    infinity replaced by null and negative zero by zero; it is the same
    value exactly when every number in it is finite and none is negative
    zero. *)
Theorem translate_returns_reserialized w text targetLang signal p s values v :
  configured w ->
  completes w text targetLang signal values ->
  JSON_parse (cleanJsonString (accumulated w values)) = Some v ->
  fst (translate w text targetLang signal p s) =
  match stringify_RangeError w v with
  | None => Resolves (JSON_stringify v 2)
  | Some message =>
      if aborted signal (S (length values)) then Resolves []
      else Rejects (Error (str "Invalid translation result format: " ++ message))
  end /\
  JSON_parse (JSON_stringify v 2) = Some (written v) /\
  (JSON_parse (JSON_stringify v 2) = Some v <-> numbers_written_exactly v).
Proof.
  intros Hc Hs Hp.
  pose proof (JSON_parse_well_formed _ _ Hp) as Hwf.
  split; [|split].
  - rewrite (translate_completes w text targetLang signal p s values Hc Hs).
    cbv zeta. now rewrite Hp.
  - now apply JSON_parse_written.
  - rewrite (JSON_parse_written v Hwf). split.
    + intros E. injection E as E. now apply written_fixed.
    + intros H. now rewrite written_exact.
Qed.

(** The translation of the example, delivered in two fragments, comes
    back indented and reads back as the same value. *)
Lemma translate_returns_reserialized_example :
  fst (translate (endpoint (streaming translation)) source French None true true)
  = Resolves (JSON_stringify translated 2) /\
  JSON_parse (JSON_stringify translated 2) = Some (written translated) /\
  (JSON_parse (JSON_stringify translated 2) = Some translated
   <-> numbers_written_exactly translated).
Proof.
  apply (translate_returns_reserialized
           (endpoint (streaming translation)) source French None true true
           translation translated).
  - split; reflexivity.
  - eexists. repeat split; reflexivity.
  - vm_compute. reflexivity.
Defined.

(** C1 as stated fails in three ways.  The buffer [{"n":1e999}] is valid
    JSON and parses to an object holding Infinity, which is written
    [null]: the returned string parses to an object holding null.  The
    buffer [{"n":-0}] parses to an object holding negative zero, which is
    written [0]: the returned string parses to an object holding zero.
    And for a buffer of 1001 arrays one inside the other, on an engine
    whose stack has room for 1000 levels, the call does not resolve: it
    rejects with the message of the RangeError. *)
Lemma reserialization_not_faithful :
  completes (endpoint (streaming overflowing)) source French None overflowing /\
  JSON_parse (cleanJsonString (accumulated (endpoint (streaming overflowing)) overflowing))
  = Some (Object [(str "n", Number (Infinity false))]) /\
  fst (translate (endpoint (streaming overflowing)) source French None true true)
  = Resolves (str "{" ++ [LF] ++ qstr "  'n': null" ++ [LF] ++ str "}") /\
  JSON_parse (str "{" ++ [LF] ++ qstr "  'n': null" ++ [LF] ++ str "}")
  = Some (Object [(str "n", Null)]) /\
  Object [(str "n", Null)] <> Object [(str "n", Number (Infinity false))] /\
  completes (endpoint (streaming negative_zero)) source French None negative_zero /\
  JSON_parse
    (cleanJsonString (accumulated (endpoint (streaming negative_zero)) negative_zero))
  = Some (Object [(str "n", Number (Finite true 0))]) /\
  fst (translate (endpoint (streaming negative_zero)) source French None true true)
  = Resolves (str "{" ++ [LF] ++ qstr "  'n': 0" ++ [LF] ++ str "}") /\
  JSON_parse (str "{" ++ [LF] ++ qstr "  'n': 0" ++ [LF] ++ str "}")
  = Some (Object [(str "n", Number (Finite false 0))]) /\
  Object [(str "n", Number (Finite false 0))] <> Object [(str "n", Number (Finite true 0))] /\
  completes (endpoint (streaming deep)) source French None deep /\
  (exists v,
     JSON_parse (cleanJsonString (accumulated (endpoint (streaming deep)) deep)) = Some v) /\
  fst (translate (endpoint (streaming deep)) source French None true true)
  = Rejects (Error (str "Invalid translation result format: "
                      ++ str "Maximum call stack size exceeded")).
Proof.
  split; [eexists; repeat split; reflexivity|].
  do 3 (apply conj; [vm_compute; reflexivity|]).
  split; [discriminate|].
  split; [eexists; repeat split; reflexivity|].
  do 3 (apply conj; [vm_compute; reflexivity|]).
  split; [discriminate|].
  split; [eexists; repeat split; reflexivity|].
  split; [eexists; vm_compute; reflexivity|].
  vm_compute. reflexivity.
Qed.

(** ** Cancellation and errors *)




(** C3: when the stream completes, the cleaned accumulated buffer is no
    JSON text and the signal is not aborted, the call rejects with an
    Error whose message is [Invalid translation result format: ] followed
    by the message of the parser's SyntaxError. *)
Theorem invalid_result_rejects w text targetLang signal p s values :
  configured w ->
  completes w text targetLang signal values ->
  JSON_parse (cleanJsonString (accumulated w values)) = None ->
  aborted signal (S (length values)) = false ->
  fst (translate w text targetLang signal p s)
  = Rejects (Error (str "Invalid translation result format: "
                      ++ SyntaxError_message w (cleanJsonString (accumulated w values)))).
Proof.
  intros Hc Hs Hp Ha.
  rewrite (translate_completes w text targetLang signal p s values Hc Hs).
  cbv zeta. now rewrite Hp, Ha.
Qed.

(** The three stream lines of the specification accumulate [ok], which
    is no JSON text. *)
Lemma invalid_result_rejects_example :
  fst (translate (endpoint (streaming [three_lines])) source French None true true)
  = Rejects (Error (str "Invalid translation result format: "
                      ++ SyntaxError_message (endpoint (streaming [three_lines]))
                           (cleanJsonString
                              (accumulated (endpoint (streaming [three_lines]))
                                 [three_lines])))).
Proof.
  apply (invalid_result_rejects
           (endpoint (streaming [three_lines])) source French None true true [three_lines]).
  - split; reflexivity.
  - eexists. repeat split; reflexivity.
  - vm_compute. reflexivity.
  - reflexivity.
Defined.

(** C4: when the response is no success and the signal is not aborted,
    the call rejects, without any call to the callbacks: for status 401
    with [Invalid or expired API Key], for status 429 with [API call
    limit reached], and for any other status with [API request failed
    with status ] followed by the status as a Number is written. *)
Theorem http_status_rejects w text targetLang signal p s response :
  configured w ->
  fetched w text targetLang signal = Fulfilled response ->
  ok response = false ->
  aborted signal 0 = false ->
  translate w text targetLang signal p s =
  (Rejects
     (Error
        (if status response =? 401 then str "Invalid or expired API Key"
         else if status response =? 429 then str "API call limit reached"
         else str "API request failed with status "
                ++ Number_toString (of_Z (status response)))),
   []).
Proof.
  intros Hc Hf Hok Ha. rewrite (translate_configured _ _ _ _ _ _ Hc).
  unfold attempt. unfold fetched in Hf. rewrite Hf, Hok. simpl negb. cbv iota.
  destruct (status response =? 401); [|destruct (status response =? 429)];
    unfold handler; rewrite Ha; reflexivity.
Qed.

(** Status 503. *)
Lemma http_status_rejects_example :
  translate (endpoint (answering 503)) source French None true true =
  (Rejects
     (Error
        (if status {| status := 503; body := None |} =? 401
         then str "Invalid or expired API Key"
         else if status {| status := 503; body := None |} =? 429
         then str "API call limit reached"
         else str "API request failed with status "
                ++ Number_toString (of_Z (status {| status := 503; body := None |})))),
   []).
Proof.
  apply (http_status_rejects (endpoint (answering 503)) source French None true true
           {| status := 503; body := None |}).
  - split; reflexivity.
  - reflexivity.
  - reflexivity.
  - reflexivity.
Defined.

(** The three messages, written out. *)
Lemma http_status_messages :
  fst (translate (endpoint (answering 401)) source French None true true)
  = Rejects (Error (str "Invalid or expired API Key")) /\
  fst (translate (endpoint (answering 429)) source French None true true)
  = Rejects (Error (str "API call limit reached")) /\
  fst (translate (endpoint (answering 503)) source French None true true)
  = Rejects (Error (str "API request failed with status 503")) /\
  fst (translate (endpoint (answering 404)) source French None true true)
  = Rejects (Error (str "API request failed with status 404")).
Proof. evaluate. Qed.

(** C9: once both variables of the environment are present, an error
    raised while the signal is aborted (a rejected [fetch], a response
    that is no success whatever its status, a response without body, a
    rejected read, a buffer that is no JSON text or whose value is nested
    too deeply to be written) makes the call resolve to the empty string:
    the handler returns it for every caught value. *)
Theorem aborted_signal_masks_errors w text targetLang signal p s time :
  configured w ->
  raises w text targetLang signal time ->
  aborted signal time = true ->
  fst (translate w text targetLang signal p s) = Resolves [] /\
  forall error, handler signal error time = Resolves [].
Proof.
  intros Hc Hr Ha. split.
  - exact (raises_aborted w text targetLang signal p s time Hc Hr Ha).
  - intros error. unfold handler. now rewrite Ha.
Qed.

(** Status 401 under an aborted signal. *)
Lemma aborted_signal_masks_errors_example :
  fst (translate (endpoint (answering 401)) source French aborted_signal true true)
  = Resolves [] /\
  forall error, handler aborted_signal error 0 = Resolves [].
Proof.
  apply (aborted_signal_masks_errors
           (endpoint (answering 401)) source French aborted_signal true true 0).
  - split; reflexivity.
  - apply (status_not_ok _ _ _ _ {| status := 401; body := None |}); reflexivity.
  - reflexivity.
Defined.

(** ** Progress *)

(** C5: for a source text that is not empty (and of a length a String can
    have), the values passed to [onProgress] are integers from 0 to 100,
    each at most equal to every later one. *)
Theorem progress_bounded_and_monotone w text targetLang signal p s :
  text <> [] ->
  Z.of_nat (length text) < 2 ^ 53 ->
  exists ns : list Z,
    progress_values (snd (translate w text targetLang signal p s)) = map of_Z ns /\
    Forall (fun n => 0 <= n <= 100) ns /\
    StronglySorted Z.le ns.
Proof.
  intros Ht Hl.
  destruct (translate_events w text targetLang signal p s)
    as [E | (response & reader & _ & _ & _ & E)]; rewrite E.
  - exists []. repeat split; constructor.
  - rewrite (estimatedTokens_exact text Hl).
    assert (0 < Z.of_nat (length text) * 2 ^ 1072) as L.
    { apply Z.mul_pos_pos; [|apply pow2_pos; lia].
      destruct text; [now elim Ht | simpl length; lia]. }
    assert (nonneg (tokenCount {| fullContent := []; tokenCount := of_Z 0 |})) as H0.
    { apply of_Z_nonneg. lia. }
    destruct (read_all_progress _ L w p s (chunks reader) _ H0) as (ns & E1 & B & S).
    exists ns. repeat split; try assumption.
    eapply Forall_impl; [|exact B]. cbv beta. intros n Hn.
    pose proof (pct_range _ L _ H0). lia.
Qed.

(** The progress of the example: 63, then 100. *)
Lemma progress_bounded_and_monotone_example :
  exists ns : list Z,
    progress_values
      (snd (translate (endpoint (streaming translation)) source French None true true))
    = map of_Z ns /\
    Forall (fun n => 0 <= n <= 100) ns /\
    StronglySorted Z.le ns.
Proof.
  apply (progress_bounded_and_monotone
           (endpoint (streaming translation)) source French None true true).
  - discriminate.
  - vm_compute. reflexivity.
Defined.

(** C6 (amended): after each received fragment the value passed to
    [onProgress] is [min(round((total/4) / (sourceText.length/4) * 100), 100)]
    evaluated over Numbers in this order, with [total] the length of all
    deltas appended so far: the quotient is rounded before it is
    multiplied by 100. *)
Theorem progress_after_each_fragment w text targetLang signal s response reader :
  configured w ->
  fetched w text targetLang signal = Fulfilled response ->
  ok response = true ->
  body response = Some reader ->
  Z.of_nat (length text) < 2 ^ 53 ->
  Z.of_nat (length (accumulated w (chunks reader))) < 2 ^ 53 ->
  progress_values (snd (translate w text targetLang signal true s)) =
  map (fun total =>
         Math_min
           (Math_round
              (fmul (fdiv (fdiv (of_nat total) (of_Z 4))
                          (fdiv (of_nat (length text)) (of_Z 4)))
                    (of_Z 100)))
           (of_Z 100))
      (running_totals w 0 (chunks reader)).
Proof.
  intros Hc Hf Hok Hb Hl Ha.
  rewrite (translate_reads w text targetLang signal true s response reader Hc Hf Hok Hb).
  rewrite (estimatedTokens_exact text Hl).
  rewrite (read_all_tokenCount _ w true s (chunks reader) _ 0%nat);
    [reflexivity | | exact Ha].
  cbn [tokenCount]. vm_compute. reflexivity.
Qed.

(** 29 of 200 code units: the call reports 14. *)
Lemma progress_after_each_fragment_example :
  progress_values
    (snd (translate (endpoint (streaming [delta29])) text200 French None true true)) =
  map (fun total =>
         Math_min
           (Math_round
              (fmul (fdiv (fdiv (of_nat total) (of_Z 4))
                          (fdiv (of_nat (length text200)) (of_Z 4)))
                    (of_Z 100)))
           (of_Z 100))
      (running_totals (endpoint (streaming [delta29])) 0 [delta29]).
Proof.
  apply (progress_after_each_fragment
           (endpoint (streaming [delta29])) text200 French None true
           {| status := 200; body := Some {| chunks := [delta29]; ending := Closed |} |}
           {| chunks := [delta29]; ending := Closed |}).
  - split; reflexivity.
  - reflexivity.
  - reflexivity.
  - reflexivity.
  - vm_compute. reflexivity.
  - vm_compute. reflexivity.
Defined.

(** C6 as stated fails.  With 29 of 200 code units accumulated the call
    reports 14, while the formula of the claim gives 15, evaluated over
    Numbers as well as over the rationals with ties rounded upwards: the
    quotient 7.25 / 50 rounds below 0.145, so the product is below 14.5.
    Rounding ties to even does not save the formula: with 1 of 8 code
    units the call reports 13 and the formula then gives 12. *)
Lemma progress_formula_differs :
  progress_values
    (snd (translate (endpoint (streaming [delta29])) text200 French None true true))
  = [of_Z 14] /\
  running_totals (endpoint (streaming [delta29])) 0 [delta29] = [29%nat] /\
  length text200 = 200%nat /\
  specified_progress 29 200 = of_Z 15 /\
  specified_progress_ties_up 29 200 = 15 /\
  number_eqb (of_Z 14) (of_Z 15) = false /\
  progress_values
    (snd (translate (endpoint (streaming [delta1])) text8 French None true true))
  = [of_Z 13] /\
  running_totals (endpoint (streaming [delta1])) 0 [delta1] = [1%nat] /\
  length text8 = 8%nat /\
  specified_progress_ties_even 1 8 = 12 /\
  number_eqb (of_Z 13) (of_Z 12) = false.
Proof.
  evaluate.
Qed.

(** ** The stream *)

(** C7: a line whose remainder after [data: ] is no JSON text, and the
    line [data: [DONE]], add nothing to the content of their fragment,
    which is that of its other lines; the three stream lines of the
    specification accumulate [ok], which is passed to [onStream], and a
    malformed line in front of a complete translation does not keep the
    call from resolving. *)
Theorem malformed_lines_are_skipped :
  (forall w line, malformed line = true -> line_content w line = []) /\
  (forall w line, terminal line = true -> line_content w line = []) /\
  (forall w value,
     chunk_content w value =
     concat (map (line_content w)
               (filter (fun line => negb (malformed line || terminal line))
                  (split LF (Utf8.decode value))))) /\
  malformed (str "data: {not json}") = true /\
  (forall w, accumulated w [three_lines] = str "ok") /\
  (forall w,
     accumulated w
       [event_line "data: {not json}"; delta_event "ok"; event_line "data: [DONE]"]
     = str "ok") /\
  stream_values
    (snd (translate (endpoint (streaming [three_lines])) source French None true true))
  = [str "ok"] /\
  fst (translate (endpoint (streaming with_malformed_line)) source French None true true)
  = Resolves (str "{" ++ [LF] ++ qstr "  'a': 'b'" ++ [LF] ++ str "}").
Proof.
  split; [exact line_content_malformed|].
  split; [exact line_content_terminal|].
  split.
  { intros w value. rewrite chunk_content_lines. symmetry. apply concat_map_filter.
    intros line H. apply negb_false_iff, orb_true_iff in H as [H | H].
    - now apply line_content_malformed.
    - now apply line_content_terminal. }
  split; [vm_compute; reflexivity|].
  split; [intros w; vm_compute; reflexivity|].
  split; [intros w; vm_compute; reflexivity|].
  evaluate.
Qed.




(** C10: the buffer is the concatenation of the contents of the
    fragments, each the content of the lines of that fragment alone.  The
    event line [data: {"choices":[{"delta":{"content":"ok"}}]}] delivered
    in one fragment adds [ok]; cut in two fragments, the first half is an
    event line whose remainder is no JSON text and the second half lacks
    the prefix: both add nothing, and [onStream] is passed the empty
    buffer twice. *)
Theorem line_framing_is_per_fragment :
  (forall w estimatedTokens p s st values,
     fullContent (fst (read_all w estimatedTokens p s st values))
     = fullContent st ++ concat (map (chunk_content w) values)) /\
  (forall w value,
     chunk_content w value
     = concat (map (line_content w) (split LF (Utf8.decode value)))) /\
  first_half ++ second_half = delta_event "ok" /\
  (forall w, accumulated w [first_half ++ second_half] = str "ok") /\
  split LF (Utf8.decode first_half) = [Utf8.decode first_half] /\
  malformed (Utf8.decode first_half) = true /\
  map (fun line => startsWith line (str "data: ")) (split LF (Utf8.decode second_half))
  = [false; false] /\
  (forall w, chunk_content w first_half = []) /\
  (forall w, chunk_content w second_half = []) /\
  (forall w, accumulated w [first_half; second_half] = []) /\
  stream_values
    (snd (translate (endpoint (streaming [first_half; second_half]))
            source French None true true))
  = [[]; []].
Proof.
  split; [exact read_all_fullContent|].
  split; [exact chunk_content_lines|].
  split; [vm_compute; reflexivity|].
  split; [intros w; vm_compute; reflexivity|].
  do 3 (split; [vm_compute; reflexivity|]).
  do 3 (split; [intros w; vm_compute; reflexivity|]).
  vm_compute. reflexivity.
Qed.

End Specification.

(** * Further properties of [translate] *)

Module Behaviour.

Import Num NumText Str JSON Translate Properties Examples NumFacts ControlFlow
  ProgressFacts StringFacts ObjectFacts ParseFacts CleanFacts WrittenFacts
  CompactRoundTrip ProgressEnds ValidJson Framing IntegerText NonEmpty
  Notions.

(** ** What a call can settle with *)

(** X1: whenever the call resolves, the result is the empty string or a
    JSON text in the form that [JSON.stringify(value, null, 2)] gives:
    it parses, and the parsed value written again is the same string. *)
Theorem resolved_result_is_json w text targetLang signal p s result :
  fst (translate w text targetLang signal p s) = Resolves result ->
  result = [] \/
  exists v, JSON_parse result = Some v /\ JSON_stringify v 2 = result.
Proof.
  unfold translate.
  destruct (missing (NEXT_PUBLIC_GEMINI_API_KEY w)); [discriminate|].
  destruct (missing (NEXT_PUBLIC_GEMINI_API_URL w)); [discriminate|].
  destruct (attempt _ _ _ _ _ _ _ _) as [[r | error time] events] eqn:A; cbn [fst].
  - intros H. injection H as <-.
    assert (fst (attempt w (from_env (NEXT_PUBLIC_GEMINI_API_URL w))
                   (from_env (NEXT_PUBLIC_GEMINI_API_KEY w))
                   text targetLang signal p s) = Returned r) as R
      by (unfold from_env; now rewrite A).
    destruct (attempt_returned _ _ _ _ _ _ _ _ _ R) as [-> | (cleaned & v & Hp & ->)];
      [now left | right].
    exists (written v). split.
    + apply JSON_parse_written. exact (JSON_parse_well_formed _ _ Hp).
    + apply JSON_stringify_written.
  - unfold handler. destruct (_ || _).
    + intros H. injection H as <-. now left.
    + destruct (instanceof_Error error); discriminate.
Qed.

(** The translation of the example. *)
Lemma resolved_result_is_json_example :
  JSON_stringify translated 2 = [] \/
  exists v,
    JSON_parse (JSON_stringify translated 2) = Some v /\
    JSON_stringify v 2 = JSON_stringify translated 2.
Proof.
  apply (resolved_result_is_json
           (endpoint (streaming translation)) source French None true true).
  vm_compute. reflexivity.
Defined.

(** X2: whatever the environment, the network and the signal, the call
    rejects with an Error only: never with an AbortError, and never with
    a value that is no Error. *)
Theorem rejection_is_an_Error w text targetLang signal p s reason :
  fst (translate w text targetLang signal p s) = Rejects reason ->
  instanceof_Error reason = true /\ is_AbortError reason = false.
Proof.
  unfold translate.
  destruct (missing (NEXT_PUBLIC_GEMINI_API_KEY w)).
  { intros H. injection H as <-. split; reflexivity. }
  destruct (missing (NEXT_PUBLIC_GEMINI_API_URL w)).
  { intros H. injection H as <-. split; reflexivity. }
  destruct (attempt _ _ _ _ _ _ _ _) as [[r | error time] events]; cbn [fst].
  - discriminate.
  - apply handler_rejects.
Qed.

(** A value that is no Error, rejected by [fetch], is replaced. *)
Lemma rejection_is_an_Error_example :
  instanceof_Error (Error (str "Unknown error occurred")) = true /\
  is_AbortError (Error (str "Unknown error occurred")) = false.
Proof.
  apply (rejection_is_an_Error
           (endpoint (Rejected (OtherValue (str "offline")))) source French None true true).
  vm_compute. reflexivity.
Defined.

(** X3: the call resolves to the empty string only after a
    cancellation: the signal is aborted, or the platform rejected the
    [fetch] or a read of the body with an AbortError.  A translation is
    never the empty string. *)
Theorem empty_result_means_cancelled w text targetLang signal p s :
  fst (translate w text targetLang signal p s) = Resolves [] ->
  (exists time, aborted signal time = true) \/
  (exists reason time,
     rejected w text targetLang signal reason time /\ is_AbortError reason = true).
Proof.
  unfold translate.
  destruct (missing (NEXT_PUBLIC_GEMINI_API_KEY w)); [discriminate|].
  destruct (missing (NEXT_PUBLIC_GEMINI_API_URL w)); [discriminate|].
  fold (from_env (NEXT_PUBLIC_GEMINI_API_URL w)) (from_env (NEXT_PUBLIC_GEMINI_API_KEY w)).
  destruct (attempt _ _ _ _ _ _ _ _) as [[r | error time] events] eqn:A; cbn [fst].
  - intros H. injection H as ->. left.
    apply (attempt_returned_empty w (from_env (NEXT_PUBLIC_GEMINI_API_URL w))
             (from_env (NEXT_PUBLIC_GEMINI_API_KEY w)) text targetLang signal p s).
    now rewrite A.
  - unfold handler. destruct (aborted signal time) eqn:Ha; [eauto|]. cbn [orb].
    destruct (is_AbortError error) eqn:Hab.
    + intros _. right. exists error, time. split; [|exact Hab].
      destruct (attempt_threw_rejected w text targetLang signal p s error time)
        as [(message & ->) | R]; [now rewrite A | discriminate Hab | exact R].
    + destruct (instanceof_Error error); discriminate.
Qed.

(** A [fetch] rejected with an AbortError, without signal. *)
Lemma empty_result_means_cancelled_example :
  (exists time, aborted None time = true) \/
  (exists reason time,
     rejected (endpoint (Rejected AbortError)) source French None reason time /\
     is_AbortError reason = true).
Proof.
  apply (empty_result_means_cancelled
           (endpoint (Rejected AbortError)) source French None true true).
  reflexivity.
Defined.

(** ** Errors *)

(** X4: when the API key is unset or empty the call rejects with
    [API_KEY not configured], and otherwise, when the URL is unset or
    empty, with [API_URL not configured]; no callback is called, and an
    aborted signal does not turn these errors into the empty result. *)
Theorem missing_configuration_rejects w text targetLang signal p s :
  missing (NEXT_PUBLIC_GEMINI_API_KEY w) || missing (NEXT_PUBLIC_GEMINI_API_URL w) = true ->
  translate w text targetLang signal p s =
  (Rejects
     (Error (if missing (NEXT_PUBLIC_GEMINI_API_KEY w)
             then str "API_KEY not configured"
             else str "API_URL not configured")),
   []).
Proof.
  unfold translate. destruct (missing (NEXT_PUBLIC_GEMINI_API_KEY w)); [reflexivity|].
  cbn [orb]. intros ->. reflexivity.
Qed.

(** An empty key, under an aborted signal. *)
Lemma missing_configuration_rejects_example :
  translate (without_key (streaming translation)) source French aborted_signal true true =
  (Rejects
     (Error (if missing (NEXT_PUBLIC_GEMINI_API_KEY (without_key (streaming translation)))
             then str "API_KEY not configured"
             else str "API_URL not configured")),
   []).
Proof.
  apply (missing_configuration_rejects
           (without_key (streaming translation)) source French aborted_signal true true).
  reflexivity.
Defined.

(** X5: when the platform rejects the [fetch] or a read of the body and
    the signal is not aborted, an AbortError makes the call resolve to the
    empty string (with or without a signal), any other Error is passed on
    unchanged, and a value that is no Error is replaced by the Error
    [Unknown error occurred]. *)
Theorem platform_rejection_is_passed_on w text targetLang signal p s reason time :
  configured w ->
  rejected w text targetLang signal reason time ->
  aborted signal time = false ->
  fst (translate w text targetLang signal p s) =
  if is_AbortError reason then Resolves []
  else if instanceof_Error reason then Rejects reason
  else Rejects (Error (str "Unknown error occurred")).
Proof.
  intros Hc Hr Ha. rewrite (translate_configured _ _ _ _ _ _ Hc).
  destruct Hr as [reason Hf | response values reason Hf Hok Hb];
    unfold attempt; unfold fetched in Hf; rewrite Hf.
  - cbn [fst]. unfold handler. now rewrite Ha.
  - rewrite Hok, Hb. simpl negb. cbv iota. cbn [chunks ending].
    destruct (read_all w _ p s _ values) as [st events]. cbn [fst].
    unfold handler. now rewrite Ha.
Qed.

(** A failure of the network while the body is read. *)
Lemma platform_rejection_is_passed_on_example :
  fst (translate (endpoint (interrupted translation network_failure))
         source French None true true) =
  if is_AbortError network_failure then Resolves []
  else if instanceof_Error network_failure then Rejects network_failure
  else Rejects (Error (str "Unknown error occurred")).
Proof.
  apply (platform_rejection_is_passed_on
           (endpoint (interrupted translation network_failure))
           source French None true true network_failure (S (length translation))).
  - split; reflexivity.
  - apply (rejected_read _ _ _ _
             {| status := 200;
                body := Some {| chunks := translation; ending := Errored network_failure |} |});
      reflexivity.
  - reflexivity.
Defined.

(** X6: for a response that is no success, with a status other than
    401 and 429, the message of the Error ends with the status written
    in decimal digits. *)
Theorem request_failure_names_the_status w text targetLang signal p s response :
  configured w ->
  fetched w text targetLang signal = Fulfilled response ->
  ok response = false ->
  aborted signal 0 = false ->
  status response <> 401 ->
  status response <> 429 ->
  0 <= status response < 2 ^ 52 ->
  translate w text targetLang signal p s =
  (Rejects
     (Error (str "API request failed with status "
               ++ digit_chars (decimal_digits (status response)))),
   []).
Proof.
  intros Hc Hf Hok Ha H401 H429 Hs. rewrite (translate_configured _ _ _ _ _ _ Hc).
  unfold attempt. unfold fetched in Hf. rewrite Hf, Hok. cbn [negb].
  destruct (Z.eqb_spec (status response) 401); [contradiction|].
  destruct (Z.eqb_spec (status response) 429); [contradiction|].
  unfold handler. rewrite Ha. cbn [orb is_AbortError Error instanceof_Error].
  now rewrite Number_toString_integer.
Qed.

(** Status 503. *)
Lemma request_failure_names_the_status_example :
  translate (endpoint (answering 503)) source French None true true =
  (Rejects
     (Error (str "API request failed with status "
               ++ digit_chars (decimal_digits (status {| status := 503; body := None |})))),
   []).
Proof.
  apply (request_failure_names_the_status
           (endpoint (answering 503)) source French None true true
           {| status := 503; body := None |}).
  - split; reflexivity.
  - reflexivity.
  - reflexivity.
  - reflexivity.
  - discriminate.
  - discriminate.
  - split; [discriminate | reflexivity].
Defined.

(** X7: a success without body makes the call reject with
    [Stream not supported], without any callback; under a signal that is
    aborted by then the call resolves to the empty string instead. *)
Theorem response_without_body_rejects w text targetLang signal p s response :
  configured w ->
  fetched w text targetLang signal = Fulfilled response ->
  ok response = true ->
  body response = None ->
  translate w text targetLang signal p s =
  (if aborted signal 0 then Resolves []
   else Rejects (Error (str "Stream not supported")),
   []).
Proof.
  intros Hc Hf Hok Hb. rewrite (translate_configured _ _ _ _ _ _ Hc).
  unfold attempt. unfold fetched in Hf. rewrite Hf, Hok, Hb. cbn [negb].
  unfold handler. now destruct (aborted signal 0).
Qed.

(** Status 204. *)
Lemma response_without_body_rejects_example :
  translate (endpoint (answering 204)) source French None true true =
  (Rejects (Error (str "Stream not supported")), []).
Proof.
  apply (response_without_body_rejects
           (endpoint (answering 204)) source French None true true
           {| status := 204; body := None |}).
  - split; reflexivity.
  - reflexivity.
  - reflexivity.
  - reflexivity.
Defined.

(** ** The callbacks *)

(** X8: for a response with a body, each callback is called once for
    every fragment that the reader delivers, [onProgress] before
    [onStream]; [onStream] is passed the whole buffer so far, that is the
    deltas of the fragments up to this one; and what one callback is
    passed does not depend on whether the other one is given. *)
Theorem callbacks_once_per_fragment w text targetLang signal response reader :
  configured w ->
  fetched w text targetLang signal = Fulfilled response ->
  ok response = true ->
  body response = Some reader ->
  exists ps,
    length ps = length (chunks reader) /\
    snd (translate w text targetLang signal true true) = calls w ps (chunks reader) /\
    snd (translate w text targetLang signal true false) = map Progress ps /\
    snd (translate w text targetLang signal false true) =
    map (fun n => Stream (accumulated w (firstn n (chunks reader))))
      (seq 1 (length (chunks reader))) /\
    snd (translate w text targetLang signal false false) = [].
Proof.
  intros Hc Hf Hok Hb.
  destruct (read_all_calls w (fdiv (of_nat (length text)) (of_Z 4)) (chunks reader)
              {| fullContent := []; tokenCount := of_Z 0 |}) as (ps & Hl & H).
  exists ps. split; [exact Hl|].
  rewrite !(translate_reads w text targetLang signal _ _ response reader Hc Hf Hok Hb).
  rewrite !H. cbn [fullContent app]. clear H.
  assert (length ps = length (seq 1 (length (chunks reader)))) as Hl'
    by now rewrite length_seq.
  split; [reflexivity|].
  split; [now apply flat_map_progress|].
  split; [|apply flat_map_nothing].
  exact (flat_map_stream ps _ (fun n => accumulated w (firstn n (chunks reader))) Hl').
Qed.

(** The calls of the example: 63 and the first delta, then 100 and the
    whole buffer. *)
Lemma callbacks_once_per_fragment_example :
  exists ps,
    length ps = length translation /\
    snd (translate (endpoint (streaming translation)) source French None true true)
    = calls (endpoint (streaming translation)) ps translation /\
    snd (translate (endpoint (streaming translation)) source French None true false)
    = map Progress ps /\
    snd (translate (endpoint (streaming translation)) source French None false true) =
    map (fun n => Stream (accumulated (endpoint (streaming translation))
                            (firstn n translation)))
      (seq 1 (length translation)) /\
    snd (translate (endpoint (streaming translation)) source French None false false) = [].
Proof.
  apply (callbacks_once_per_fragment
           (endpoint (streaming translation)) source French None
           {| status := 200; body := Some {| chunks := translation; ending := Closed |} |}
           {| chunks := translation; ending := Closed |}).
  - split; reflexivity.
  - reflexivity.
  - reflexivity.
  - reflexivity.
Defined.

(** X9: for a source text that is not empty, [onProgress] is passed 0
    as long as no delta has arrived, and 100 as soon as the buffer is at
    least as long as the source text, however much longer it gets. *)
Theorem progress_at_the_ends w text targetLang signal s response reader :
  configured w ->
  fetched w text targetLang signal = Fulfilled response ->
  ok response = true ->
  body response = Some reader ->
  text <> [] ->
  Z.of_nat (length text) < 2 ^ 53 ->
  Z.of_nat (length (accumulated w (chunks reader))) < 2 ^ 53 ->
  Forall2
    (fun total progress =>
       (total = 0%nat -> progress = of_Z 0) /\
       ((length text <= total)%nat -> progress = of_Z 100))
    (running_totals w 0 (chunks reader))
    (progress_values (snd (translate w text targetLang signal true s))).
Proof.
  intros Hc Hf Hok Hb Ht Hl Ha.
  rewrite (progress_of_totals w text targetLang signal s response reader Hc Hf Hok Hb Hl Ha).
  pose proof (running_totals_le w (chunks reader) 0) as B.
  assert (0 < Z.of_nat (length text)) as Lp
    by (destruct text; [now elim Ht | cbn [length]; lia]).
  induction B as [|total totals Hb1 _ IH]; [constructor|].
  cbn [map]. constructor; [|exact IH]. split.
  - intros ->. cbn [Z.of_nat]. rewrite Z.mul_0_l. now apply progress_nothing.
  - intros Hle. apply progress_full; lia.
Qed.

(** The example: 23 of 35 code units, then 39. *)
Lemma progress_at_the_ends_example :
  Forall2
    (fun total progress =>
       (total = 0%nat -> progress = of_Z 0) /\
       ((length source <= total)%nat -> progress = of_Z 100))
    (running_totals (endpoint (streaming translation)) 0 translation)
    (progress_values
       (snd (translate (endpoint (streaming translation)) source French None true false))).
Proof.
  apply (progress_at_the_ends
           (endpoint (streaming translation)) source French None false
           {| status := 200; body := Some {| chunks := translation; ending := Closed |} |}
           {| chunks := translation; ending := Closed |}).
  - split; reflexivity.
  - reflexivity.
  - reflexivity.
  - reflexivity.
  - discriminate.
  - vm_compute. reflexivity.
  - vm_compute. reflexivity.
Defined.

(** X10: for an empty source text the estimate is 0, and [onProgress] is
    passed NaN as long as no delta has arrived and 100 afterwards. *)
Theorem progress_for_empty_text w targetLang signal s response reader :
  configured w ->
  fetched w [] targetLang signal = Fulfilled response ->
  ok response = true ->
  body response = Some reader ->
  Z.of_nat (length (accumulated w (chunks reader))) < 2 ^ 53 ->
  progress_values (snd (translate w [] targetLang signal true s)) =
  map (fun total => match total with O => NaN | S _ => of_Z 100 end)
    (running_totals w 0 (chunks reader)).
Proof.
  intros Hc Hf Hok Hb Ha.
  rewrite (progress_of_totals w [] targetLang signal s response reader Hc Hf Hok Hb);
    [ | reflexivity | exact Ha ].
  pose proof (running_totals_le w (chunks reader) 0) as B.
  apply map_ext_in. intros total Hin.
  rewrite Forall_forall in B. specialize (B total Hin). cbv beta in B.
  cbn [length Z.of_nat]. rewrite Z.mul_0_l, progress_of_empty by lia.
  destruct total; reflexivity.
Qed.

(** A comment line, then the delta [{}]. *)
Lemma progress_for_empty_text_example :
  progress_values
    (snd (translate (endpoint (streaming late_delta)) [] French None true false)) =
  map (fun total => match total with O => NaN | S _ => of_Z 100 end)
    (running_totals (endpoint (streaming late_delta)) 0 late_delta).
Proof.
  apply (progress_for_empty_text
           (endpoint (streaming late_delta)) French None false
           {| status := 200; body := Some {| chunks := late_delta; ending := Closed |} |}
           {| chunks := late_delta; ending := Closed |}).
  - split; reflexivity.
  - reflexivity.
  - reflexivity.
  - reflexivity.
  - vm_compute. reflexivity.
Defined.

(** ** The request and the events *)

(** X11: whatever the source text and the target language contain
    (quotation marks, backslashes, line breaks, unpaired surrogates), the
    body of the request is a JSON text, and it parses to the object of
    lines 42 to 56: the model, the system message, the user message whose
    content is the prompt, the temperature 0.3 and [stream: true]. *)
Theorem request_body_is_json key text targetLang signal :
  JSON_parse (request_body (request key text targetLang signal))
  = Some (requestData text targetLang).
Proof.
  unfold request. cbn [request_body].
  apply JSON_parse_compact;
    [apply requestData_well_formed | apply requestData_written_exactly].
Qed.

(** X12: an event whose [content] is a primitive value [c], written by
    [JSON.stringify] on a line after [data: ], adds to the buffer what
    line 123 makes of [c]: a String as it is, [true] as the text [true],
    a finite Number other than zero as its decimal text, and nothing for
    [null], [false], zero and negative zero, nor for NaN and the
    infinities, which are written [null]. *)
Theorem event_line_delivers_delta (w : World) (c : value) :
  primitive c ->
  line_content w (str "data: " ++ JSON_stringify (delta_of c) 0) =
  match c with
  | String s => s
  | Boolean true => str "true"
  | Number n => if is_finite n && truthy n then Number_toString n else []
  | _ => []
  end.
Proof.
  intros Hc.
  assert (well_formed (delta_of c)) as Hwf.
  { unfold delta_of.
    repeat (constructor; cbn [ordered snd]; try exact I).
    destruct c; try contradiction; now constructor. }
  rewrite (line_content_written w _ Hwf).
  change (delta_content w (written (delta_of c)))
    with (if ToBoolean (written c) then appended w (written c) else Some []).
  destruct c as [| [|] | [| neg | neg [|k|k]] | content | |];
    try contradiction;
    try (destruct neg);
    cbn [written written_number ToBoolean appended ToString truthy is_finite andb negb
         Z.eqb];
    try (destruct content);
    exact eq_refl.
Qed.

(** The Number 12.5 as content. *)
Lemma event_line_delivers_delta_example :
  line_content (endpoint (streaming []))
    (str "data: " ++ JSON_stringify
                       (delta_of (Number (decimal_to_number false 125 (-1)))) 0) =
  if is_finite (decimal_to_number false 125 (-1)) && truthy (decimal_to_number false 125 (-1))
  then Number_toString (decimal_to_number false 125 (-1)) else [].
Proof.
  apply (event_line_delivers_delta (endpoint (streaming []))
           (Number (decimal_to_number false 125 (-1)))).
  exact (decimal_to_number_is_Number false 125 (-1) ltac:(lia)).
Defined.

(** X13: a delta sent as the String [content] of an event object is
    added to the buffer as it is, for every String: quotation marks,
    backslashes, line feeds and unpaired surrogates included. *)
Theorem delta_survives_the_event_line (w : World) (content : jsstring) :
  line_content w (str "data: " ++ JSON_stringify (delta_object content) 0) = content.
Proof.
  rewrite line_content_compact.
  - unfold delta_object. destruct content; reflexivity.
  - unfold delta_object. repeat (constructor; cbn [ordered snd]; try exact I).
  - unfold delta_object. repeat constructor.
Qed.

(** ** The cleanup and the fragments *)



(** X15: when every fragment but the last ends with a line feed, and no
    fragment begins with a byte order mark, the read loop ends with the
    buffer that the whole body delivered in a single fragment gives:
    fragment boundaries after line feeds lose nothing. *)
Theorem fragments_cut_after_line_feeds w est p s st
  (values : list (list byte)) (last : list byte) :
  Forall ends_with_LF values ->
  Forall (fun value => begins_with_BOM value = false) (values ++ [last]) ->
  fullContent (fst (read_all w est p s st (values ++ [last]))) =
  fullContent (fst (read_all w est p s st [concat (values ++ [last])])).
Proof.
  intros H1 H2. rewrite !read_all_fullContent. f_equal.
  rewrite (accumulated_lines w values last H1 H2).
  unfold accumulated. cbn [map concat]. now rewrite app_nil_r.
Qed.

(** The two fragments of the example. *)
Lemma fragments_cut_after_line_feeds_example :
  fullContent
    (fst (read_all (endpoint (streaming [])) (of_Z 9) true true
            {| fullContent := []; tokenCount := of_Z 0 |}
            ([delta_event "{\'greeting\':\'bonjour\',"]
               ++ [delta_event "\'n\':[1.5,null]}" ++ event_line "data: [DONE]"]))) =
  fullContent
    (fst (read_all (endpoint (streaming [])) (of_Z 9) true true
            {| fullContent := []; tokenCount := of_Z 0 |}
            [concat ([delta_event "{\'greeting\':\'bonjour\',"]
                       ++ [delta_event "\'n\':[1.5,null]}" ++ event_line "data: [DONE]"])])).
Proof.
  apply (fragments_cut_after_line_feeds
           (endpoint (streaming [])) (of_Z 9) true true
           {| fullContent := []; tokenCount := of_Z 0 |}
           [delta_event "{\'greeting\':\'bonjour\',"]
           (delta_event "\'n\':[1.5,null]}" ++ event_line "data: [DONE]")).
  - constructor; [|constructor].
    exists (qbytes "data: {'choices':[{'delta':{'content':'"
              ++ qbytes "{\'greeting\':\'bonjour\',"
              ++ qbytes "'}}]}").
    vm_compute. reflexivity.
  - repeat constructor.
Defined.

End Behaviour.
